(** * SSZ (Simple Serialize) encoder: a shallow embedding of [serialize.ts]

    The development follows the layout of the source: exceptions become
    the [Result] error monad, the output [Buffer] is threaded explicitly
    through every writer (each writer returns the updated buffer together
    with the post-write index), and the mutually recursive dispatcher
    [_serialize] recurses on the type descriptor. *)

From Stdlib Require Import ZArith Lia Ascii String.
From stdpp Require Import base list strings gmap sorting.

Set Warnings "-register-all".
Local Open Scope Z_scope.
Local Open Scope nat_scope.

(** ** Exceptions *)

Inductive Error : Type :=
| BadType          (* descriptor normalisation failed *)
| InvalidValue     (* value validation failed *)
| RangeError       (* Buffer write out of bounds or value out of range *)
| AssertionError   (* bn.js internal assertion *)
| TypeError        (* value and descriptor of different shapes *)
| Undefined.       (* a helper applied outside its domain *)

Inductive Result (A : Type) : Type :=
| Ok (a : A)
| Err (e : Error).
Arguments Ok {A} a.
Arguments Err {A} e.

#[global] Instance Result_ret : MRet Result := λ A a, Ok a.
#[global] Instance Result_bind : MBind Result := λ A B k m,
  match m with
  | Ok a => k a
  | Err e => Err e
  end.

(** ** Type descriptors and values

    [serialize.ts] imports its types from [types] and the offset width
    from [constants]; neither module is available. *)

(** Modelled from the spec: [BYTES_PER_LENGTH_PREFIX] of [constants], the
    width of an offset slot (section 4.2). *)
Definition BYTES_PER_LENGTH_PREFIX : nat := 4.

(** Modelled from the spec: [UintType] of [types], the parameters of the
    [Uint] row of the descriptor table (section 3). *)
Record UintType : Type := mkUint {
  byteLength : nat;
  useNumber : bool;
  offset : Z;
}.

(** Modelled from the spec: [FullSSZType] of [types], the closed variant set
    of the descriptor table (section 3); [maxLength = None] stands for an
    unbounded list. *)
Inductive FullSSZType : Type :=
| TBool
| TUint (u : UintType)
| TByteList (maxLength : option nat)
| TByteVector (length : nat)
| TList (elementType : FullSSZType) (maxLength : option nat)
| TVector (elementType : FullSSZType) (length : nat)
| TContainer (fields : list (string * FullSSZType)).

(** A byte is an integer in [0, 256); a [Buffer] is a fixed-length byte
    array. *)
Abbreviation Buffer := (list Z).

(** Modelled from the spec: [SerializableValue] of [types], the values of
    section 3.  A Uint value is the [Infinity] sentinel or a finite
    integer: a [BN], or a [number] in the safe-integer range, where
    [new BN] is exact.  An object is a finite map from field names to
    values. *)
Inductive Value : Type :=
| VBool (b : bool)
| VNumber (n : Z)
| VInfinity
| VBytes (bs : list Z)
| VArray (vs : list Value)
| VObject (o : gmap string Value).

(** ** Node.js [Buffer] primitives *)

(** [Buffer.alloc(size)] and [Buffer.alloc(size, fill)]. *)
Definition Buffer_alloc (size : nat) : Buffer := replicate size 0%Z.
Definition Buffer_alloc_fill (size : nat) (fill : Z) : Buffer :=
  replicate size fill.

(** [Buffer.from(array)] keeps the low eight bits of every entry; on a
    [Buffer] it is the identity. *)
Definition Buffer_from (bs : list Z) : Buffer := (λ b, Z.land b 255) <$> bs.

(** In-bounds overwrite of [length bs] bytes at [start]. *)
Definition writeBytes (bs : Buffer) (output : Buffer) (start : nat) : Buffer :=
  take start output ++ bs ++ drop (start + length bs) output.

(** [src.copy(target, targetStart)]: copies as many bytes as fit, never
    grows the target, and copies nothing when [targetStart] is past the
    end. *)
Definition Buffer_copy (src target : Buffer) (targetStart : nat) : Buffer :=
  writeBytes (take (length target - targetStart) src) target targetStart.

(** The [n] low-order bytes of [x], least significant first. *)
Fixpoint le_bytes (x : Z) (n : nat) : list Z :=
  match n with
  | O => []
  | S n' => Z.land x 255 :: le_bytes (Z.shiftr x 8) n'
  end.

(** [output.writeUInt8(value, offset)] throws when [offset] is out of
    bounds or [value] is not a byte. *)
Definition writeUInt8 (output : Buffer) (value : Z) (offset : nat)
  : Result Buffer :=
  if bool_decide (0 ≤ value < 256)%Z && bool_decide (offset + 1 ≤ length output)
  then Ok (writeBytes [value] output offset)
  else Err RangeError.

(** [output.writeUIntLE(value, offset, byteLength)] supports widths 1..6,
    and throws when [value] does not fit the width or the slot is out of
    bounds. *)
Definition writeUIntLE (output : Buffer) (value : Z) (offset byteLength : nat)
  : Result Buffer :=
  if bool_decide (1 ≤ byteLength ≤ 6)
     && bool_decide (0 ≤ value < 2 ^ (8 * Z.of_nat byteLength))%Z
     && bool_decide (offset + byteLength ≤ length output)
  then Ok (writeBytes (le_bytes value byteLength) output offset)
  else Err RangeError.

(** Reading back an unsigned little-endian integer, [output.readUIntLE]. *)
Fixpoint le_value (bs : list Z) : Z :=
  match bs with
  | [] => 0
  | b :: bs' => b + 256 * le_value bs'
  end.

Definition readUIntLE (output : Buffer) (offset byteLength : nat) : Z :=
  le_value (take byteLength (drop offset output)).

(** ** bn.js primitives *)

(** A [BN] is modelled by the integer it denotes. [new BN(bytes)] reads a
    big-endian byte array. *)
Definition BN_of_bytes (bs : list Z) : Z :=
  foldl (λ acc b, acc * 256 + b)%Z 0%Z bs.

(** [bn.byteLength()]: the number of bytes of the magnitude. *)
Definition BN_byteLength (x : Z) : nat :=
  if bool_decide (x = 0)%Z then 0
  else Z.to_nat ((Z.log2 (Z.abs x) + 1 + 7) / 8).

(** [bn.toArrayLike(Buffer, "le", length)]: the magnitude in exactly
    [length] little-endian bytes ([length] zero means as many as needed);
    asserts that the magnitude fits. *)
Definition BN_toArrayLike_le (x : Z) (length : nat) : Result Buffer :=
  let reqLength := if bool_decide (length = 0) then max 1 (BN_byteLength x)
                   else length in
  if bool_decide (BN_byteLength x ≤ reqLength)
  then Ok (le_bytes (Z.abs x) reqLength)
  else Err AssertionError.

(** [new BN(value)] for a Uint value; bn.js asserts that a [number] is
    finite. *)
Definition BN_new (value : Value) : Result Z :=
  match value with
  | VNumber n => Ok n
  | VInfinity => Err AssertionError
  | _ => Err TypeError
  end.

Definition isInfinity (value : Value) : bool :=
  match value with VInfinity => true | _ => false end.

(** The guard of the first branch of [_serializeUint]:
    [type.byteLength > 6 && type.useNumber && value === Infinity]. *)
Definition sentinelBranch (type : UintType) (value : Value) : bool :=
  bool_decide (6 < byteLength type) && useNumber type && isInfinity value.

(** ** The size oracle and the descriptor predicates

    [isVariableSizeType], [fixedSize] and [size] are imported by
    [serialize.ts] from modules whose source is not available. *)

(** Modelled from the spec: [isVariableSizeType] of [util/types], after the
    "Fixed-size?" column of the descriptor table. *)
Fixpoint isVariableSizeType (type : FullSSZType) : bool :=
  match type with
  | TBool | TUint _ | TByteVector _ => false
  | TByteList _ | TList _ _ => true
  | TVector elementType _ => isVariableSizeType elementType
  | TContainer fields =>
      existsb (λ f, isVariableSizeType f.2) fields
  end.

(** [xs.reduce((a, b) => a + b, 0)] over results that may have thrown. *)
Fixpoint sumResults (xs : list (Result nat)) : Result nat :=
  match xs with
  | [] => Ok 0
  | x :: xs' => a ← x; b ← sumResults xs'; Ok (a + b)
  end.

(** Modelled from the spec: [fixedSize] of [size], section 4.2; it is
    defined only on fixed-size descriptors. *)
Fixpoint fixedSize (type : FullSSZType) : Result nat :=
  match type with
  | TBool => Ok 1
  | TUint u => Ok (byteLength u)
  | TByteVector length => Ok length
  | TVector elementType length =>
      n ← fixedSize elementType; Ok (length * n)
  | TContainer fields =>
      sumResults ((λ f, fixedSize f.2) <$> fields)
  | TByteList _ | TList _ _ => Err Undefined
  end.

(** [value[fieldName]] for a field that the object has.  A missing field
    reads as [undefined] in JavaScript, which the writers coerce ([Bool]
    and [Uint] write 0) or throw on; the model does not follow these
    coercions and stops with [TypeError].  [assertValidValue] rejects such
    an object before the dispatcher runs, and [shaped] excludes it. *)
Definition getField (o : gmap string Value) (fieldName : string)
  : Result Value :=
  match o !! fieldName with
  | Some v => Ok v
  | None => Err TypeError
  end.

(** Modelled from the spec: [size] of [size], section 4.2, total on valid
    values.  The spec lists a clause for fixed-size descriptors,
    [ByteList], [List] and [Container]; a [Vector] of variable-size
    elements is laid out like a [List] (sections 4.4 and 6.1), behind an
    offset table, and is sized like one. *)
Fixpoint size (value : Value) (type : FullSSZType) {struct type}
  : Result nat :=
  if negb (isVariableSizeType type) then fixedSize type
  else
    match type, value with
    | TByteList _, VBytes bs => Ok (length bs)
    | TList elementType _, VArray vs | TVector elementType _, VArray vs =>
        if isVariableSizeType elementType
        then s ← sumResults ((λ v, size v elementType) <$> vs);
             Ok (length vs * BYTES_PER_LENGTH_PREFIX + s)
        else n ← fixedSize elementType; Ok (length vs * n)
    | TContainer fields, VObject o =>
        sumResults
          ((λ f, if isVariableSizeType f.2
                 then v ← getField o f.1; s ← size v f.2;
                      Ok (BYTES_PER_LENGTH_PREFIX + s)
                 else fixedSize f.2) <$> fields)
    | _, _ => Err InvalidValue
    end.

(** ** The serializer, [serialize.ts] *)

Definition _serializeUint (value : Value) (type : UintType)
    (output : Buffer) (start : nat) : Result (Buffer * nat) :=
  let offset_ := start + byteLength type in
  bnValue ←
    (if sentinelBranch type value
     then Ok (BN_of_bytes (Buffer_alloc_fill (byteLength type) 255))
     else a ← BN_new value; Ok (a + offset type)%Z);
  bytes ← BN_toArrayLike_le bnValue (byteLength type);
  Ok (Buffer_copy bytes output start, offset_).

Definition _serializeBool (value : bool) (output : Buffer) (start : nat)
  : Result (Buffer * nat) :=
  let offset_ := start + 1 in
  output' ← (if value then writeUInt8 output 1 start
             else writeUInt8 output 0 start);
  Ok (output', offset_).

Definition _serializeByteArray (value : list Z) (type : FullSSZType)
    (output : Buffer) (start : nat) : Result (Buffer * nat) :=
  let length_ := match type with
                 | TByteVector length => length
                 | _ => length value
                 end in
  let offset_ := start + length_ in
  Ok (Buffer_copy (Buffer_from value) output start, offset_).

(** The dispatcher that a loop calls back into, closed over the element
    or field type. *)
Definition Writer : Type := Value → Buffer → nat → Result (Buffer * nat).

(** The loop of [_serializeArray] over variable-size elements. *)
Fixpoint _serializeArray_variable (ser : Writer) (start : nat)
    (value : list Value) (output : Buffer)
    (fixedIndex currentOffsetIndex : nat) : Result (Buffer * nat) :=
  match value with
  | [] => Ok (output, currentOffsetIndex)
  | v :: value' =>
      '(output, nextOffsetIndex) ← ser v output currentOffsetIndex;
      output ← writeUIntLE output (Z.of_nat (currentOffsetIndex - start))
                 fixedIndex BYTES_PER_LENGTH_PREFIX;
      _serializeArray_variable ser start value' output
        (fixedIndex + BYTES_PER_LENGTH_PREFIX) nextOffsetIndex
  end.

(** The loop of [_serializeArray] over fixed-size elements. *)
Fixpoint _serializeArray_fixed (ser : Writer) (value : list Value)
    (output : Buffer) (index : nat) : Result (Buffer * nat) :=
  match value with
  | [] => Ok (output, index)
  | v :: value' =>
      '(output, index) ← ser v output index;
      _serializeArray_fixed ser value' output index
  end.

Definition _serializeArray (ser : Writer) (elementIsVariable : bool)
    (value : list Value) (output : Buffer) (start : nat)
  : Result (Buffer * nat) :=
  if elementIsVariable
  then _serializeArray_variable ser start value output start
         (start + length value * BYTES_PER_LENGTH_PREFIX)
  else _serializeArray_fixed ser value output start.

(** [fixedLength] of [_serializeObject]. *)
Definition fixedLengthOf (fields : list (string * FullSSZType)) : Result nat :=
  sumResults
    ((λ f, if isVariableSizeType f.2 then Ok BYTES_PER_LENGTH_PREFIX
           else fixedSize f.2) <$> fields).

(** The dispatcher.  [_serializeArray] is applied to the dispatcher closed
    over the element type; the loop of [_serializeObject] runs over the
    declared fields, so it is written in place (and exposed again as
    [_serializeObject_loop] below).  A value whose shape does not match the
    descriptor is rejected by [assertValidValue] before the dispatcher
    runs; the source leaves such calls to JavaScript coercions, which the
    model does not follow: it stops with [TypeError] and says nothing of
    what the code does there.  The values of the shape a descriptor asks
    for are those of [shaped]. *)
Fixpoint _serialize (value : Value) (type : FullSSZType) (output : Buffer)
    (start : nat) {struct type} : Result (Buffer * nat) :=
  match type with
  | TBool =>
      match value with
      | VBool b => _serializeBool b output start
      | _ => Err TypeError
      end
  | TUint u => _serializeUint value u output start
  | TByteList _ | TByteVector _ =>
      match value with
      | VBytes bs => _serializeByteArray bs type output start
      | _ => Err TypeError
      end
  | TList elementType _ | TVector elementType _ =>
      match value with
      | VArray vs =>
          _serializeArray (λ v, _serialize v elementType)
            (isVariableSizeType elementType) vs output start
      | _ => Err TypeError
      end
  | TContainer fields =>
      match value with
      | VObject o =>
          fixedLength ← fixedLengthOf fields;
          (fix loop (fs : list (string * FullSSZType)) (output : Buffer)
               (fixedIndex currentOffsetIndex : nat) {struct fs}
             : Result (Buffer * nat) :=
             match fs with
             | [] => Ok (output, currentOffsetIndex)
             | (fieldName, fieldType) :: fs' =>
                 if isVariableSizeType fieldType
                 then
                   v ← getField o fieldName;
                   '(output, nextOffsetIndex) ←
                     _serialize v fieldType output currentOffsetIndex;
                   output ← writeUIntLE output
                              (Z.of_nat (currentOffsetIndex - start))
                              fixedIndex BYTES_PER_LENGTH_PREFIX;
                   loop fs' output (fixedIndex + BYTES_PER_LENGTH_PREFIX)
                     nextOffsetIndex
                 else
                   v ← getField o fieldName;
                   '(output, fixedIndex) ←
                     _serialize v fieldType output fixedIndex;
                   loop fs' output fixedIndex currentOffsetIndex
             end) fields output start (start + fixedLength)
      | _ => Err TypeError
      end
  end.

(** The field loop of [_serializeObject], as a function of its own. *)
Fixpoint _serializeObject_loop (value : gmap string Value) (start : nat)
    (fs : list (string * FullSSZType)) (output : Buffer)
    (fixedIndex currentOffsetIndex : nat) : Result (Buffer * nat) :=
  match fs with
  | [] => Ok (output, currentOffsetIndex)
  | (fieldName, fieldType) :: fs' =>
      if isVariableSizeType fieldType
      then
        v ← getField value fieldName;
        '(output, nextOffsetIndex) ←
          _serialize v fieldType output currentOffsetIndex;
        output ← writeUIntLE output (Z.of_nat (currentOffsetIndex - start))
                   fixedIndex BYTES_PER_LENGTH_PREFIX;
        _serializeObject_loop value start fs' output
          (fixedIndex + BYTES_PER_LENGTH_PREFIX) nextOffsetIndex
      else
        v ← getField value fieldName;
        '(output, fixedIndex) ← _serialize v fieldType output fixedIndex;
        _serializeObject_loop value start fs' output fixedIndex
          currentOffsetIndex
  end.

Definition _serializeObject (value : gmap string Value)
    (fields : list (string * FullSSZType)) (output : Buffer) (start : nat)
  : Result (Buffer * nat) :=
  fixedLength ← fixedLengthOf fields;
  _serializeObject_loop value start fields output start (start + fixedLength).

(** ** The serializer as a run on the caller's buffer

    The writers mutate [output] in place: what a call has written before it
    throws stays in the caller's buffer.  A run gives the buffer the call
    leaves behind together with the index it returns or the error it
    throws; [_serialize_run] is [_serialize] again, with the buffer
    threaded through the throws as well. *)
Definition Run : Type := Buffer → Buffer * Result nat.

(** The leaf writers, [writeUInt8] and [writeUIntLE] check before they
    write, and [copy] never throws: a leaf that throws has written
    nothing. *)
Definition leafRun (write : Buffer → Result (Buffer * nat)) : Run :=
  λ output,
    match write output with
    | Ok (output', index) => (output', Ok index)
    | Err e => (output, Err e)
    end.

Fixpoint _serializeArray_variable_run (ser : Value → nat → Run) (start : nat)
    (value : list Value) (fixedIndex currentOffsetIndex : nat) : Run :=
  λ output,
    match value with
    | [] => (output, Ok currentOffsetIndex)
    | v :: value' =>
        match ser v currentOffsetIndex output with
        | (output, Ok nextOffsetIndex) =>
            match writeUIntLE output (Z.of_nat (currentOffsetIndex - start))
                    fixedIndex BYTES_PER_LENGTH_PREFIX with
            | Ok output =>
                _serializeArray_variable_run ser start value'
                  (fixedIndex + BYTES_PER_LENGTH_PREFIX) nextOffsetIndex
                  output
            | Err e => (output, Err e)
            end
        | (output, Err e) => (output, Err e)
        end
    end.

Fixpoint _serializeArray_fixed_run (ser : Value → nat → Run)
    (value : list Value) (index : nat) : Run :=
  λ output,
    match value with
    | [] => (output, Ok index)
    | v :: value' =>
        match ser v index output with
        | (output, Ok index) =>
            _serializeArray_fixed_run ser value' index output
        | (output, Err e) => (output, Err e)
        end
    end.

Definition _serializeArray_run (ser : Value → nat → Run)
    (elementIsVariable : bool) (value : list Value) (start : nat) : Run :=
  if elementIsVariable
  then _serializeArray_variable_run ser start value start
         (start + length value * BYTES_PER_LENGTH_PREFIX)
  else _serializeArray_fixed_run ser value start.

Fixpoint _serialize_run (value : Value) (type : FullSSZType) (start : nat)
    (output : Buffer) {struct type} : Buffer * Result nat :=
  match type with
  | TBool | TUint _ | TByteList _ | TByteVector _ =>
      leafRun (λ output, _serialize value type output start) output
  | TList elementType _ | TVector elementType _ =>
      match value with
      | VArray vs =>
          _serializeArray_run (λ v, _serialize_run v elementType)
            (isVariableSizeType elementType) vs start output
      | _ => (output, Err TypeError)
      end
  | TContainer fields =>
      match value with
      | VObject o =>
          match fixedLengthOf fields with
          | Ok fixedLength =>
              (fix loop (fs : list (string * FullSSZType))
                   (fixedIndex currentOffsetIndex : nat) (output : Buffer)
                   {struct fs} : Buffer * Result nat :=
                 match fs with
                 | [] => (output, Ok currentOffsetIndex)
                 | (fieldName, fieldType) :: fs' =>
                     match getField o fieldName with
                     | Ok v =>
                         if isVariableSizeType fieldType
                         then
                           match _serialize_run v fieldType
                                   currentOffsetIndex output with
                           | (output, Ok nextOffsetIndex) =>
                               match writeUIntLE output
                                       (Z.of_nat (currentOffsetIndex - start))
                                       fixedIndex BYTES_PER_LENGTH_PREFIX
                               with
                               | Ok output =>
                                   loop fs'
                                     (fixedIndex + BYTES_PER_LENGTH_PREFIX)
                                     nextOffsetIndex output
                               | Err e => (output, Err e)
                               end
                           | (output, Err e) => (output, Err e)
                           end
                         else
                           match _serialize_run v fieldType fixedIndex output
                           with
                           | (output, Ok fixedIndex) =>
                               loop fs' fixedIndex currentOffsetIndex output
                           | (output, Err e) => (output, Err e)
                           end
                     | Err e => (output, Err e)
                     end
                 end) fields start (start + fixedLength) output
          | Err e => (output, Err e)
          end
      | _ => (output, Err TypeError)
      end
  end.

(** The field loop of the run, as a function of its own. *)
Fixpoint _serializeObject_loop_run (value : gmap string Value) (start : nat)
    (fs : list (string * FullSSZType))
    (fixedIndex currentOffsetIndex : nat) (output : Buffer)
  : Buffer * Result nat :=
  match fs with
  | [] => (output, Ok currentOffsetIndex)
  | (fieldName, fieldType) :: fs' =>
      match getField value fieldName with
      | Ok v =>
          if isVariableSizeType fieldType
          then
            match _serialize_run v fieldType currentOffsetIndex output with
            | (output, Ok nextOffsetIndex) =>
                match writeUIntLE output
                        (Z.of_nat (currentOffsetIndex - start))
                        fixedIndex BYTES_PER_LENGTH_PREFIX with
                | Ok output =>
                    _serializeObject_loop_run value start fs'
                      (fixedIndex + BYTES_PER_LENGTH_PREFIX)
                      nextOffsetIndex output
                | Err e => (output, Err e)
                end
            | (output, Err e) => (output, Err e)
            end
          else
            match _serialize_run v fieldType fixedIndex output with
            | (output, Ok fixedIndex) =>
                _serializeObject_loop_run value start fs' fixedIndex
                  currentOffsetIndex output
            | (output, Err e) => (output, Err e)
            end
      | Err e => (output, Err e)
      end
  end.

(** What a run gives to a caller that can only see a return: the first
    embedding drops the buffer of a throw. *)
Definition returned (run : Buffer * Result nat) : Result (Buffer * nat) :=
  match run with
  | (output, Ok index) => Ok (output, index)
  | (_, Err e) => Err e
  end.

(** [shaped value type]: the value is of the TypeScript type that the
    writer for [type] declares for its argument ([Bool], [Uint], [Bytes],
    [SerializableArray], or a [SerializableObject] with every declared
    field), whether or not it passes [assertValidValue].  On such values
    the writers involve no JavaScript coercion. *)
Fixpoint shaped (value : Value) (type : FullSSZType) {struct type} : bool :=
  match type, value with
  | TBool, VBool _ => true
  | TUint _, VNumber _ | TUint _, VInfinity => true
  | TByteList _, VBytes _ | TByteVector _, VBytes _ => true
  | TList elementType _, VArray vs | TVector elementType _, VArray vs =>
      forallb (λ v, shaped v elementType) vs
  | TContainer fields, VObject o =>
      forallb (λ f, match o !! f.1 with
                    | Some v => shaped v f.2
                    | None => false
                    end) fields
  | _, _ => false
  end.

(** [Framed output s n output']: [output'] is [output] but for the [n]
    bytes at [s]. *)
Definition Framed (output : Buffer) (s n : nat) (output' : Buffer) : Prop :=
  length output' = length output
  ∧ ∀ i, i < s ∨ s + n ≤ i → output' !! i = output !! i.

(** A run on [output] from [s] has written inside the [n] bytes at [s]
    only, and returns [s + n] if it returns. *)
Definition RunFramed (run : Buffer * Result nat) (output : Buffer)
    (s n : nat) : Prop :=
  Framed output s n run.1 ∧ ∀ idx, run.2 = Ok idx → idx = s + n.

(** [Kept run output s]: a run from [s] on [output] has not resized the
    buffer, has left a buffer of bytes a buffer of bytes, has returned an
    index at or after [s] if it returned, and has not reached a coercion
    that the model leaves out (its [TypeError]). *)
Definition Kept (run : Buffer * Result nat) (output : Buffer) (s : nat)
  : Prop :=
  length run.1 = length output
  ∧ (Forall (λ b, 0 ≤ b < 256)%Z output → Forall (λ b, 0 ≤ b < 256)%Z run.1)
  ∧ (∀ idx, run.2 = Ok idx → s ≤ idx)
  ∧ run.2 ≠ Err TypeError.

(** ** Descriptor normalisation and value validation

    [parseType] and [assertValidValue] are imported by [serialize.ts] from
    modules whose source is not available. *)

(** Modelled from the spec: [AnySSZType] of [types], what [serialize]
    accepts as a type (section 4.1): a descriptor that is already
    normalised, a shorthand string, a one-element sequence [[T]], a pair
    [[T, n]], or a named record of fields. *)
Inductive AnySSZType : Type :=
| Full (type : FullSSZType)
| Shorthand (s : string)
| ListOf (elementType : AnySSZType)
| VectorOf (elementType : AnySSZType) (length : Z)
| ContainerOf (name : string) (fields : list (string * AnySSZType)).

Definition digitOf (c : ascii) : option nat :=
  let n := nat_of_ascii c in
  if bool_decide (48 ≤ n ≤ 57) then Some (n - 48) else None.

Fixpoint parseDigits (acc : nat) (s : string) : option nat :=
  match s with
  | EmptyString => Some acc
  | String c s' => d ← digitOf c; parseDigits (10 * acc + d) s'
  end.

Definition parseDecimal (s : string) : option nat :=
  match s with
  | EmptyString => None
  | _ => parseDigits 0 s
  end.

Definition supportedUintBits : list nat := [8; 16; 32; 64; 128; 256].

(** Modelled from the spec: the shorthand strings of section 4.1, ["bool"],
    ["uintN"], ["bytes"] and ["bytesN"]. *)
Definition parseShorthand (s : string) : Result FullSSZType :=
  if bool_decide (s = "bool"%string) then Ok TBool
  else if bool_decide (s = "bytes"%string) then Ok (TByteList None)
  else if String.prefix "uint" s then
    match parseDecimal (String.substring 4 (String.length s - 4) s) with
    | Some bits =>
        if bool_decide (bits ∈ supportedUintBits)
        then Ok (TUint (mkUint (bits / 8) false 0))
        else Err BadType
    | None => Err BadType
    end
  else if String.prefix "bytes" s then
    match parseDecimal (String.substring 5 (String.length s - 5) s) with
    | Some n => Ok (TByteVector n)
    | None => Err BadType
    end
  else Err BadType.

Fixpoint sequenceResults {A} (xs : list (Result A)) : Result (list A) :=
  match xs with
  | [] => Ok []
  | x :: xs' => a ← x; as' ← sequenceResults xs'; Ok (a :: as')
  end.

(** Modelled from the spec: [parseType] of [util/types], section 4.1.  A
    descriptor in normal form is returned unchanged; shorthand uints carry
    the default [offset] 0 and no [useNumber]; shorthand lists are
    unbounded. *)
Fixpoint parseType (type : AnySSZType) : Result FullSSZType :=
  match type with
  | Full t => Ok t
  | Shorthand s => parseShorthand s
  | ListOf elementType =>
      t ← parseType elementType; Ok (TList t None)
  | VectorOf elementType length =>
      t ← parseType elementType;
      if bool_decide (0 < length)%Z then Ok (TVector t (Z.to_nat length))
      else Err BadType
  | ContainerOf _ fields =>
      fs ← sequenceResults
             ((λ f, t ← parseType f.2; Ok (f.1, t)) <$> fields);
      if bool_decide (NoDup (fs.*1)) then Ok (TContainer fs)
      else Err BadType
  end.

Fixpoint allOk (xs : list (Result unit)) : Result unit :=
  match xs with
  | [] => Ok ()
  | x :: xs' => _ ← x; allOk xs'
  end.

Definition require (b : bool) : Result unit :=
  if b then Ok () else Err InvalidValue.

Definition isByte (b : Z) : bool := bool_decide (0 ≤ b < 256)%Z.

Definition withinMax (n : nat) (maxLength : option nat) : bool :=
  match maxLength with
  | Some m => bool_decide (n ≤ m)
  | None => true
  end.

(** Modelled from the spec: [assertValidValue], section 4.3 (the [path] of
    the diagnostic is not modelled). *)
Fixpoint assertValidValue (value : Value) (type : FullSSZType) {struct type}
  : Result unit :=
  match type, value with
  | TBool, VBool _ => Ok ()
  | TUint u, VNumber n =>
      require (bool_decide (0 ≤ n < 2 ^ (8 * Z.of_nat (byteLength u)))%Z)
  | TUint u, VInfinity =>
      require (bool_decide (6 < byteLength u) && useNumber u)
  | TByteVector len, VBytes bs =>
      require (forallb isByte bs && bool_decide (length bs = len))
  | TByteList maxLength, VBytes bs =>
      require (forallb isByte bs && withinMax (length bs) maxLength)
  | TVector elementType len, VArray vs =>
      _ ← require (bool_decide (length vs = len));
      allOk ((λ v, assertValidValue v elementType) <$> vs)
  | TList elementType maxLength, VArray vs =>
      _ ← require (withinMax (length vs) maxLength);
      allOk ((λ v, assertValidValue v elementType) <$> vs)
  | TContainer fields, VObject o =>
      _ ← require (bool_decide (dom o = list_to_set (fields.*1)));
      allOk ((λ f, match o !! f.1 with
                   | Some v => assertValidValue v f.2
                   | None => Err InvalidValue
                   end) <$> fields)
  | _, _ => Err InvalidValue
  end.

(** The public entry point. *)
Definition serialize (value : Value) (type : AnySSZType) : Result Buffer :=
  _type ← parseType type;
  _ ← assertValidValue value _type;
  n ← size value _type;
  let buf := Buffer_alloc n in
  '(buf, _) ← _serialize value _type buf 0;
  Ok buf.

(** ** The wire format as a function

    [encode] gives the byte string that the dispatcher writes for a value,
    computed without a buffer: leaves as the leaf writers compute them, an
    aggregate as its fixed region (inline fixed-size children and 4-byte
    offset slots) followed by its variable region. *)

Definition encodeOffset (o : nat) : Result (list Z) :=
  if bool_decide (Z.of_nat o < 2 ^ 32)%Z
  then Ok (le_bytes (Z.of_nat o) BYTES_PER_LENGTH_PREFIX)
  else Err RangeError.

Definition encodeUint (value : Value) (type : UintType) : Result (list Z) :=
  bnValue ←
    (if sentinelBranch type value
     then Ok (BN_of_bytes (Buffer_alloc_fill (byteLength type) 255))
     else a ← BN_new value; Ok (a + offset type)%Z);
  BN_toArrayLike_le bnValue (byteLength type).

(** Offset table and bodies of a sequence of variable-size elements, the
    first body lying [cur] bytes after the start of the aggregate. *)
Fixpoint encodeVariable (enc : Value → Result (list Z)) (value : list Value)
    (cur : nat) : Result (list Z * list Z) :=
  match value with
  | [] => Ok ([], [])
  | v :: value' =>
      body ← enc v;
      slot ← encodeOffset cur;
      '(table, bodies) ← encodeVariable enc value' (cur + length body);
      Ok (slot ++ table, body ++ bodies)
  end.

Fixpoint encodeFixed (enc : Value → Result (list Z)) (value : list Value)
  : Result (list Z) :=
  match value with
  | [] => Ok []
  | v :: value' =>
      body ← enc v; rest ← encodeFixed enc value'; Ok (body ++ rest)
  end.

Fixpoint encode (value : Value) (type : FullSSZType) {struct type}
  : Result (list Z) :=
  match type with
  | TBool =>
      match value with
      | VBool b => Ok [if b then 1 else 0]%Z
      | _ => Err TypeError
      end
  | TUint u => encodeUint value u
  | TByteList _ | TByteVector _ =>
      match value with
      | VBytes bs => Ok (Buffer_from bs)
      | _ => Err TypeError
      end
  | TList elementType _ | TVector elementType _ =>
      match value with
      | VArray vs =>
          if isVariableSizeType elementType
          then '(table, bodies) ←
                 encodeVariable (λ v, encode v elementType) vs
                   (length vs * BYTES_PER_LENGTH_PREFIX);
               Ok (table ++ bodies)
          else encodeFixed (λ v, encode v elementType) vs
      | _ => Err TypeError
      end
  | TContainer fields =>
      match value with
      | VObject o =>
          fixedLength ← fixedLengthOf fields;
          '(fixedRegion, variableRegion) ←
            (fix loop (fs : list (string * FullSSZType)) (cur : nat)
                 {struct fs} : Result (list Z * list Z) :=
               match fs with
               | [] => Ok ([], [])
               | (fieldName, fieldType) :: fs' =>
                   v ← getField o fieldName;
                   body ← encode v fieldType;
                   if isVariableSizeType fieldType
                   then
                     slot ← encodeOffset cur;
                     '(fx, vr) ← loop fs' (cur + length body);
                     Ok (slot ++ fx, body ++ vr)
                   else
                     '(fx, vr) ← loop fs' cur;
                     Ok (body ++ fx, vr)
               end) fields fixedLength;
          Ok (fixedRegion ++ variableRegion)
      | _ => Err TypeError
      end
  end.

(** Fixed and variable region of a container, as a function of its own. *)
Fixpoint encodeFields (value : gmap string Value)
    (fs : list (string * FullSSZType)) (cur : nat)
  : Result (list Z * list Z) :=
  match fs with
  | [] => Ok ([], [])
  | (fieldName, fieldType) :: fs' =>
      v ← getField value fieldName;
      body ← encode v fieldType;
      if isVariableSizeType fieldType
      then
        slot ← encodeOffset cur;
        '(fx, vr) ← encodeFields value fs' (cur + length body);
        Ok (slot ++ fx, body ++ vr)
      else
        '(fx, vr) ← encodeFields value fs' cur;
        Ok (body ++ fx, vr)
  end.



(** ** Lengths

    [encodedLength] is the number of bytes by which the dispatcher advances
    its index, read off the index arithmetic of the writers: a [ByteVector]
    advances by the declared length, an aggregate by its fixed region plus
    its variable region. *)
Fixpoint encodedLength (value : Value) (type : FullSSZType) {struct type}
  : nat :=
  match type with
  | TBool => 1
  | TUint u => byteLength u
  | TByteVector len => len
  | TByteList _ =>
      match value with VBytes bs => length bs | _ => 0 end
  | TList elementType _ | TVector elementType _ =>
      match value with
      | VArray vs =>
          (if isVariableSizeType elementType
           then length vs * BYTES_PER_LENGTH_PREFIX else 0)
          + sum_list ((λ v, encodedLength v elementType) <$> vs)
      | _ => 0
      end
  | TContainer fields =>
      match value with
      | VObject o =>
          sum_list
            ((λ f, if isVariableSizeType f.2 then BYTES_PER_LENGTH_PREFIX
                   else match o !! f.1 with
                        | Some v => encodedLength v f.2
                        | None => 0
                        end) <$> fields)
          + sum_list
              ((λ f, if isVariableSizeType f.2
                     then match o !! f.1 with
                          | Some v => encodedLength v f.2
                          | None => 0
                          end
                     else 0) <$> fields)
      | _ => 0
      end
  end.

Definition fieldLength (o : gmap string Value) (f : string * FullSSZType)
  : nat :=
  match o !! f.1 with
  | Some v => encodedLength v f.2
  | None => 0
  end.

Definition fixedRegionLength (o : gmap string Value)
    (fs : list (string * FullSSZType)) : nat :=
  sum_list ((λ f, if isVariableSizeType f.2 then BYTES_PER_LENGTH_PREFIX
                  else fieldLength o f) <$> fs).

Definition variableRegionLength (o : gmap string Value)
    (fs : list (string * FullSSZType)) : nat :=
  sum_list ((λ f, if isVariableSizeType f.2 then fieldLength o f else 0)
              <$> fs).

(** The widths of the descriptor table: every [Uint] is 1, 2, 4, 8, 16 or
    32 bytes wide. *)
Definition supportedUintBytes : list nat := [1; 2; 4; 8; 16; 32].

Fixpoint wellFormed (type : FullSSZType) : bool :=
  match type with
  | TUint u => bool_decide (byteLength u ∈ supportedUintBytes)
  | TList elementType _ | TVector elementType _ => wellFormed elementType
  | TContainer fields => forallb (λ f, wellFormed f.2) fields
  | _ => true
  end.

(** Every normalised descriptor embedded in a shorthand is well formed;
    pure shorthand always is. *)
Fixpoint embeddedWellFormed (type : AnySSZType) : bool :=
  match type with
  | Full t => wellFormed t
  | Shorthand _ => true
  | ListOf elementType | VectorOf elementType _ =>
      embeddedWellFormed elementType
  | ContainerOf _ fields => forallb (λ f, embeddedWellFormed f.2) fields
  end.

(** The dispatcher refines [encode] on a value: on every buffer with room
    for the value it throws exactly when [encode] does, and otherwise
    overwrites [encodedLength] bytes at [start] with the encoding. *)
Definition Refines (value : Value) (type : FullSSZType) : Prop :=
  (∀ bs, encode value type = Ok bs → length bs = encodedLength value type)
  ∧ (∀ output start,
       start + encodedLength value type ≤ length output →
       _serialize value type output start
       = (bs ← encode value type;
          Ok (writeBytes bs output start, start + length bs))).

Definition FieldRefines (o : gmap string Value)
    (f : string * FullSSZType) : Prop :=
  ∃ v, o !! f.1 = Some v ∧ Refines v f.2.

(** [encode] succeeds, with the length the index arithmetic predicts. *)
Definition Encodes (v : Value) (type : FullSSZType) : Prop :=
  ∃ bs, encode v type = Ok bs ∧ length bs = encodedLength v type.

(** Validity of the children of an aggregate. *)
Definition validArray (elementType : FullSSZType) (vs : list Value) : Prop :=
  Forall (λ v, assertValidValue v elementType = Ok ()) vs.

Definition validFields (o : gmap string Value)
    (fields : list (string * FullSSZType)) : Prop :=
  Forall (λ f, ∃ v, o !! f.1 = Some v ∧ assertValidValue v f.2 = Ok ()) fields.

(** ** Offset slots

    Where an aggregate keeps the offsets of its variable-size children,
    relative to its start, and what it is expected to hold there. *)

Fixpoint arraySlots (pos n : nat) : list nat :=
  match n with
  | O => []
  | S n' => pos :: arraySlots (pos + BYTES_PER_LENGTH_PREFIX) n'
  end.

Definition fixedSizeOrZero (type : FullSSZType) : nat :=
  match fixedSize type with
  | Ok n => n
  | Err _ => 0
  end.

Fixpoint containerSlots (fs : list (string * FullSSZType)) (pos : nat)
  : list nat :=
  match fs with
  | [] => []
  | f :: fs' =>
      if isVariableSizeType f.2
      then pos :: containerSlots fs' (pos + BYTES_PER_LENGTH_PREFIX)
      else containerSlots fs' (pos + fixedSizeOrZero f.2)
  end.

Definition offsetSlots (value : Value) (type : FullSSZType) : list nat :=
  match type, value with
  | TList elementType _, VArray vs
  | TVector elementType _, VArray vs =>
      if isVariableSizeType elementType then arraySlots 0 (length vs) else []
  | TContainer fields, _ => containerSlots fields 0
  | _, _ => []
  end.

(** The offsets found in the slots of an aggregate written at [start]. *)
Definition writtenOffsets (output : Buffer) (start : nat)
    (slots : list nat) : list Z :=
  (λ p, readUIntLE output (start + p) BYTES_PER_LENGTH_PREFIX) <$> slots.

(** The length of the fixed region of an aggregate: [len(value) * 4] for an
    array of variable-size elements, the sum of [fixedSize] or 4 over the
    fields of a container. *)
Definition fixedRegionOf (value : Value) (type : FullSSZType) : Result nat :=
  match type, value with
  | TList _ _, VArray vs | TVector _ _, VArray vs =>
      Ok (length vs * BYTES_PER_LENGTH_PREFIX)
  | TContainer fields, _ => fixedLengthOf fields
  | _, _ => Err Undefined
  end.

(** Running positions of the bodies of variable-size children. *)
Fixpoint arrayOffsets (elementType : FullSSZType) (vs : list Value)
    (cur : nat) : list nat :=
  match vs with
  | [] => []
  | v :: vs' =>
      cur :: arrayOffsets elementType vs' (cur + encodedLength v elementType)
  end.

Fixpoint containerOffsets (o : gmap string Value)
    (fs : list (string * FullSSZType)) (cur : nat) : list nat :=
  match fs with
  | [] => []
  | f :: fs' =>
      if isVariableSizeType f.2
      then cur :: containerOffsets o fs' (cur + fieldLength o f)
      else containerOffsets o fs' cur
  end.

(** Every finite integer, once biased by the [offset] of its descriptor,
    still fits the width of the descriptor. *)
Fixpoint biasFits (value : Value) (type : FullSSZType) {struct type} : bool :=
  match type, value with
  | TUint u, VNumber n =>
      bool_decide (0 ≤ n + offset u < 2 ^ (8 * Z.of_nat (byteLength u)))%Z
  | TList elementType _, VArray vs | TVector elementType _, VArray vs =>
      forallb (λ v, biasFits v elementType) vs
  | TContainer fields, VObject o =>
      forallb (λ f, match o !! f.1 with
                    | Some v => biasFits v f.2
                    | None => true
                    end) fields
  | _, _ => true
  end.

(** ** ES6 [Map] and the map utilities of [util/map.ts]

    An ES6 [Map] (and, with unit values, a [Set]) iterates in insertion
    order: it is modelled by the list of its entries, oldest first, without
    repeated keys.  Keys are compared by a decidable equality; the value
    type does not contain [undefined], so a lookup is an [option]. *)

Module JsMap.
Section jsmap.
Context {K V : Type} `{EqDecision K}.

Fixpoint get (m : list (K * V)) (key : K) : option V :=
  match m with
  | [] => None
  | (k, v) :: m' => if decide (k = key) then Some v else get m' key
  end.

(** [m.set(key, value)]: an existing key keeps its place, a new key goes
    last. *)
Fixpoint set (m : list (K * V)) (key : K) (value : V) : list (K * V) :=
  match m with
  | [] => [(key, value)]
  | (k, v) :: m' =>
      if decide (k = key) then (k, value) :: m'
      else (k, v) :: set m' key value
  end.

Definition delete (m : list (K * V)) (key : K) : list (K * V) :=
  filter (λ kv, kv.1 ≠ key) m.

Definition keys (m : list (K * V)) : list K := m.*1.

Definition size (m : list (K * V)) : nat := length m.

End jsmap.
End JsMap.

(** A consistent comparator, as the language specification of
    [Array.prototype.sort] defines it: [compareFn(a, b) = 0] is an
    equivalence, and [< 0] and [> 0] are transitive. *)
Record ConsistentComparator {K} (compareFn : K → K → Z) : Prop := {
  compare_refl a : compareFn a a = 0%Z;
  compare_sym a b : compareFn a b = 0%Z → compareFn b a = 0%Z;
  compare_trans_eq a b c :
    compareFn a b = 0%Z → compareFn b c = 0%Z → compareFn a c = 0%Z;
  compare_trans_lt a b c :
    (compareFn a b < 0)%Z → (compareFn b c < 0)%Z → (compareFn a c < 0)%Z;
  compare_trans_gt a b c :
    (compareFn a b > 0)%Z → (compareFn b c > 0)%Z → (compareFn a c > 0)%Z
}.

(** [Array.from(keys).sort(compareFn)].  For a consistent comparator the
    language fixes the result: the keys in ascending order of [compareFn],
    keys that compare equal in the order they had (the sort is stable).
    It is computed here by inserting the keys from the last to the first,
    each before the first key that it does not compare above; by
    [sortKeys_unique] any stable sort gives the same list.  For any other
    comparator the order is implementation-defined, and the result is
    known to be a permutation of the keys only. *)
Fixpoint insertKey {K} (compareFn : K → K → Z) (key : K) (sorted : list K)
  : list K :=
  match sorted with
  | [] => [key]
  | x :: sorted' =>
      if bool_decide (compareFn key x ≤ 0)%Z then key :: x :: sorted'
      else x :: insertKey compareFn key sorted'
  end.

Definition sortKeys {K} (compareFn : K → K → Z) (keys : list K) : list K :=
  foldr (insertKey compareFn) [] keys.

(** [comesBefore keys a b]: [a] stands before [b] in [keys]. *)
Definition comesBefore {K} (keys : list K) (a b : K) : Prop :=
  ∃ i j, keys !! i = Some a ∧ keys !! j = Some b ∧ i < j.

(** The order of a stable sort of [keys] by [compareFn]. *)
Definition sortedBefore {K} (compareFn : K → K → Z) (keys : list K)
    (a b : K) : Prop :=
  (compareFn a b < 0)%Z ∨ (compareFn a b = 0%Z ∧ comesBefore keys a b).

Section pruneSetToMax.
Context {K V : Type} `{EqDecision K}.

(** The [for (const key of keys)] loop of [pruneSetToMax].  The iterator
    of a [Map] is live, but the loop only deletes the key it has just been
    given, so it visits the keys the map had on entry, in order. *)
Fixpoint pruneLoop (keys : list K) (set : list (K * V)) (itemsToDelete : Z)
  : list (K * V) :=
  match keys with
  | [] => set
  | key :: keys' =>
      let set := JsMap.delete set key in
      let itemsToDelete := (itemsToDelete - 1)%Z in
      if bool_decide (itemsToDelete ≤ 0)%Z then set
      else pruneLoop keys' set itemsToDelete
  end.

(** [pruneSetToMax(set, maxItems, compareFn?)] returns the pruned set and
    the count it reports; [maxItems] is an integer. *)
Definition pruneSetToMax (set : list (K * V)) (maxItems : Z)
    (compareFn : option (K → K → Z)) : list (K * V) * Z :=
  let itemsToDelete := (Z.of_nat (JsMap.size set) - maxItems)%Z in
  let deletedItems := Z.max 0 itemsToDelete in
  if bool_decide (itemsToDelete > 0)%Z
  then
    let keys := match compareFn with
                | Some cmp => sortKeys cmp (JsMap.keys set)
                | None => JsMap.keys set
                end in
    (pruneLoop keys set itemsToDelete, deletedItems)
  else (set, deletedItems).

(** The keys the loop of [pruneSetToMax] is given, in the order it is
    given them. *)
Definition visited (compareFn : option (K → K → Z)) (set : list (K * V))
  : list K :=
  match compareFn with
  | Some cmp => sortKeys cmp (JsMap.keys set)
  | None => JsMap.keys set
  end.

End pruneSetToMax.

(** [class MapDef]: a [Map] with [getOrDefault]; the call returns the
    value and the updated map. *)
Module MapDef.
Section mapdef.
Context {K V : Type} `{EqDecision K}.

Definition getOrDefault (getDefault : unit → V) (this : list (K * V))
    (key : K) : V * list (K * V) :=
  match JsMap.get this key with
  | Some value => (value, this)
  | None =>
      let value := getDefault () in
      (value, JsMap.set this key value)
  end.

End mapdef.
End MapDef.

(** [class MapDefMax]: the private [map], with [getDefault] and [maxKeys]
    fixed at construction. *)
Module MapDefMax.
Section mapdefmax.
Context {K V : Type} `{EqDecision K}.

Definition new : list (K * V) := [].

Definition getOrDefault (getDefault : unit → V) (maxKeys : Z)
    (map : list (K * V)) (key : K) : V * list (K * V) :=
  match JsMap.get map key with
  | Some value => (value, map)
  | None =>
      let value := getDefault () in
      let map := JsMap.set map key value in
      let map := (pruneSetToMax map maxKeys None).1 in
      (value, map)
  end.

Definition get (map : list (K * V)) (key : K) : option V :=
  JsMap.get map key.

(** The private [map] after [getOrDefault] has been called on a fresh
    [MapDefMax] with each of [keys] in turn. *)
Definition calls (getDefault : unit → V) (maxKeys : Z) (keys : list K)
  : list (K * V) :=
  foldl (λ map key, (getOrDefault getDefault maxKeys map key).2) new keys.

End mapdefmax.
End MapDefMax.

(** [class Map2d]: a [Map] of [Map]s.  The inner map is updated in place,
    so its entry in the outer map keeps its position. *)
Module Map2d.
Section map2d.
Context {K1 K2 V : Type} `{EqDecision K1} `{EqDecision K2}.

Definition get (map : list (K1 * list (K2 * V))) (k1 : K1) (k2 : K2)
  : option V :=
  match JsMap.get map k1 with
  | Some map2 => JsMap.get map2 k2
  | None => None
  end.

Definition set (map : list (K1 * list (K2 * V))) (k1 : K1) (k2 : K2) (v : V)
  : list (K1 * list (K2 * V)) :=
  match JsMap.get map k1 with
  | Some map2 => JsMap.set map k1 (JsMap.set map2 k2 v)
  | None => JsMap.set map k1 (JsMap.set [] k2 v)
  end.

End map2d.
End Map2d.

(** A JavaScript array with holes: [None] is a hole.  [arr[idx] = v] past
    the end extends the array, leaving holes in between; the index is a
    natural number. *)
Definition arrayGet {V} (arr : list (option V)) (idx : nat) : option V :=
  match arr !! idx with
  | Some (Some v) => Some v
  | _ => None
  end.

Definition arraySet {V} (arr : list (option V)) (idx : nat) (v : V)
  : list (option V) :=
  if bool_decide (idx < length arr) then <[idx := Some v]> arr
  else arr ++ replicate (idx - length arr) None ++ [Some v].

(** [class Map2dArr]: a [Map] of arrays, each updated in place. *)
Module Map2dArr.
Section map2darr.
Context {K1 V : Type} `{EqDecision K1}.

Definition get (map : list (K1 * list (option V))) (k1 : K1) (idx : nat)
  : option V :=
  match JsMap.get map k1 with
  | Some arr => arrayGet arr idx
  | None => None
  end.

Definition set (map : list (K1 * list (option V))) (k1 : K1) (idx : nat)
    (v : V) : list (K1 * list (option V)) :=
  match JsMap.get map k1 with
  | Some arr => JsMap.set map k1 (arraySet arr idx v)
  | None => JsMap.set map k1 (arraySet [] idx v)
  end.

End map2darr.
End Map2dArr.

Arguments BYTES_PER_LENGTH_PREFIX : simpl never.

(** * Buffer lemmas *)

Section buffer.
Implicit Types (bs src out : list Z) (i s : nat).

Lemma length_writeBytes bs out s :
  s + length bs ≤ length out → length (writeBytes bs out s) = length out.
Proof.
  intros. unfold writeBytes.
  rewrite !length_app, length_take, length_drop. lia.
Qed.

Lemma lookup_writeBytes bs out s i :
  s + length bs ≤ length out →
  writeBytes bs out s !! i
  = if decide (s ≤ i < s + length bs) then bs !! (i - s) else out !! i.
Proof.
  intros Hroom. unfold writeBytes.
  assert (length (take s out) = s) as Hlen by (rewrite length_take; lia).
  destruct (decide (i < s)) as [Hlt|Hge].
  - rewrite lookup_app_l by lia. rewrite lookup_take_lt by lia.
    case_decide; [lia|done].
  - rewrite lookup_app_r by lia. rewrite Hlen.
    destruct (decide (i - s < length bs)).
    + rewrite lookup_app_l by lia. case_decide; [done|lia].
    + rewrite lookup_app_r by lia. rewrite lookup_drop.
      case_decide; [lia|]. f_equal. lia.
Qed.

Lemma writeBytes_nil out s : s ≤ length out → writeBytes [] out s = out.
Proof.
  intros. unfold writeBytes. cbn. rewrite Nat.add_0_r. apply take_drop.
Qed.

Lemma writeBytes_app a b out s :
  s + length a + length b ≤ length out →
  writeBytes (a ++ b) out s = writeBytes b (writeBytes a out s) (s + length a).
Proof.
  intros Hroom. apply list_eq. intros i.
  rewrite !lookup_writeBytes;
    rewrite ?length_writeBytes, ?length_app; try lia.
  repeat case_decide; try lia; try done.
  - rewrite lookup_app_r by lia. f_equal. lia.
  - rewrite lookup_app_l by lia. done.
Qed.

Lemma writeBytes_comm a b out s1 s2 :
  s1 + length a ≤ s2 → s2 + length b ≤ length out →
  writeBytes a (writeBytes b out s2) s1 = writeBytes b (writeBytes a out s1) s2.
Proof.
  intros Hdisj Hroom. apply list_eq. intros i.
  rewrite !lookup_writeBytes; rewrite ?length_writeBytes; try lia.
  repeat case_decide; try lia; done.
Qed.

Lemma writeBytes_interleave slot table body bodies out fi cur :
  fi + length slot + length table ≤ cur →
  cur + length body + length bodies ≤ length out →
  writeBytes bodies
    (writeBytes table (writeBytes slot (writeBytes body out cur) fi)
       (fi + length slot))
    (cur + length body)
  = writeBytes (body ++ bodies) (writeBytes (slot ++ table) out fi) cur.
Proof.
  intros Hfixed Hroom.
  rewrite (writeBytes_comm slot body) by lia.
  rewrite (writeBytes_comm table body)
    by (rewrite ?length_writeBytes; lia).
  rewrite <- (writeBytes_app slot table) by lia.
  rewrite <- (writeBytes_app body bodies)
    by (rewrite length_writeBytes; rewrite ?length_app; lia).
  done.
Qed.

Lemma Buffer_copy_fits src out s :
  s + length src ≤ length out → Buffer_copy src out s = writeBytes src out s.
Proof.
  intros. unfold Buffer_copy. rewrite take_ge by lia. done.
Qed.

Lemma length_Buffer_copy src out s :
  length (Buffer_copy src out s) = length out.
Proof.
  unfold Buffer_copy, writeBytes.
  rewrite !length_app, !length_take, length_drop. lia.
Qed.

Lemma writeUInt8_fits out (b : Z) s :
  (0 ≤ b < 256)%Z → s + 1 ≤ length out →
  writeUInt8 out b s = Ok (writeBytes [b] out s).
Proof.
  intros. unfold writeUInt8.
  rewrite !bool_decide_eq_true_2 by done. done.
Qed.

Lemma length_le_bytes x n : length (le_bytes x n) = n.
Proof. revert x. induction n; intros; cbn; [done|]. by rewrite IHn. Qed.

Lemma writeUIntLE_offset out (o : nat) s :
  s + BYTES_PER_LENGTH_PREFIX ≤ length out →
  writeUIntLE out (Z.of_nat o) s BYTES_PER_LENGTH_PREFIX
  = (slot ← encodeOffset o; Ok (writeBytes slot out s)).
Proof.
  intros. unfold writeUIntLE, encodeOffset.
  change (8 * Z.of_nat BYTES_PER_LENGTH_PREFIX)%Z with 32%Z.
  rewrite (bool_decide_eq_true_2 (1 ≤ _ ≤ 6))
    by (unfold BYTES_PER_LENGTH_PREFIX; lia).
  rewrite (bool_decide_eq_true_2 (s + _ ≤ _)) by done.
  rewrite andb_true_r. cbn [andb].
  destruct (decide (Z.of_nat o < 2 ^ 32)%Z).
  - rewrite !bool_decide_eq_true_2 by lia. done.
  - rewrite !bool_decide_eq_false_2 by lia. done.
Qed.

Lemma length_encodeOffset o slot :
  encodeOffset o = Ok slot → length slot = BYTES_PER_LENGTH_PREFIX.
Proof.
  unfold encodeOffset. case_bool_decide; [|done].
  intros [= <-]. done.
Qed.
Lemma length_Buffer_alloc n : length (Buffer_alloc n) = n.
Proof. apply length_replicate. Qed.


Lemma writeBytes_all (bs out : list Z) :
  length out = length bs → writeBytes bs out 0 = bs.
Proof.
  intros Hlen. unfold writeBytes. rewrite take_0. cbn.
  rewrite drop_ge by lia. apply app_nil_r.
Qed.

End buffer.

Ltac len_lia :=
  repeat (rewrite length_writeBytes); rewrite ?length_app in *; lia.

(** * Unfolding the container loops *)

Lemma _serialize_container o fields output start :
  _serialize (VObject o) (TContainer fields) output start
  = _serializeObject o fields output start.
Proof.
  unfold _serializeObject. cbn [_serialize].
  destruct (fixedLengthOf fields) as [fl|e]; [cbn|reflexivity].
  generalize (start + fl). generalize start at 2 4. revert output.
  induction fields as [|[n t] fs IH]; intros; [reflexivity|].
  cbn [_serializeObject_loop].
  destruct (isVariableSizeType t).
  - destruct (getField o n); [cbn|reflexivity].
    destruct (_serialize _ _ _ _) as [[]|]; [cbn|reflexivity].
    destruct (writeUIntLE _ _ _ _); [cbn|reflexivity]. apply IH.
  - destruct (getField o n); [cbn|reflexivity].
    destruct (_serialize _ _ _ _) as [[]|]; [cbn|reflexivity]. apply IH.
Qed.

Lemma encode_container o fields :
  encode (VObject o) (TContainer fields)
  = (fixedLength ← fixedLengthOf fields;
     '(fixedRegion, variableRegion) ← encodeFields o fields fixedLength;
     Ok (fixedRegion ++ variableRegion)).
Proof.
  cbn [encode]. destruct (fixedLengthOf fields) as [fl|e]; [cbn|reflexivity].
  f_equal. generalize fl. clear fl.
  induction fields as [|[n t] fs IH]; intros; [reflexivity|].
  cbn [encodeFields]. destruct (getField o n); [cbn|reflexivity].
  destruct (encode _ t); [cbn|reflexivity].
  destruct (isVariableSizeType t).
  - destruct (encodeOffset _); [cbn|reflexivity]. by rewrite IH.
  - by rewrite IH.
Qed.


(** * The loops refine their encodings *)

Section loops.
Context (elementType : FullSSZType).
Local Abbreviation ser := (λ v, _serialize v elementType).
Local Abbreviation enc := (λ v, encode v elementType).
Local Abbreviation len := (λ v, encodedLength v elementType).

Lemma encodeFixed_length vs bs :
  Forall (λ v, Refines v elementType) vs →
  encodeFixed enc vs = Ok bs → length bs = sum_list (len <$> vs).
Proof.
  intros Hall. revert bs. induction Hall as [|v vs [Hlen _] _ IH]; intros bs.
  - by intros [= <-].
  - cbn. destruct (encode v elementType) as [body|] eqn:Hb; [cbn|done].
    destruct (encodeFixed enc vs) as [rest|]; [cbn|done].
    intros [= <-]. rewrite length_app, (Hlen body eq_refl), (IH rest eq_refl). done.
Qed.

Lemma _serializeArray_fixed_refines vs output start :
  Forall (λ v, Refines v elementType) vs →
  start + sum_list (len <$> vs) ≤ length output →
  _serializeArray_fixed ser vs output start
  = (bs ← encodeFixed enc vs;
     Ok (writeBytes bs output start, start + length bs)).
Proof.
  intros Hall. revert output start.
  induction Hall as [|v vs [Hlen Heq] Hall IH]; intros output start Hroom.
  - cbn. rewrite writeBytes_nil by (cbn in Hroom; lia).
    by rewrite Nat.add_0_r.
  - cbn in Hroom. cbn. rewrite Heq by lia.
    destruct (encode v elementType) as [body|] eqn:Hb; [cbn|done].
    pose proof (Hlen body eq_refl) as Hbody.
    rewrite IH by len_lia.
    destruct (encodeFixed enc vs) as [rest|] eqn:Hr; [cbn|done].
    pose proof (encodeFixed_length vs rest Hall Hr).
    rewrite <- writeBytes_app by lia. rewrite length_app.
    do 2 f_equal. lia.
Qed.

Lemma encodeVariable_length vs c table bodies :
  Forall (λ v, Refines v elementType) vs →
  encodeVariable enc vs c = Ok (table, bodies) →
  length table = length vs * BYTES_PER_LENGTH_PREFIX
  ∧ length bodies = sum_list (len <$> vs).
Proof.
  intros Hall. revert c table bodies.
  induction Hall as [|v vs [Hlen _] _ IH]; intros c table bodies.
  - by intros [= <- <-].
  - cbn. destruct (encode v elementType) as [body|] eqn:Hb; [cbn|done].
    destruct (encodeOffset c) as [slot|] eqn:Hs; [cbn|done].
    destruct (encodeVariable enc vs _) as [[tb bd]|] eqn:Hr; [cbn|done].
    intros [= <- <-]. destruct (IH _ _ _ Hr) as [Htb Hbd].
    rewrite !length_app, (length_encodeOffset _ _ Hs), (Hlen body eq_refl).
    rewrite Htb, Hbd. cbn. lia.
Qed.

Lemma _serializeArray_variable_refines vs output start fixedIndex cur :
  Forall (λ v, Refines v elementType) vs →
  start ≤ cur →
  fixedIndex + length vs * BYTES_PER_LENGTH_PREFIX ≤ cur →
  cur + sum_list (len <$> vs) ≤ length output →
  _serializeArray_variable ser start vs output fixedIndex cur
  = ('(table, bodies) ← encodeVariable enc vs (cur - start);
     Ok (writeBytes bodies (writeBytes table output fixedIndex) cur,
         cur + length bodies)).
Proof.
  intros Hall. revert output fixedIndex cur.
  induction Hall as [|v vs [Hlen Heq] Hall IH];
    intros output fixedIndex cur Hstart Hfixed Hroom.
  - cbn in *. rewrite (writeBytes_nil output) by lia.
    rewrite writeBytes_nil by lia. by rewrite Nat.add_0_r.
  - cbn in Hfixed, Hroom. cbn.
    rewrite Heq by lia.
    destruct (encode v elementType) as [body|] eqn:Hb; [cbn|done].
    pose proof (Hlen body eq_refl) as Hbody.
    rewrite writeUIntLE_offset by len_lia.
    destruct (encodeOffset (cur - start)) as [slot|] eqn:Hs; [cbn|done].
    pose proof (length_encodeOffset _ _ Hs) as Hslot.
    rewrite IH by len_lia.
    replace (cur + length body - start) with (cur - start + length body)
      by lia.
    destruct (encodeVariable enc vs _) as [[tb bd]|] eqn:Hr; [cbn|done].
    destruct (encodeVariable_length _ _ _ _ Hall Hr) as [Htb Hbd].
    replace (fixedIndex + BYTES_PER_LENGTH_PREFIX)
      with (fixedIndex + length slot) by lia.
    rewrite writeBytes_interleave by lia.
    rewrite length_app. do 2 f_equal. lia.
Qed.
End loops.

Section fields.
Context (o : gmap string Value).

Lemma regionLength_cons name type fs v :
  o !! name = Some v →
  fixedRegionLength o ((name, type) :: fs)
  = (if isVariableSizeType type then BYTES_PER_LENGTH_PREFIX
     else encodedLength v type) + fixedRegionLength o fs
  ∧ variableRegionLength o ((name, type) :: fs)
    = (if isVariableSizeType type then encodedLength v type else 0)
      + variableRegionLength o fs.
Proof.
  intros Hv. unfold fixedRegionLength, variableRegionLength, fieldLength.
  cbn. rewrite Hv. done.
Qed.

Lemma encodeFields_length fs c fx vr :
  Forall (FieldRefines o) fs →
  encodeFields o fs c = Ok (fx, vr) →
  length fx = fixedRegionLength o fs ∧ length vr = variableRegionLength o fs.
Proof.
  intros Hall. revert c fx vr.
  induction Hall as [|[name type] fs (v & Hv & Hlen & _) _ IH];
    intros c fx vr.
  - by intros [= <- <-].
  - cbn [fst snd] in Hv, Hlen.
    destruct (regionLength_cons name type fs v Hv) as [-> ->].
    cbn [encodeFields]. unfold getField. rewrite Hv. cbn.
    destruct (encode v type) as [body|] eqn:Hb; [cbn|done].
    pose proof (Hlen body eq_refl) as Hbody.
    destruct (isVariableSizeType type).
    + destruct (encodeOffset c) as [slot|] eqn:Hs; [cbn|done].
      destruct (encodeFields o fs _) as [[fx' vr']|] eqn:Hr; [cbn|done].
      intros [= <- <-]. destruct (IH _ _ _ Hr) as [Hfx Hvr].
      rewrite !length_app, (length_encodeOffset _ _ Hs), Hfx, Hvr, Hbody.
      done.
    + destruct (encodeFields o fs _) as [[fx' vr']|] eqn:Hr; [cbn|done].
      intros [= <- <-]. destruct (IH _ _ _ Hr) as [Hfx Hvr].
      rewrite !length_app, Hfx, Hvr, Hbody. done.
Qed.

Lemma _serializeObject_loop_refines fs output start fixedIndex cur :
  Forall (FieldRefines o) fs →
  start ≤ cur →
  fixedIndex + fixedRegionLength o fs ≤ cur →
  cur + variableRegionLength o fs ≤ length output →
  _serializeObject_loop o start fs output fixedIndex cur
  = ('(fx, vr) ← encodeFields o fs (cur - start);
     Ok (writeBytes vr (writeBytes fx output fixedIndex) cur,
         cur + length vr)).
Proof.
  intros Hall. revert output fixedIndex cur.
  induction Hall as [|[name type] fs (v & Hv & Hlen & Heq) Hall IH];
    intros output fixedIndex cur Hstart Hfixed Hroom.
  - cbn in *. rewrite (writeBytes_nil output) by lia.
    rewrite writeBytes_nil by lia. by rewrite Nat.add_0_r.
  - cbn [fst snd] in Hv, Hlen, Heq.
    destruct (regionLength_cons name type fs v Hv) as [Hf Hr'].
    rewrite Hf in Hfixed. rewrite Hr' in Hroom. clear Hf Hr'.
    cbn [_serializeObject_loop encodeFields]. unfold getField. rewrite Hv.
    cbn. destruct (isVariableSizeType type).
    + rewrite Heq by lia.
      destruct (encode v type) as [body|] eqn:Hb; [cbn|done].
      pose proof (Hlen body eq_refl) as Hbody.
      rewrite writeUIntLE_offset by len_lia.
      destruct (encodeOffset (cur - start)) as [slot|] eqn:Hs; [cbn|done].
      pose proof (length_encodeOffset _ _ Hs) as Hslot.
      rewrite IH by len_lia.
      replace (cur + length body - start) with (cur - start + length body)
        by lia.
      destruct (encodeFields o fs _) as [[fx vr]|] eqn:Hr; [cbn|done].
      destruct (encodeFields_length _ _ _ _ Hall Hr) as [Hfx Hvr].
      replace (fixedIndex + BYTES_PER_LENGTH_PREFIX)
      with (fixedIndex + length slot) by lia.
    rewrite writeBytes_interleave by lia.
      rewrite length_app. do 2 f_equal. lia.
    + rewrite Heq by lia.
      destruct (encode v type) as [body|] eqn:Hb; [cbn|done].
      pose proof (Hlen body eq_refl) as Hbody.
      rewrite IH by len_lia.
      destruct (encodeFields o fs _) as [[fx vr]|] eqn:Hr; [cbn|done].
      destruct (encodeFields_length _ _ _ _ Hall Hr) as [Hfx Hvr].
      rewrite <- writeBytes_app by lia. done.
Qed.
End fields.

(** * Validity, unfolded *)

Lemma FullSSZType_nested_ind (P : FullSSZType → Prop) :
  P TBool →
  (∀ u, P (TUint u)) →
  (∀ m, P (TByteList m)) →
  (∀ len, P (TByteVector len)) →
  (∀ elementType m, P elementType → P (TList elementType m)) →
  (∀ elementType len, P elementType → P (TVector elementType len)) →
  (∀ fields, Forall (λ f, P f.2) fields → P (TContainer fields)) →
  ∀ type, P type.
Proof.
  intros HB HU HBL HBV HL HV HC. fix IH 1.
  intros [|u|m|len|elementType m|elementType len|fields].
  - exact HB.
  - apply HU.
  - apply HBL.
  - apply HBV.
  - apply HL, IH.
  - apply HV, IH.
  - apply HC. induction fields as [|[n t] fs IHfs]; constructor.
    + apply IH.
    + exact IHfs.
Qed.

Lemma require_Ok b : require b = Ok () → b = true.
Proof. by destruct b. Qed.

Lemma allOk_Forall {A} (f : A → Result unit) xs :
  allOk (f <$> xs) = Ok () → Forall (λ x, f x = Ok ()) xs.
Proof.
  induction xs as [|x xs IH]; cbn; [constructor|].
  destruct (f x) as [[]|] eqn:Hx; [cbn|done]. intros. by constructor; auto.
Qed.



Lemma valid_list v elementType m :
  assertValidValue v (TList elementType m) = Ok () →
  ∃ vs, v = VArray vs ∧ validArray elementType vs
        ∧ withinMax (length vs) m = true.
Proof.
  destruct v as [| | | |vs|]; try done. cbn [assertValidValue].
  destruct (withinMax _ _) eqn:Hmax; [cbn|done].
  intros H%allOk_Forall. exists vs. split; [done|]. split; [exact H|done].
Qed.

Lemma valid_vector v elementType len :
  assertValidValue v (TVector elementType len) = Ok () →
  ∃ vs, v = VArray vs ∧ validArray elementType vs ∧ length vs = len.
Proof.
  destruct v as [| | | |vs|]; try done. cbn [assertValidValue].
  case_bool_decide; [cbn|done].
  intros H'%allOk_Forall. exists vs. split; [done|]. split; [exact H'|done].
Qed.

Lemma valid_container v fields :
  assertValidValue v (TContainer fields) = Ok () →
  ∃ o, v = VObject o ∧ validFields o fields
       ∧ dom o = list_to_set (fields.*1).
Proof.
  destruct v as [| | | | |o]; try done. cbn [assertValidValue].
  case_bool_decide; [cbn|done].
  intros H'%allOk_Forall. exists o. split; [done|]. split; [|done].
  eapply Forall_impl; [exact H'|]. cbn. intros [n t]. cbn.
  destruct (o !! n); [eauto|done].
Qed.

Lemma valid_bytes v type :
  match type with TByteList _ | TByteVector _ => True | _ => False end →
  assertValidValue v type = Ok () →
  ∃ bs, v = VBytes bs ∧ forallb isByte bs = true
        ∧ match type with
          | TByteVector len => length bs = len
          | TByteList m => withinMax (length bs) m = true
          | _ => True
          end.
Proof.
  destruct type; try done; intros _; destruct v; try done;
    cbn [assertValidValue]; intros [Hb Hl]%require_Ok%andb_true_iff;
    eexists; (split; [done|]); (split; [done|]).
  - exact Hl.
  - by apply bool_decide_eq_true_1 in Hl.
Qed.

Lemma wellFormed_uint u :
  wellFormed (TUint u) = true → 0 < byteLength u.
Proof.
  cbn. intros H%bool_decide_eq_true_1. unfold supportedUintBytes in H.
  rewrite !elem_of_cons, elem_of_nil in H. lia.
Qed.

(** * Fixed-size descriptors *)

Lemma fixedSize_defined type :
  isVariableSizeType type = false → ∃ n, fixedSize type = Ok n.
Proof.
  induction type as [|u|m|len|elementType m IH|elementType len IH|fields IH]
    using FullSSZType_nested_ind; cbn [isVariableSizeType fixedSize];
    try done; eauto.
  - intros [n ->]%IH. cbn. eauto.
  - induction IH as [|[name type] fs Hf _ IHfs]; cbn; [eauto|].
    intros [Ht Hfs]%orb_false_iff. cbn [fst snd] in Hf.
    destruct (Hf Ht) as [n ->]. destruct (IHfs Hfs) as [m ->]. cbn. eauto.
Qed.

Lemma sum_list_const (n : nat) (xs : list nat) :
  Forall (λ x, x = n) xs → sum_list xs = length xs * n.
Proof. induction 1 as [|x xs -> _ IH]; cbn; [done|]. rewrite IH. lia. Qed.

Lemma fixedLengthOf_cons name type fs :
  fixedLengthOf ((name, type) :: fs)
  = (a ← (if isVariableSizeType type then Ok BYTES_PER_LENGTH_PREFIX
          else fixedSize type);
     b ← fixedLengthOf fs; Ok (a + b)).
Proof. reflexivity. Qed.

Lemma fixedSize_encodedLength type :
  ∀ v, assertValidValue v type = Ok () →
       isVariableSizeType type = false →
       fixedSize type = Ok (encodedLength v type).
Proof.
  induction type as [|u|m|len|elementType m IH|elementType len IH|fields IH]
    using FullSSZType_nested_ind; intros v Hvalid Hfixed; try done.
  - apply valid_vector in Hvalid as (vs & -> & Hvs & <-).
    cbn [isVariableSizeType] in Hfixed.
    cbn [fixedSize encodedLength]. rewrite Hfixed.
    destruct (fixedSize_defined _ Hfixed) as [n Hn]. rewrite Hn. cbn.
    f_equal. rewrite (sum_list_const n), length_fmap; [done|].
    apply Forall_fmap. eapply Forall_impl; [exact Hvs|]. cbn.
    intros w Hw. specialize (IH w Hw Hfixed). congruence.
  - apply valid_container in Hvalid as (o & -> & Hfs & _).
    cbn [isVariableSizeType] in Hfixed.
    change (encodedLength (VObject o) (TContainer fields))
      with (fixedRegionLength o fields + variableRegionLength o fields).
    cbn [fixedSize].
    induction IH as [|[name type] fs Hf _ IHfs]; [done|].
    apply Forall_cons_1 in Hfs as [(w & Hw & Hwvalid) Hfs].
    cbn in Hfixed. apply orb_false_iff in Hfixed as [Ht Hfixed].
    cbn [fst snd] in *.
    destruct (regionLength_cons o name type fs w Hw) as [-> ->].
    rewrite Ht. cbn. rewrite (Hf w Hwvalid Ht). cbn.
    rewrite (IHfs Hfs Hfixed). cbn. f_equal. lia.
Qed.

Lemma fixedLengthOf_valid o fields :
  validFields o fields →
  fixedLengthOf fields = Ok (fixedRegionLength o fields).
Proof.
  induction 1 as [|[name type] fs (w & Hw & Hwvalid) _ IH]; [done|].
  cbn [fst snd] in *. rewrite fixedLengthOf_cons, IH.
  destruct (regionLength_cons o name type fs w Hw) as [-> _].
  destruct (isVariableSizeType type) eqn:Ht; [done|].
  by rewrite (fixedSize_encodedLength type w Hwvalid Ht).
Qed.

(** * The dispatcher refines the wire format *)

Lemma BN_toArrayLike_le_length x n bs :
  0 < n → BN_toArrayLike_le x n = Ok bs → length bs = n.
Proof.
  intros Hn. unfold BN_toArrayLike_le.
  rewrite (bool_decide_eq_false_2 (n = 0)) by lia.
  case_bool_decide; [|done]. intros [= <-]. apply length_le_bytes.
Qed.

Lemma encodeUint_length v u bs :
  0 < byteLength u → encodeUint v u = Ok bs → length bs = byteLength u.
Proof.
  intros Hn. unfold encodeUint.
  destruct (sentinelBranch u v); cbn.
  - by apply BN_toArrayLike_le_length.
  - destruct (BN_new v); [cbn|done]. by apply BN_toArrayLike_le_length.
Qed.

Lemma _serializeUint_encode v u output start :
  _serializeUint v u output start
  = (bs ← encodeUint v u;
     Ok (Buffer_copy bs output start, start + byteLength u)).
Proof.
  unfold _serializeUint, encodeUint.
  destruct (sentinelBranch u v); cbn; [done|]. by destruct (BN_new v).
Qed.

Lemma length_Buffer_from bs : length (Buffer_from bs) = length bs.
Proof. apply length_fmap. Qed.

Theorem _serialize_refines type :
  ∀ v, wellFormed type = true → assertValidValue v type = Ok () →
       Refines v type.
Proof.
  induction type as [|u|m|len|elementType m IH|elementType len IH|fields IH]
    using FullSSZType_nested_ind; intros v Hwf Hvalid.
  - (* Bool *)
    destruct v as [b| | | | |]; try done. split.
    + by intros bs [= <-].
    + intros output start Hroom. cbn in *. unfold _serializeBool.
      destruct b; rewrite writeUInt8_fits by lia; done.
  - (* Uint *)
    apply wellFormed_uint in Hwf. split.
    + intros bs. by apply encodeUint_length.
    + intros output start Hroom. cbn in *. rewrite _serializeUint_encode.
      destruct (encodeUint v u) as [bs|] eqn:Hbs; [cbn|done].
      pose proof (encodeUint_length _ _ _ Hwf Hbs) as Hlen.
      rewrite Buffer_copy_fits by lia. by rewrite Hlen.
  - (* ByteList *)
    apply valid_bytes in Hvalid as (bs & -> & _ & _); [|done]. split.
    + intros ? [= <-]. apply length_Buffer_from.
    + intros output start Hroom. cbn in *. unfold _serializeByteArray.
      rewrite Buffer_copy_fits by (rewrite length_Buffer_from; lia).
      by rewrite length_Buffer_from.
  - (* ByteVector *)
    apply valid_bytes in Hvalid as (bs & -> & _ & <-); [|done]. split.
    + intros ? [= <-]. apply length_Buffer_from.
    + intros output start Hroom. cbn in *. unfold _serializeByteArray.
      rewrite Buffer_copy_fits by (rewrite length_Buffer_from; lia).
      by rewrite length_Buffer_from.
  - (* List *)
    apply valid_list in Hvalid as (vs & -> & Hvs & _).
    assert (Forall (λ v, Refines v elementType) vs) as Hall
      by (eapply Forall_impl; [exact Hvs|]; cbn; auto).
    split.
    + intros bs. cbn [encode encodedLength].
      destruct (isVariableSizeType elementType).
      * destruct (encodeVariable _ _ _) as [[tb bd]|] eqn:Hr; [cbn|done].
        destruct (encodeVariable_length _ _ _ _ _ Hall Hr) as [Htb Hbd].
        intros [= <-]. rewrite length_app. lia.
      * intros Hbs. by rewrite (encodeFixed_length _ _ _ Hall Hbs).
    + intros output start. cbn [encode encodedLength _serialize].
      unfold _serializeArray. destruct (isVariableSizeType elementType).
      * intros Hroom.
        rewrite _serializeArray_variable_refines by (done || lia).
        replace (start + length vs * BYTES_PER_LENGTH_PREFIX - start)
          with (length vs * BYTES_PER_LENGTH_PREFIX) by lia.
        destruct (encodeVariable _ _ _) as [[tb bd]|] eqn:Hr; [cbn|done].
        destruct (encodeVariable_length _ _ _ _ _ Hall Hr) as [Htb Hbd].
        rewrite <- Htb. rewrite <- writeBytes_app by lia.
        rewrite length_app. do 2 f_equal. lia.
      * intros Hroom. by apply _serializeArray_fixed_refines.
  - (* Vector *)
    apply valid_vector in Hvalid as (vs & -> & Hvs & _).
    assert (Forall (λ v, Refines v elementType) vs) as Hall
      by (eapply Forall_impl; [exact Hvs|]; cbn; auto).
    split.
    + intros bs. cbn [encode encodedLength].
      destruct (isVariableSizeType elementType).
      * destruct (encodeVariable _ _ _) as [[tb bd]|] eqn:Hr; [cbn|done].
        destruct (encodeVariable_length _ _ _ _ _ Hall Hr) as [Htb Hbd].
        intros [= <-]. rewrite length_app. lia.
      * intros Hbs. by rewrite (encodeFixed_length _ _ _ Hall Hbs).
    + intros output start. cbn [encode encodedLength _serialize].
      unfold _serializeArray. destruct (isVariableSizeType elementType).
      * intros Hroom.
        rewrite _serializeArray_variable_refines by (done || lia).
        replace (start + length vs * BYTES_PER_LENGTH_PREFIX - start)
          with (length vs * BYTES_PER_LENGTH_PREFIX) by lia.
        destruct (encodeVariable _ _ _) as [[tb bd]|] eqn:Hr; [cbn|done].
        destruct (encodeVariable_length _ _ _ _ _ Hall Hr) as [Htb Hbd].
        rewrite <- Htb. rewrite <- writeBytes_app by lia.
        rewrite length_app. do 2 f_equal. lia.
      * intros Hroom. by apply _serializeArray_fixed_refines.
  - (* Container *)
    apply valid_container in Hvalid as (o & -> & Hfs & _).
    assert (Forall (FieldRefines o) fields) as Hall.
    { cbn [wellFormed] in Hwf. clear -IH Hwf Hfs.
      induction IH as [|f fs Hf _ IHfs]; [constructor|].
      cbn in Hwf. apply andb_true_iff in Hwf as [Hwf1 Hwf].
      apply Forall_cons_1 in Hfs as [(w & Hw & Hwv) Hfs].
      constructor; [|auto]. exists w. split; [done|]. by apply Hf. }
    pose proof (fixedLengthOf_valid _ _ Hfs) as Hfl. unfold Refines.
    change (encodedLength (VObject o) (TContainer fields))
      with (fixedRegionLength o fields + variableRegionLength o fields).
    split.
    + intros bs. rewrite encode_container, Hfl. cbn.
      destruct (encodeFields _ _ _) as [[fx vr]|] eqn:Hr; [cbn|done].
      destruct (encodeFields_length _ _ _ _ _ Hall Hr) as [Hfx Hvr].
      intros [= <-]. rewrite length_app. lia.
    + intros output start Hroom.
      rewrite _serialize_container, encode_container.
      unfold _serializeObject. rewrite Hfl. cbn.
      rewrite _serializeObject_loop_refines by (done || lia).
      replace (start + fixedRegionLength o fields - start)
        with (fixedRegionLength o fields) by lia.
      destruct (encodeFields _ _ _) as [[fx vr]|] eqn:Hr; [cbn|done].
      destruct (encodeFields_length _ _ _ _ _ Hall Hr) as [Hfx Hvr].
      rewrite <- Hfx. rewrite <- writeBytes_app by lia.
      rewrite length_app. do 2 f_equal. lia.
Qed.

Lemma Refines_elements elementType vs :
  wellFormed elementType = true → validArray elementType vs →
  Forall (λ v, Refines v elementType) vs.
Proof.
  intros Hwf Hvs. eapply Forall_impl; [exact Hvs|]. cbn.
  intros v Hv. by apply _serialize_refines.
Qed.

Lemma Refines_fields o fields :
  wellFormed (TContainer fields) = true → validFields o fields →
  Forall (FieldRefines o) fields.
Proof.
  cbn [wellFormed]. intros Hwf Hfs.
  induction Hfs as [|f fs (w & Hw & Hwv) _ IH]; [constructor|].
  cbn in Hwf. apply andb_true_iff in Hwf as [Hwf1 Hwf].
  constructor; [|auto]. exists w. split; [done|]. by apply _serialize_refines.
Qed.

(** * The size oracle agrees with the index arithmetic *)

Lemma size_fixed v type :
  isVariableSizeType type = false → size v type = fixedSize type.
Proof. intros H. destruct type; cbn [size]; by rewrite H. Qed.

Lemma size_variable v type :
  isVariableSizeType type = true →
  size v type
  = match type, v with
    | TByteList _, VBytes bs => Ok (length bs)
    | TList elementType _, VArray vs | TVector elementType _, VArray vs =>
        if isVariableSizeType elementType
        then s ← sumResults ((λ v, size v elementType) <$> vs);
             Ok (length vs * BYTES_PER_LENGTH_PREFIX + s)
        else n ← fixedSize elementType; Ok (length vs * n)
    | TContainer fields, VObject o =>
        sumResults
          ((λ f, if isVariableSizeType f.2
                 then v ← getField o f.1; s ← size v f.2;
                      Ok (BYTES_PER_LENGTH_PREFIX + s)
                 else fixedSize f.2) <$> fields)
    | _, _ => Err InvalidValue
    end.
Proof. intros H. destruct type; cbn [size]; by rewrite H. Qed.

Theorem size_encodedLength type :
  ∀ v n, assertValidValue v type = Ok () → size v type = Ok n →
         n = encodedLength v type.
Proof.
  induction type as [|u|m|len|elementType m IH|elementType len IH|fields IH]
    using FullSSZType_nested_ind; intros v n Hvalid;
    (match goal with
     | |- size _ ?T = _ → _ => destruct (isVariableSizeType T) eqn:Hvar
     end;
     [rewrite (size_variable _ _ Hvar)
     |rewrite (size_fixed _ _ Hvar),
        (fixedSize_encodedLength _ _ Hvalid Hvar); congruence]);
    try done.
  - apply valid_bytes in Hvalid as (bs & -> & _ & _); [|done]. by intros [= <-].
  - apply valid_list in Hvalid as (vs & -> & Hvs & _).
    cbn [encodedLength].
    destruct (isVariableSizeType elementType) eqn:Hel.
    + destruct (sumResults _) as [s|] eqn:Hs; [cbn|done]. intros [= <-].
      f_equal. revert s Hs.
      induction Hvs as [|w ws Hw _ IHws]; intros s; cbn; [by intros [= <-]|].
      destruct (size w elementType) as [a|] eqn:Ha; [cbn|done].
      destruct (sumResults _) as [b|] eqn:Hb; [cbn|done]. intros [= <-].
      by rewrite (IH w a Hw Ha), (IHws b eq_refl).
    + destruct (fixedSize elementType) as [k|] eqn:Hk; [cbn|done].
      intros [= <-]. rewrite (sum_list_const k), length_fmap; [done|].
      apply Forall_fmap. eapply Forall_impl; [exact Hvs|]. cbn.
      intros w Hw. pose proof (fixedSize_encodedLength _ _ Hw Hel). congruence.
  - apply valid_vector in Hvalid as (vs & -> & Hvs & _).
    cbn [encodedLength]. cbn [isVariableSizeType] in Hvar. rewrite Hvar.
    destruct (sumResults _) as [s|] eqn:Hs; [cbn|done]. intros [= <-].
    f_equal. revert s Hs.
    induction Hvs as [|w ws Hw _ IHws]; intros s; cbn; [by intros [= <-]|].
    destruct (size w elementType) as [a|] eqn:Ha; [cbn|done].
    destruct (sumResults _) as [b|] eqn:Hb; [cbn|done]. intros [= <-].
    by rewrite (IH w a Hw Ha), (IHws b eq_refl).
  - apply valid_container in Hvalid as (o & -> & Hfs & _).
    change (encodedLength (VObject o) (TContainer fields))
      with (fixedRegionLength o fields + variableRegionLength o fields).
    clear Hvar. revert n.
    induction IH as [|[name type] fs Hf _ IHfs]; intros n; [by intros [= <-]|].
    apply Forall_cons_1 in Hfs as [(w & Hw & Hwvalid) Hfs].
    cbn [fst snd] in *.
    destruct (regionLength_cons o name type fs w Hw) as [-> ->].
    cbn. unfold getField. rewrite Hw.
    destruct (isVariableSizeType type) eqn:Ht; cbn.
    + destruct (size w type) as [a|] eqn:Ha; [cbn|done].
      destruct (sumResults _) as [b|] eqn:Hb; [cbn|done]. intros [= <-].
      rewrite (Hf w a Hwvalid Ha), (IHfs Hfs b eq_refl).
      unfold BYTES_PER_LENGTH_PREFIX. lia.
    + rewrite (fixedSize_encodedLength _ _ Hwvalid Ht). cbn.
      destruct (sumResults _) as [b|] eqn:Hb; [cbn|done]. intros [= <-].
      rewrite (IHfs Hfs b eq_refl). lia.
Qed.

Lemma sumResults_sizes elementType vs :
  Forall (λ v, size v elementType = Ok (encodedLength v elementType)) vs →
  sumResults ((λ v, size v elementType) <$> vs)
  = Ok (sum_list ((λ v, encodedLength v elementType) <$> vs)).
Proof.
  induction 1 as [|w ws Hw _ IH]; [done|]. cbn. rewrite Hw. cbn.
  by rewrite IH.
Qed.

(** [size] is total on valid values, and is the number of bytes by which
    the dispatcher advances. *)
Theorem size_total type :
  ∀ v, assertValidValue v type = Ok () →
       size v type = Ok (encodedLength v type).
Proof.
  induction type as [|u|m|len|elementType m IH|elementType len IH|fields IH]
    using FullSSZType_nested_ind; intros v Hvalid;
    (match goal with
     | |- size _ ?T = _ => destruct (isVariableSizeType T) eqn:Hvar
     end;
     [rewrite (size_variable _ _ Hvar)
     |by rewrite (size_fixed _ _ Hvar),
        (fixedSize_encodedLength _ _ Hvalid Hvar)]);
    try done.
  - by apply valid_bytes in Hvalid as (bs & -> & _ & _).
  - apply valid_list in Hvalid as (vs & -> & Hvs & _).
    cbn [encodedLength].
    destruct (isVariableSizeType elementType) eqn:Hel.
    + rewrite sumResults_sizes; [done|].
      eapply Forall_impl; [exact Hvs|]. cbn. auto.
    + destruct (fixedSize_defined _ Hel) as [k Hk]. rewrite Hk. cbn.
      rewrite (sum_list_const k), length_fmap; [done|].
      apply Forall_fmap. eapply Forall_impl; [exact Hvs|]. cbn.
      intros w Hw. pose proof (fixedSize_encodedLength _ _ Hw Hel). congruence.
  - apply valid_vector in Hvalid as (vs & -> & Hvs & _).
    cbn [encodedLength]. cbn [isVariableSizeType] in Hvar. rewrite Hvar.
    rewrite sumResults_sizes; [done|].
    eapply Forall_impl; [exact Hvs|]. cbn. auto.
  - apply valid_container in Hvalid as (o & -> & Hfs & _).
    change (encodedLength (VObject o) (TContainer fields))
      with (fixedRegionLength o fields + variableRegionLength o fields).
    clear Hvar.
    induction IH as [|[name type] fs Hf _ IHfs]; [done|].
    apply Forall_cons_1 in Hfs as [(w & Hw & Hwvalid) Hfs].
    cbn [fst snd] in *.
    destruct (regionLength_cons o name type fs w Hw) as [-> ->].
    rewrite fmap_cons. cbn [sumResults fst snd]. rewrite (IHfs Hfs).
    assert (getField o name = Ok w) as -> by (unfold getField; by rewrite Hw).
    destruct (isVariableSizeType type) eqn:Ht.
    + cbn. rewrite (Hf w Hwvalid). cbn. f_equal.
      unfold BYTES_PER_LENGTH_PREFIX. lia.
    + rewrite (fixedSize_encodedLength _ _ Hwvalid Ht). cbn. f_equal. lia.
Qed.

(** * Integers and their little-endian bytes *)

Section numbers.
Local Open Scope Z_scope.

Lemma land_255 x : Z.land x 255 = x mod 256.
Proof. change 255 with (Z.ones 8). by rewrite Z.land_ones. Qed.

Lemma shiftr_8 x : Z.shiftr x 8 = x / 256.
Proof. by rewrite Z.shiftr_div_pow2. Qed.

Lemma pow2_8S (n : nat) : 2 ^ (8 * Z.of_nat (S n)) = 256 * 2 ^ (8 * Z.of_nat n).
Proof.
  replace (8 * Z.of_nat (S n)) with (8 + 8 * Z.of_nat n) by lia.
  rewrite Z.pow_add_r by lia. done.
Qed.

Lemma le_value_le_bytes x (n : nat) :
  0 ≤ x < 2 ^ (8 * Z.of_nat n) → le_value (le_bytes x n) = x.
Proof.
  revert x. induction n as [|n IH]; intros x Hx.
  - cbn in *. lia.
  - rewrite pow2_8S in Hx. cbn [le_bytes le_value].
    rewrite land_255, shiftr_8, IH.
    + pose proof (Z.div_mod x 256). lia.
    + split; [apply Z.div_pos; lia|].
      apply Z.div_lt_upper_bound; lia.
Qed.

Lemma BN_byteLength_fits x (n : nat) :
  Z.abs x < 2 ^ (8 * Z.of_nat n) → (BN_byteLength x ≤ n)%nat.
Proof.
  intros Hx. unfold BN_byteLength. case_bool_decide; [lia|].
  assert (Z.log2 (Z.abs x) < 8 * Z.of_nat n)
    by (apply Z.log2_lt_pow2; lia).
  assert ((Z.log2 (Z.abs x) + 1 + 7) / 8 ≤ Z.of_nat n); [|lia].
  apply Z.lt_succ_r. apply Z.div_lt_upper_bound; lia.
Qed.

Lemma BN_toArrayLike_le_fits x (n : nat) :
  (0 < n)%nat → Z.abs x < 2 ^ (8 * Z.of_nat n) →
  BN_toArrayLike_le x n = Ok (le_bytes (Z.abs x) n).
Proof.
  intros Hn Hx. unfold BN_toArrayLike_le.
  rewrite (bool_decide_eq_false_2 (n = 0)%nat) by lia.
  by rewrite bool_decide_eq_true_2 by by apply BN_byteLength_fits.
Qed.

Lemma BN_of_bytes_ones (n : nat) :
  BN_of_bytes (Buffer_alloc_fill n 255) = 2 ^ (8 * Z.of_nat n) - 1.
Proof.
  unfold BN_of_bytes, Buffer_alloc_fill.
  assert (∀ acc, foldl (λ acc b, acc * 256 + b) acc (replicate n 255)
                 = (acc + 1) * 2 ^ (8 * Z.of_nat n) - 1) as H;
    [|rewrite H; lia].
  induction n as [|n IH]; intros acc.
  - cbn. lia.
  - cbn [replicate foldl]. rewrite IH, pow2_8S. lia.
Qed.

Lemma le_bytes_ones (n : nat) :
  le_bytes (2 ^ (8 * Z.of_nat n) - 1) n = replicate n 255.
Proof.
  induction n as [|n IH]; [done|].
  cbn [le_bytes replicate]. rewrite land_255, shiftr_8, pow2_8S.
  assert (0 < 2 ^ (8 * Z.of_nat n)) by (apply Z.pow_pos_nonneg; lia).
  replace ((256 * 2 ^ (8 * Z.of_nat n) - 1) mod 256) with 255.
  2:{ apply Z.mod_unique_pos with (q := 2 ^ (8 * Z.of_nat n) - 1); lia. }
  replace ((256 * 2 ^ (8 * Z.of_nat n) - 1) / 256)
    with (2 ^ (8 * Z.of_nat n) - 1).
  2:{ apply Z.div_unique_pos with (r := 255); lia. }
  by rewrite IH.
Qed.
End numbers.

(** * Uint encoding *)

Lemma sentinelBranch_number u v : sentinelBranch u (VNumber v) = false.
Proof. unfold sentinelBranch. cbn. by rewrite andb_false_r. Qed.

Lemma encodeUint_number u v :
  0 < byteLength u →
  (0 ≤ v + offset u < 2 ^ (8 * Z.of_nat (byteLength u)))%Z →
  encodeUint (VNumber v) u = Ok (le_bytes (v + offset u) (byteLength u)).
Proof.
  intros Hn Hv. unfold encodeUint. rewrite sentinelBranch_number. cbn.
  rewrite BN_toArrayLike_le_fits by (done || lia).
  by rewrite Z.abs_eq by lia.
Qed.

Lemma encodeUint_sentinel u :
  6 < byteLength u → useNumber u = true →
  encodeUint VInfinity u = Ok (replicate (byteLength u) 255%Z).
Proof.
  intros Hn Hu. unfold encodeUint, sentinelBranch.
  rewrite bool_decide_eq_true_2, Hu by done. cbn.
  rewrite BN_of_bytes_ones.
  assert (0 < 2 ^ (8 * Z.of_nat (byteLength u)))%Z
    by (apply Z.pow_pos_nonneg; lia).
  rewrite BN_toArrayLike_le_fits by lia.
  rewrite Z.abs_eq by lia. by rewrite le_bytes_ones.
Qed.

(** C3, as stated, fails: 255 is a valid in-range value of a one-byte Uint
    whose bias is 1, yet its biased value 256 does not fit one byte and
    bn.js throws instead of writing. *)
Lemma uint_bias_overflow :
  wellFormed (TUint (mkUint 1 false 1)) = true
  ∧ assertValidValue (VNumber 255) (TUint (mkUint 1 false 1)) = Ok ()
  ∧ _serializeUint (VNumber 255) (mkUint 1 false 1) [0%Z] 0
    = Err AssertionError
  ∧ _serializeUint (VNumber 255) (mkUint 1 false 1) [0%Z] 0
    ≠ Ok (writeBytes (le_bytes (255 + 1) 1) [0%Z] 0, 0 + 1).
Proof. repeat split; try by vm_compute. Qed.

(** C3 (amended): for a Uint descriptor of [byteLength] n ≥ 1 and bias
    [offset], and every finite integer v whose biased value v + offset
    lies in [0, 2^(8n)), [_serializeUint] writes the n little-endian bytes
    of v + offset at [start] and returns [start + n]; in particular 0, 1
    and 0xDEADBEEF at uint32 give 00000000, 01000000 and efbeadde. *)
Theorem _serializeUint_little_endian (u : UintType) (v : Z)
    (output : Buffer) (start : nat) :
  0 < byteLength u →
  (0 ≤ v + offset u < 2 ^ (8 * Z.of_nat (byteLength u)))%Z →
  start + byteLength u ≤ length output →
  _serializeUint (VNumber v) u output start
  = Ok (writeBytes (le_bytes (v + offset u) (byteLength u)) output start,
        start + byteLength u)
  ∧ serialize (VNumber 0) (Shorthand "uint32") = Ok [0; 0; 0; 0]%Z
  ∧ serialize (VNumber 1) (Shorthand "uint32") = Ok [1; 0; 0; 0]%Z
  ∧ serialize (VNumber 0xDEADBEEF) (Shorthand "uint32")
    = Ok [0xef; 0xbe; 0xad; 0xde]%Z.
Proof.
  intros Hn Hv Hroom. split; [|by vm_compute].
  rewrite _serializeUint_encode, encodeUint_number by done. cbn.
  by rewrite Buffer_copy_fits by (rewrite length_le_bytes; lia).
Qed.

Lemma _serializeUint_little_endian_witness :
  _serializeUint (VNumber 0x0102) (mkUint 2 false 0) [7; 7; 7; 7]%Z 1
  = Ok ([7; 2; 1; 7]%Z, 3).
Proof.
  apply (_serializeUint_little_endian (mkUint 2 false 0) 0x0102
           [7; 7; 7; 7]%Z 1); cbn; lia.
Defined.

(** C4: with [byteLength > 6] and [useNumber] set, the [Infinity] sentinel
    is written as [byteLength] bytes 0xFF; with [byteLength <= 6] or
    [useNumber] unset the sentinel branch is taken for no value, and
    [Infinity] reaches [new BN], which rejects it. *)
Theorem _serializeUint_sentinel (u : UintType) (output : Buffer) (start : nat) :
  (6 < byteLength u → useNumber u = true →
   start + byteLength u ≤ length output →
   sentinelBranch u VInfinity = true
   ∧ _serializeUint VInfinity u output start
     = Ok (writeBytes (replicate (byteLength u) 255%Z) output start,
           start + byteLength u))
  ∧ (byteLength u ≤ 6 ∨ useNumber u = false →
     (∀ v, sentinelBranch u v = false)
     ∧ _serializeUint VInfinity u output start = Err AssertionError).
Proof.
  split.
  - intros Hn Hu Hroom. split.
    + unfold sentinelBranch. by rewrite bool_decide_eq_true_2, Hu.
    + rewrite _serializeUint_encode, encodeUint_sentinel by done. cbn.
      by rewrite Buffer_copy_fits by (rewrite length_replicate; lia).
  - intros Hguard.
    assert (∀ v, sentinelBranch u v = false) as Hnot.
    { intros v. unfold sentinelBranch. destruct Hguard as [Hn| ->].
      - by rewrite bool_decide_eq_false_2 by lia.
      - by rewrite andb_false_r. }
    split; [done|]. unfold _serializeUint. by rewrite Hnot.
Qed.

Lemma _serializeUint_sentinel_witness :
  _serializeUint VInfinity (mkUint 8 true 0) (replicate 10 0%Z) 1
  = Ok ([0; 255; 255; 255; 255; 255; 255; 255; 255; 0]%Z, 9)
  ∧ _serializeUint VInfinity (mkUint 4 true 0) (replicate 10 0%Z) 1
    = Err AssertionError
  ∧ _serializeUint VInfinity (mkUint 8 false 0) (replicate 10 0%Z) 1
    = Err AssertionError.
Proof.
  split; [|split].
  - apply (_serializeUint_sentinel (mkUint 8 true 0) (replicate 10 0%Z) 1);
      cbn; (done || lia).
  - apply (_serializeUint_sentinel (mkUint 4 true 0) (replicate 10 0%Z) 1).
    left. cbn. lia.
  - apply (_serializeUint_sentinel (mkUint 8 false 0) (replicate 10 0%Z) 1).
    by right.
Defined.

Lemma slice_writeBytes (bs out : list Z) s :
  s + length bs ≤ length out →
  take (length bs) (drop s (writeBytes bs out s)) = bs.
Proof.
  intros Hroom. unfold writeBytes.
  rewrite drop_app_length' by (rewrite length_take; lia).
  by rewrite take_app_length.
Qed.

(** C9: in the sentinel branch [_serializeUint] writes [byteLength] bytes
    0xFF whatever the [offset] of the descriptor, and so does [serialize];
    a finite value is written as the little-endian bytes of the value plus
    the [offset]. *)
Theorem sentinel_ignores_offset (n : nat) (bias bias' : Z)
    (output : Buffer) (start : nat) :
  6 < n →
  _serializeUint VInfinity (mkUint n true bias) output start
  = Ok (Buffer_copy (replicate n 255%Z) output start, start + n)
  ∧ (start + n ≤ length output →
     _serializeUint VInfinity (mkUint n true bias) output start
     = Ok (writeBytes (replicate n 255%Z) output start, start + n)
     ∧ ∀ output' idx,
         _serializeUint VInfinity (mkUint n true bias) output start
         = Ok (output', idx) →
         take n (drop start output') = replicate n 255%Z
         ∧ idx = start + n)
  ∧ serialize VInfinity (Full (TUint (mkUint n true bias)))
    = Ok (replicate n 255%Z)
  ∧ encodeUint VInfinity (mkUint n true bias) = Ok (replicate n 255%Z)
  ∧ _serializeUint VInfinity (mkUint n true bias) output start
    = _serializeUint VInfinity (mkUint n true bias') output start
  ∧ (∀ v, sentinelBranch (mkUint n true bias) (VNumber v) = false
          ∧ _serializeUint (VNumber v) (mkUint n true bias) output start
            = _serializeUint (VNumber (v + bias)) (mkUint n true 0)
                output start
          ∧ ((0 ≤ v + bias < 2 ^ (8 * Z.of_nat n))%Z →
             start + n ≤ length output →
             _serializeUint (VNumber v) (mkUint n true bias) output start
             = Ok (writeBytes (le_bytes (v + bias) n) output start,
                   start + n))).
Proof.
  intros Hn.
  assert (_serializeUint VInfinity (mkUint n true bias) output start
          = Ok (Buffer_copy (replicate n 255%Z) output start, start + n))
    as Hcopy by (by rewrite _serializeUint_encode, encodeUint_sentinel).
  split; [exact Hcopy|]. split; [|split; [|split; [|split]]].
  - intros Hroom. rewrite Hcopy.
    rewrite Buffer_copy_fits by (rewrite length_replicate; lia).
    split; [done|]. intros output' idx [= <- <-]. split; [|done].
    rewrite <- (length_replicate n 255%Z) at 1.
    apply slice_writeBytes. rewrite length_replicate. lia.
  - unfold serialize. cbn [parseType].
    change (Ok ?T ≫= ?f) with (f T). cbv beta. cbn [assertValidValue].
    cbn [byteLength useNumber]. rewrite bool_decide_eq_true_2 by lia.
    cbn [andb require].
    change (Ok () ≫= ?f) with (f ()). cbv beta.
    rewrite size_fixed by done. cbn [fixedSize byteLength].
    change (Ok n ≫= ?f) with (f n). cbv beta. cbn [_serialize].
    rewrite _serializeUint_encode, encodeUint_sentinel by done. cbn.
    rewrite Buffer_copy_fits
      by (rewrite length_replicate, length_Buffer_alloc; lia).
    by rewrite writeBytes_all
      by (by rewrite length_Buffer_alloc, length_replicate).
  - by apply encodeUint_sentinel.
  - by rewrite !_serializeUint_encode, !encodeUint_sentinel.
  - intros v. split; [apply sentinelBranch_number|]. split.
    + unfold _serializeUint. rewrite !sentinelBranch_number. cbn.
      by rewrite Z.add_0_r.
    + intros Hv Hroom.
      rewrite _serializeUint_encode, encodeUint_number by (cbn; (lia || done)).
      cbn. by rewrite Buffer_copy_fits by (rewrite length_le_bytes; lia).
Qed.

Lemma sentinel_ignores_offset_witness :
  _serializeUint VInfinity (mkUint 8 true 5) (replicate 10 0%Z) 1
  = Ok ([0; 255; 255; 255; 255; 255; 255; 255; 255; 0]%Z, 9)
  ∧ serialize VInfinity (Full (TUint (mkUint 8 true 5)))
    = Ok (replicate 8 255%Z)
  ∧ _serializeUint (VNumber 1) (mkUint 8 true 5) (replicate 10 0%Z) 1
    = Ok ([0; 6; 0; 0; 0; 0; 0; 0; 0; 0]%Z, 9).
Proof.
  split; [|split].
  - apply (sentinel_ignores_offset 8 5 0 (replicate 10 0%Z) 1); cbn; lia.
  - apply (sentinel_ignores_offset 8 5 0 [] 0). lia.
  - apply (sentinel_ignores_offset 8 5 0 (replicate 10 0%Z) 1); cbn; lia.
Defined.

(** * What a returning call has written *)

Lemma Refines_returns v type output start output' idx :
  Refines v type →
  start + encodedLength v type ≤ length output →
  _serialize v type output start = Ok (output', idx) →
  ∃ bs, encode v type = Ok bs
        ∧ length bs = encodedLength v type
        ∧ output' = writeBytes bs output start
        ∧ idx = start + encodedLength v type.
Proof.
  intros [Hlen Heq] Hroom. rewrite Heq by done.
  destruct (encode v type) as [bs|]; [cbn|done].
  intros [= <- <-]. exists bs. by rewrite (Hlen bs eq_refl).
Qed.

Lemma _serialize_frame v type output start output' idx :
  wellFormed type = true → assertValidValue v type = Ok () →
  start + encodedLength v type ≤ length output →
  _serialize v type output start = Ok (output', idx) →
  idx = start + encodedLength v type
  ∧ length output' = length output
  ∧ ∀ i, i < start ∨ start + encodedLength v type ≤ i →
         output' !! i = output !! i.
Proof.
  intros Hwf Hvalid Hroom Hser.
  destruct (Refines_returns _ _ _ _ _ _ (_serialize_refines _ _ Hwf Hvalid)
              Hroom Hser) as (bs & _ & Hlen & -> & ->).
  split; [done|]. split; [by rewrite length_writeBytes by lia|].
  intros i Hi. rewrite lookup_writeBytes by lia. case_decide; [lia|done].
Qed.

Lemma serialize_unfold v ty buf :
  serialize v ty = Ok buf →
  ∃ T n idx, parseType ty = Ok T ∧ assertValidValue v T = Ok ()
             ∧ size v T = Ok n
             ∧ _serialize v T (Buffer_alloc n) 0 = Ok (buf, idx).
Proof.
  unfold serialize. destruct (parseType ty) as [T|] eqn:HT; [cbn|done].
  destruct (assertValidValue v T) as [[]|] eqn:Hvalid; [cbn|done].
  destruct (size v T) as [n|] eqn:Hsize; [cbn|done].
  destruct (_serialize v T (Buffer_alloc n) 0) as [[buf' idx]|] eqn:Hser;
    [cbn|done].
  intros [= <-]. by exists T, n, idx.
Qed.

(** * Normalised descriptors are well formed *)

Lemma AnySSZType_nested_ind (P : AnySSZType → Prop) :
  (∀ t, P (Full t)) →
  (∀ s, P (Shorthand s)) →
  (∀ elementType, P elementType → P (ListOf elementType)) →
  (∀ elementType len, P elementType → P (VectorOf elementType len)) →
  (∀ name fields, Forall (λ f, P f.2) fields → P (ContainerOf name fields)) →
  ∀ type, P type.
Proof.
  intros HF HS HL HV HC. fix IH 1.
  intros [t|s|elementType|elementType len|name fields].
  - apply HF.
  - apply HS.
  - apply HL, IH.
  - apply HV, IH.
  - apply HC. induction fields as [|[n t] fs IHfs]; constructor.
    + apply IH.
    + exact IHfs.
Qed.

Lemma parseShorthand_wellFormed s T :
  parseShorthand s = Ok T → wellFormed T = true.
Proof.
  unfold parseShorthand.
  case_bool_decide; [by intros [= <-]|].
  case_bool_decide; [by intros [= <-]|].
  destruct (String.prefix "uint" s).
  - destruct (parseDecimal _) as [bits|]; [|done].
    case_bool_decide as Hbits; [|done]. intros [= <-].
    unfold supportedUintBits in Hbits.
    rewrite !elem_of_cons, elem_of_nil in Hbits.
    destruct Hbits as [->|[->|[->|[->|[->|[->|[]]]]]]]; by vm_compute.
  - destruct (String.prefix "bytes" s); [|done].
    destruct (parseDecimal _); [|done]. by intros [= <-].
Qed.

Theorem parseType_wellFormed type :
  ∀ T, embeddedWellFormed type = true → parseType type = Ok T →
       wellFormed T = true.
Proof.
  induction type as [t|s|elementType IH|elementType len IH|name fields IH]
    using AnySSZType_nested_ind; intros T Hemb; cbn [parseType].
  - by intros [= <-].
  - apply parseShorthand_wellFormed.
  - destruct (parseType elementType) as [t|]; [cbn|done].
    intros [= <-]. exact (IH t Hemb eq_refl).
  - destruct (parseType elementType) as [t|]; [cbn|done].
    case_bool_decide; [|done]. intros [= <-]. exact (IH t Hemb eq_refl).
  - destruct (sequenceResults _) as [fs|] eqn:Hfs; [cbn|done].
    case_bool_decide; [|done]. intros [= <-]. cbn [wellFormed].
    cbn [embeddedWellFormed] in Hemb. clear name H.
    revert fs Hfs.
    induction IH as [|[n ty] fields Hf _ IHfs]; intros fs; cbn.
    + by intros [= <-].
    + cbn in Hemb. apply andb_true_iff in Hemb as [Hty Hemb].
      destruct (parseType ty) as [t|] eqn:Ht; [cbn|done].
      destruct (sequenceResults _) as [fs'|] eqn:Hfs'; [cbn|done].
      intros [= <-]. cbn. rewrite (Hf t Hty Ht). by apply IHfs.
Qed.

(** * The errors of normalisation and validation *)

Lemma parseShorthand_error s e : parseShorthand s = Err e → e = BadType.
Proof.
  unfold parseShorthand. repeat case_bool_decide; try done.
  destruct (String.prefix "uint" s).
  - destruct (parseDecimal _); [|by intros [= <-]].
    case_bool_decide; [done|by intros [= <-]].
  - destruct (String.prefix "bytes" s); [|by intros [= <-]].
    destruct (parseDecimal _); [done|by intros [= <-]].
Qed.

Theorem parseType_error type : ∀ e, parseType type = Err e → e = BadType.
Proof.
  induction type as [t|s|elementType IH|elementType len IH|name fields IH]
    using AnySSZType_nested_ind; intros e; cbn [parseType].
  - done.
  - apply parseShorthand_error.
  - destruct (parseType elementType) as [t|e']; [done|].
    intros [= <-]. by apply IH.
  - destruct (parseType elementType) as [t|e']; cbn.
    + case_bool_decide; [done|by intros [= <-]].
    + intros [= <-]. by apply IH.
  - destruct (sequenceResults _) as [fs|e'] eqn:Hfs; cbn.
    + case_bool_decide; [done|by intros [= <-]].
    + intros [= <-]. clear name. revert e' Hfs.
      induction IH as [|[n ty] fields Hf _ IHfs]; intros e'; cbn; [done|].
      cbn [fst snd] in Hf.
      destruct (parseType ty) as [t|e0]; cbn.
      * destruct (sequenceResults _) as [fs'|e1]; cbn; [done|].
        intros [= <-]. by apply IHfs.
      * intros [= <-]. by apply Hf.
Qed.

Lemma require_error b e : require b = Err e → e = InvalidValue.
Proof. destruct b; [done|]. by intros [= <-]. Qed.

Lemma allOk_error {A} (f : A → Result unit) xs e :
  Forall (λ x, ∀ e, f x = Err e → e = InvalidValue) xs →
  allOk (f <$> xs) = Err e → e = InvalidValue.
Proof.
  induction 1 as [|x xs Hx _ IH]; cbn; [done|].
  destruct (f x) as [[]|e']; cbn; [done|]. intros [= <-]. by apply Hx.
Qed.

Theorem assertValidValue_error type :
  ∀ v e, assertValidValue v type = Err e → e = InvalidValue.
Proof.
  induction type as [|u|m|len|elementType m IH|elementType len IH|fields IH]
    using FullSSZType_nested_ind; intros v e;
    destruct v; cbn [assertValidValue];
    try (by intros [= <-]); try apply require_error.
  - destruct (require _) as [[]|e'] eqn:Hr; cbn.
    + apply allOk_error, Forall_forall. intros w _ e'. apply IH.
    + intros [= <-]. by apply require_error in Hr.
  - destruct (require _) as [[]|e'] eqn:Hr; cbn.
    + apply allOk_error, Forall_forall. intros w _ e'. apply IH.
    + intros [= <-]. by apply require_error in Hr.
  - destruct (require _) as [[]|e'] eqn:Hr; cbn.
    + apply allOk_error. eapply Forall_impl; [exact IH|]. cbn.
      intros [n t] Hf e'. cbn. destruct (o !! n); [apply Hf|by intros [= <-]].
    + intros [= <-]. by apply require_error in Hr.
Qed.

(** * When the dispatcher returns *)


Lemma encodeOffset_small o :
  (Z.of_nat o < 2 ^ 32)%Z →
  encodeOffset o = Ok (le_bytes (Z.of_nat o) BYTES_PER_LENGTH_PREFIX).
Proof. intros. unfold encodeOffset. by rewrite bool_decide_eq_true_2. Qed.

Lemma encodeFixed_total elementType vs :
  Forall (λ v, Encodes v elementType) vs →
  ∃ bs, encodeFixed (λ v, encode v elementType) vs = Ok bs.
Proof.
  induction 1 as [|v vs (body & Hb & _) _ [rest IH]]; cbn; [eauto|].
  rewrite Hb. cbn. rewrite IH. cbn. eauto.
Qed.

Lemma encodeVariable_total elementType vs cur :
  Forall (λ v, Encodes v elementType) vs →
  (Z.of_nat (cur + sum_list ((λ v, encodedLength v elementType) <$> vs))
   < 2 ^ 32)%Z →
  ∃ table bodies,
    encodeVariable (λ v, encode v elementType) vs cur = Ok (table, bodies).
Proof.
  intros Hall. revert cur.
  induction Hall as [|v vs (body & Hb & Hlen) _ IH]; intros cur Hsmall; cbn;
    [eauto|].
  cbn in Hsmall. rewrite Hb. cbn. rewrite encodeOffset_small by lia. cbn.
  destruct (IH (cur + length body)) as (tb & bd & ->); [lia|]. cbn. eauto.
Qed.

Lemma encodeFields_total o fs cur :
  Forall (λ f, ∃ v, o !! f.1 = Some v ∧ Encodes v f.2) fs →
  (Z.of_nat (cur + variableRegionLength o fs) < 2 ^ 32)%Z →
  ∃ fx vr, encodeFields o fs cur = Ok (fx, vr).
Proof.
  intros Hall. revert cur.
  induction Hall as [|[name type] fs (v & Hv & body & Hb & Hlen) _ IH];
    intros cur Hsmall; [cbn; eauto|].
  cbn [fst snd] in *.
  destruct (regionLength_cons o name type fs v Hv) as [_ Hvr].
  rewrite Hvr in Hsmall. clear Hvr.
  cbn [encodeFields]. unfold getField. rewrite Hv. cbn. rewrite Hb. cbn.
  destruct (isVariableSizeType type).
  - rewrite encodeOffset_small by lia. cbn.
    destruct (IH (cur + length body)) as (fx & vr & ->); [lia|]. cbn. eauto.
  - destruct (IH cur) as (fx & vr & ->); [lia|]. cbn. eauto.
Qed.

Lemma forallb_elem {A} (f : A → bool) (xs : list A) x :
  forallb f xs = true → x ∈ xs → f x = true.
Proof.
  intros Hall Hx. induction Hx as [x xs|x y xs _ IH]; cbn in Hall;
    apply andb_true_iff in Hall as [? ?]; auto.
Qed.

Lemma sum_list_elem_le (xs : list nat) x : x ∈ xs → x ≤ sum_list xs.
Proof. induction 1; cbn; lia. Qed.

Theorem encode_total type :
  ∀ v, wellFormed type = true → assertValidValue v type = Ok () →
       biasFits v type = true →
       (Z.of_nat (encodedLength v type) < 2 ^ 32)%Z →
       ∃ bs, encode v type = Ok bs.
Proof.
  induction type as [|u|m|len|elementType m IH|elementType len IH|fields IH]
    using FullSSZType_nested_ind; intros v Hwf Hvalid Hbias Hsmall.
  - destruct v; try done. cbn. eauto.
  - apply wellFormed_uint in Hwf.
    destruct v as [|n| | | |]; try done; cbn [encode].
    + apply bool_decide_eq_true_1 in Hbias.
      rewrite encodeUint_number by done. eauto.
    + cbn in Hvalid. apply require_Ok, andb_true_iff in Hvalid as [Hn Hu].
      apply bool_decide_eq_true_1 in Hn.
      rewrite encodeUint_sentinel by done. eauto.
  - apply valid_bytes in Hvalid as (bs & -> & _); [|done]. cbn. eauto.
  - apply valid_bytes in Hvalid as (bs & -> & _); [|done]. cbn. eauto.
  - apply valid_list in Hvalid as (vs & -> & Hvs & _).
    cbn [encode encodedLength biasFits wellFormed] in *.
    assert (Forall (λ v, Encodes v elementType) vs) as Hall.
    { pose proof (Refines_elements _ _ Hwf Hvs) as Href.
      unfold validArray in Hvs. rewrite Forall_forall in Hvs, Href. apply Forall_forall. intros w Hw.
      destruct (IH w Hwf (Hvs w Hw)) as [bs Hbs].
      - by apply (forallb_elem _ _ _ Hbias).
      - pose proof (sum_list_elem_le _ _
                      (list_elem_of_fmap_2
                         (λ v, encodedLength v elementType) _ _ Hw)).
        cbn in *. lia.
      - exists bs. split; [done|]. by apply (Href w Hw). }
    destruct (isVariableSizeType elementType).
    + destruct (encodeVariable_total _ _ _ Hall Hsmall) as (tb & bd & ->).
      cbn. eauto.
    + apply (encodeFixed_total _ _ Hall).
  - apply valid_vector in Hvalid as (vs & -> & Hvs & _).
    cbn [encode encodedLength biasFits wellFormed] in *.
    assert (Forall (λ v, Encodes v elementType) vs) as Hall.
    { pose proof (Refines_elements _ _ Hwf Hvs) as Href.
      unfold validArray in Hvs. rewrite Forall_forall in Hvs, Href. apply Forall_forall. intros w Hw.
      destruct (IH w Hwf (Hvs w Hw)) as [bs Hbs].
      - by apply (forallb_elem _ _ _ Hbias).
      - pose proof (sum_list_elem_le _ _
                      (list_elem_of_fmap_2
                         (λ v, encodedLength v elementType) _ _ Hw)).
        cbn in *. lia.
      - exists bs. split; [done|]. by apply (Href w Hw). }
    destruct (isVariableSizeType elementType).
    + destruct (encodeVariable_total _ _ _ Hall Hsmall) as (tb & bd & ->).
      cbn. eauto.
    + apply (encodeFixed_total _ _ Hall).
  - apply valid_container in Hvalid as (o & -> & Hfs & _).
    pose proof (Refines_fields _ _ Hwf Hfs) as Href.
    change (encodedLength (VObject o) (TContainer fields))
      with (fixedRegionLength o fields + variableRegionLength o fields)
      in Hsmall.
    rewrite encode_container, (fixedLengthOf_valid _ _ Hfs). cbn.
    destruct (encodeFields_total o fields (fixedRegionLength o fields))
      as (fx & vr & ->); [|done|cbn; eauto].
    cbn [wellFormed biasFits] in *.
    assert (∀ f, f ∈ fields →
                 fieldLength o f
                 ≤ fixedRegionLength o fields + variableRegionLength o fields)
      as Hle.
    { intros f Hf. unfold fixedRegionLength, variableRegionLength.
      pose proof (sum_list_elem_le _ _
        (list_elem_of_fmap_2
           (λ f, if isVariableSizeType f.2 then BYTES_PER_LENGTH_PREFIX
                 else fieldLength o f) _ _ Hf)).
      pose proof (sum_list_elem_le _ _
        (list_elem_of_fmap_2
           (λ f, if isVariableSizeType f.2 then fieldLength o f else 0)
           _ _ Hf)).
      cbn in *. destruct (isVariableSizeType f.2); lia. }
    unfold validFields in Hfs.
    rewrite Forall_forall in IH, Hfs, Href. apply Forall_forall.
    intros f Hf. destruct (Hfs f Hf) as (w & Hw & Hwvalid).
    destruct (Href f Hf) as (w' & Hw' & Hlen & _).
    rewrite Hw in Hw'. injection Hw' as <-.
    specialize (Hle f Hf). unfold fieldLength in Hle. rewrite Hw in Hle.
    pose proof (forallb_elem _ _ _ Hbias Hf) as Hb. cbn in Hb.
    rewrite Hw in Hb.
    destruct (IH f Hf w (forallb_elem _ _ _ Hwf Hf) Hwvalid Hb)
      as [bs Hbs]; [lia|].
    exists w. split; [done|]. exists bs. split; [done|]. by apply Hlen.
Qed.

(** The dispatcher returns on every valid value whose biased integers fit
    their widths and whose encoding is shorter than 2^32 bytes, given a
    buffer with room for it. *)
Theorem _serialize_returns v T output start :
  wellFormed T = true → assertValidValue v T = Ok () →
  biasFits v T = true →
  (Z.of_nat (encodedLength v T) < 2 ^ 32)%Z →
  start + encodedLength v T ≤ length output →
  ∃ bs, encode v T = Ok bs
        ∧ _serialize v T output start
          = Ok (writeBytes bs output start, start + encodedLength v T).
Proof.
  intros Hwf Hvalid Hbias Hsmall Hroom.
  destruct (encode_total _ _ Hwf Hvalid Hbias Hsmall) as [bs Hbs].
  destruct (_serialize_refines _ _ Hwf Hvalid) as [Hlen Heq].
  exists bs. split; [done|]. rewrite Heq, Hbs by done. cbn.
  by rewrite (Hlen bs Hbs).
Qed.

(** [serialize] returns on every valid value whose biased integers fit
    their widths and whose size is defined and below 2^32. *)
Theorem serialize_returns v ty T n :
  parseType ty = Ok T → wellFormed T = true →
  assertValidValue v T = Ok () → biasFits v T = true →
  size v T = Ok n → (Z.of_nat n < 2 ^ 32)%Z →
  ∃ bs, encode v T = Ok bs ∧ serialize v ty = Ok bs.
Proof.
  intros HT Hwf Hvalid Hbias Hsize Hsmall.
  pose proof (size_encodedLength _ _ _ Hvalid Hsize) as ->.
  destruct (encode_total _ _ Hwf Hvalid Hbias Hsmall) as [bs Hbs].
  destruct (_serialize_refines _ _ Hwf Hvalid) as [Hlen Heq].
  exists bs. split; [done|]. unfold serialize. rewrite HT. cbn.
  rewrite Hvalid. cbn. rewrite Hsize. cbn.
  rewrite Heq by (rewrite length_Buffer_alloc; lia). rewrite Hbs. cbn.
  f_equal. unfold writeBytes. cbn.
  rewrite drop_ge by (rewrite length_Buffer_alloc, (Hlen bs Hbs); lia).
  apply app_nil_r.
Qed.

(** * The claims about [serialize] *)

(** C1: for a valid value, the byte sequence returned by [serialize] has
    length exactly [size(v, T)]; equivalently, the index that the
    dispatcher returns on the buffer allocated with [size(v, T)] bytes, at
    offset 0, is the length of that buffer.  [size] is defined on every
    valid value, a [Vector] of variable-size elements included, and
    [serialize] does return, with that many bytes, when the biased
    integers of the value fit their widths and the size is below 2^32. *)
Theorem serialize_length_is_size (v : Value) (ty : AnySSZType)
    (T : FullSSZType) :
  parseType ty = Ok T → wellFormed T = true →
  assertValidValue v T = Ok () →
  (∀ buf, serialize v ty = Ok buf →
          ∃ n, size v T = Ok n ∧ length buf = n
               ∧ _serialize v T (Buffer_alloc n) 0 = Ok (buf, n))
  ∧ (∀ n output idx,
       size v T = Ok n →
       _serialize v T (Buffer_alloc n) 0 = Ok (output, idx) →
       idx = length (Buffer_alloc n) ∧ length output = n)
  ∧ (∀ n, biasFits v T = true → size v T = Ok n →
          (Z.of_nat n < 2 ^ 32)%Z →
          ∃ buf, serialize v ty = Ok buf)
  ∧ (∃ n, size v T = Ok n
          ∧ (biasFits v T = true → (Z.of_nat n < 2 ^ 32)%Z →
             ∃ buf, serialize v ty = Ok buf ∧ length buf = n)).
Proof.
  intros Hparse Hwf Hvalid.
  assert (∀ n output idx,
            size v T = Ok n →
            _serialize v T (Buffer_alloc n) 0 = Ok (output, idx) →
            idx = n ∧ length output = n) as Hidx.
  { intros n output idx Hsize Hser.
    pose proof (size_encodedLength _ _ _ Hvalid Hsize) as ->.
    assert (0 + encodedLength v T ≤ length (Buffer_alloc (encodedLength v T)))
      as Hroom by (rewrite length_Buffer_alloc; lia).
    destruct (_serialize_frame _ _ _ _ _ _ Hwf Hvalid Hroom Hser)
      as (-> & -> & _).
    by rewrite length_Buffer_alloc. }
  assert (∀ buf, serialize v ty = Ok buf →
            ∃ n, size v T = Ok n ∧ length buf = n
                 ∧ _serialize v T (Buffer_alloc n) 0 = Ok (buf, n)) as Hlen.
  { intros buf (T' & n & idx & HT' & _ & Hsize & Hser)%serialize_unfold.
    rewrite Hparse in HT'. injection HT' as <-.
    destruct (Hidx _ _ _ Hsize Hser) as [-> Hlen].
    exists n. split; [done|]. split; done. }
  split; [exact Hlen|]. split; [|split].
  - intros n output idx Hsize Hser. rewrite length_Buffer_alloc. eauto.
  - intros n Hbias Hsize Hsmall.
    destruct (serialize_returns _ _ _ _ Hparse Hwf Hvalid Hbias Hsize Hsmall)
      as (bs & _ & Hbs).
    eauto.
  - exists (encodedLength v T). split; [by apply size_total|].
    intros Hbias Hsmall.
    destruct (serialize_returns _ _ _ _ Hparse Hwf Hvalid Hbias
                (size_total _ _ Hvalid) Hsmall) as (bs & _ & Hbs).
    exists bs. split; [done|].
    destruct (Hlen bs Hbs) as (n & Hn & <- & _).
    rewrite (size_total _ _ Hvalid) in Hn. congruence.
Qed.

Lemma serialize_length_is_size_witness :
  (∃ n, size (VArray [VBytes [1; 2; 3]%Z; VBytes []])
          (TList (TByteList None) None) = Ok n
        ∧ length [8; 0; 0; 0; 11; 0; 0; 0; 1; 2; 3]%Z = n
        ∧ _serialize (VArray [VBytes [1; 2; 3]%Z; VBytes []])
            (TList (TByteList None) None) (Buffer_alloc n) 0
          = Ok ([8; 0; 0; 0; 11; 0; 0; 0; 1; 2; 3]%Z, n))
  ∧ (∃ n, size (VArray [VBytes [1; 2]%Z; VBytes [3]%Z])
            (TVector (TByteList None) 2) = Ok n
          ∧ length [8; 0; 0; 0; 10; 0; 0; 0; 1; 2; 3]%Z = n
          ∧ _serialize (VArray [VBytes [1; 2]%Z; VBytes [3]%Z])
              (TVector (TByteList None) 2) (Buffer_alloc n) 0
            = Ok ([8; 0; 0; 0; 10; 0; 0; 0; 1; 2; 3]%Z, n)).
Proof.
  split.
  - apply (serialize_length_is_size
             (VArray [VBytes [1; 2; 3]%Z; VBytes []])
             (ListOf (Shorthand "bytes")) (TList (TByteList None) None));
      by vm_compute.
  - apply (serialize_length_is_size
             (VArray [VBytes [1; 2]%Z; VBytes [3]%Z])
             (Full (TVector (TByteList None) 2))
             (TVector (TByteList None) 2));
      by vm_compute.
Defined.

(** * The run on the caller's buffer *)

Lemma _serialize_run_container o fields start output :
  _serialize_run (VObject o) (TContainer fields) start output
  = match fixedLengthOf fields with
    | Ok fixedLength =>
        _serializeObject_loop_run o start fields start (start + fixedLength)
          output
    | Err e => (output, Err e)
    end.
Proof.
  cbn [_serialize_run].
  destruct (fixedLengthOf fields) as [fl|e]; [|reflexivity].
  generalize (start + fl). generalize start at 2 4. revert output.
  induction fields as [|[n t] fs IH]; intros; [reflexivity|].
  cbn [_serializeObject_loop_run].
  destruct (getField o n); [|reflexivity].
  destruct (isVariableSizeType t).
  - destruct (_serialize_run _ _ _ _) as [? [|]]; [|reflexivity].
    destruct (writeUIntLE _ _ _ _); [|reflexivity]. apply IH.
  - destruct (_serialize_run _ _ _ _) as [? [|]]; [|reflexivity]. apply IH.
Qed.

Section run_returns.
Context (ser : Writer) (run : Value → nat → Run).

Lemma _serializeArray_fixed_run_returned vs output index :
  Forall (λ v, ∀ output start,
            ser v output start = returned (run v start output)) vs →
  _serializeArray_fixed ser vs output index
  = returned (_serializeArray_fixed_run run vs index output).
Proof.
  intros Hvs. revert output index.
  induction Hvs as [|v vs Hv _ IH]; intros output index; [done|].
  cbn. rewrite Hv.
  destruct (run v index output) as [o1 [i1|e]]; cbn; [apply IH|done].
Qed.

Lemma _serializeArray_variable_run_returned start vs output fixedIndex cur :
  Forall (λ v, ∀ output start,
            ser v output start = returned (run v start output)) vs →
  _serializeArray_variable ser start vs output fixedIndex cur
  = returned (_serializeArray_variable_run run start vs fixedIndex cur
                output).
Proof.
  intros Hvs. revert output fixedIndex cur.
  induction Hvs as [|v vs Hv _ IH]; intros output fixedIndex cur; [done|].
  cbn. rewrite Hv.
  destruct (run v cur output) as [o1 [i1|e]]; cbn; [|done].
  destruct (writeUIntLE o1 _ fixedIndex _) as [o2|e]; cbn; [apply IH|done].
Qed.

End run_returns.

(** The first embedding is the run, seen by a caller that only sees a
    return. *)
Theorem _serialize_run_returned type :
  ∀ v output start,
    _serialize v type output start
    = returned (_serialize_run v type start output).
Proof.
  induction type as [|u|m|len|elementType m IH|elementType len IH|fields IH]
    using FullSSZType_nested_ind; intros v output start.
  - cbn [_serialize_run]. unfold leafRun.
    by destruct (_serialize v TBool output start) as [[o i]|e].
  - cbn [_serialize_run]. unfold leafRun.
    by destruct (_serialize v (TUint u) output start) as [[o i]|e].
  - cbn [_serialize_run]. unfold leafRun.
    by destruct (_serialize v (TByteList m) output start) as [[o i]|e].
  - cbn [_serialize_run]. unfold leafRun.
    by destruct (_serialize v (TByteVector len) output start) as [[o i]|e].
  - destruct v as [| | | |vs|]; try done. cbn [_serialize _serialize_run].
    unfold _serializeArray, _serializeArray_run.
    destruct (isVariableSizeType elementType).
    + apply _serializeArray_variable_run_returned, Forall_true. auto.
    + apply _serializeArray_fixed_run_returned, Forall_true. auto.
  - destruct v as [| | | |vs|]; try done. cbn [_serialize _serialize_run].
    unfold _serializeArray, _serializeArray_run.
    destruct (isVariableSizeType elementType).
    + apply _serializeArray_variable_run_returned, Forall_true. auto.
    + apply _serializeArray_fixed_run_returned, Forall_true. auto.
  - destruct v as [| | | | |o]; try done.
    rewrite _serialize_container, _serialize_run_container.
    unfold _serializeObject.
    destruct (fixedLengthOf fields) as [fixedLength|e]; [cbn|done].
    generalize (start + fixedLength). generalize start at 2 4.
    revert output.
    induction IH as [|[name type] fs Hf _ IHfs]; intros output fixedIndex cur;
      [done|].
    cbn [_serializeObject_loop _serializeObject_loop_run]. cbn [snd] in Hf.
    destruct (getField o name) as [w|e];
      [cbn|by destruct (isVariableSizeType type)].
    destruct (isVariableSizeType type).
    + rewrite Hf.
      destruct (_serialize_run w type cur output) as [o1 [i1|e]]; cbn;
        [|done].
      destruct (writeUIntLE o1 _ fixedIndex _) as [o2|e]; cbn; [|done].
      apply IHfs.
    + rewrite Hf.
      destruct (_serialize_run w type fixedIndex output) as [o1 [i1|e]]; cbn;
        [|done].
      apply IHfs.
Qed.

Section run_frame.

Lemma writeUIntLE_framed (out : list Z) x s n out' :
  writeUIntLE out x s n = Ok out' → Framed out s n out'.
Proof.
  unfold writeUIntLE.
  destruct (bool_decide (1 ≤ n ≤ 6)); [|done].
  destruct (bool_decide (0 ≤ x < 2 ^ (8 * Z.of_nat n))%Z); [|done].
  case_bool_decide; [cbn|done]. intros [= <-]. split.
  - apply length_writeBytes. by rewrite length_le_bytes.
  - intros i Hi. rewrite lookup_writeBytes by (by rewrite length_le_bytes).
    rewrite length_le_bytes. case_decide; [lia|done].
Qed.

Section array.
Context (elementType : FullSSZType).
Local Abbreviation run := (λ v, _serialize_run v elementType).
Local Abbreviation len := (λ v, encodedLength v elementType).

Lemma Framed_refl output s n : Framed output s n output.
Proof. by split. Qed.

Lemma Framed_trans output s n o1 o2 :
  Framed output s n o1 → Framed o1 s n o2 → Framed output s n o2.
Proof.
  intros [Hl1 Hf1] [Hl2 Hf2]. split; [congruence|].
  intros i Hi. by rewrite Hf2, Hf1.
Qed.

Lemma Framed_widen output s n s' n' output' :
  s' ≤ s → s + n ≤ s' + n' →
  Framed output s n output' → Framed output s' n' output'.
Proof.
  intros Hs Hn [Hl Hf]. split; [done|]. intros i Hi. apply Hf. lia.
Qed.

Lemma Framed_length output s n output' :
  Framed output s n output' → length output' = length output.
Proof. by intros [? _]. Qed.

Lemma _serializeArray_fixed_run_framed vs output index :
  Forall (λ v, ∀ output s, s + len v ≤ length output →
                           RunFramed (run v s output) output s (len v)) vs →
  index + sum_list (len <$> vs) ≤ length output →
  RunFramed (_serializeArray_fixed_run run vs index output) output index
    (sum_list (len <$> vs)).
Proof.
  intros Hvs. revert output index.
  induction Hvs as [|v vs Hv _ IH]; intros output index Hroom.
  - split; [apply Framed_refl|]. cbn. intros idx [= <-]. lia.
  - rewrite fmap_cons in Hroom |- *.
    change (sum_list (encodedLength v elementType :: (len <$> vs)))
      with (encodedLength v elementType + sum_list (len <$> vs))
      in Hroom |- *.
    set (rest := sum_list (len <$> vs)) in *.
    cbn [_serializeArray_fixed_run].
    destruct (Hv output index ltac:(cbn; lia)) as [Hf1 Hi1].
    destruct (_serialize_run v elementType index output) as [o1 [i1|e]].
    + cbn in Hf1, Hi1. specialize (Hi1 i1 eq_refl) as ->.
      pose proof (Framed_length _ _ _ _ Hf1) as Hl1.
      destruct (IH o1 (index + encodedLength v elementType) ltac:(lia))
        as [Hf2 Hi2].
      split.
      * eapply Framed_trans.
        -- eapply Framed_widen; [| |exact Hf1]; lia.
        -- eapply Framed_widen; [| |exact Hf2]; lia.
      * intros idx Hidx. rewrite (Hi2 idx Hidx). lia.
    + cbn in Hf1. split; [|done]. cbn.
      eapply Framed_widen; [| |exact Hf1]; lia.
Qed.

Lemma _serializeArray_variable_run_framed start vs output fixedIndex cur :
  Forall (λ v, ∀ output s, s + len v ≤ length output →
                           RunFramed (run v s output) output s (len v)) vs →
  fixedIndex + length vs * BYTES_PER_LENGTH_PREFIX ≤ cur →
  cur + sum_list (len <$> vs) ≤ length output →
  RunFramed (_serializeArray_variable_run run start vs fixedIndex cur output)
    output fixedIndex (cur + sum_list (len <$> vs) - fixedIndex).
Proof.
  intros Hvs. revert output fixedIndex cur.
  induction Hvs as [|v vs Hv _ IH]; intros output fixedIndex cur Hfix Hroom.
  - split; [apply Framed_refl|]. cbn. intros idx [= <-]. lia.
  - rewrite fmap_cons in Hroom |- *.
    change (sum_list (encodedLength v elementType :: (len <$> vs)))
      with (encodedLength v elementType + sum_list (len <$> vs))
      in Hroom |- *.
    set (rest := sum_list (len <$> vs)) in *.
    cbn [length] in Hfix. unfold BYTES_PER_LENGTH_PREFIX in Hfix.
    cbn [_serializeArray_variable_run].
    destruct (Hv output cur ltac:(cbn; lia)) as [Hf1 Hi1].
    destruct (_serialize_run v elementType cur output) as [o1 [i1|e]].
    + cbn in Hf1, Hi1. specialize (Hi1 i1 eq_refl) as ->.
      pose proof (Framed_length _ _ _ _ Hf1) as Hl1.
      destruct (writeUIntLE o1 _ fixedIndex _) as [o2|e] eqn:Hw.
      * apply writeUIntLE_framed in Hw as Hfw.
        pose proof (Framed_length _ _ _ _ Hfw) as Hlw.
        destruct (IH o2 (fixedIndex + BYTES_PER_LENGTH_PREFIX)
                    (cur + encodedLength v elementType)
                    ltac:(unfold BYTES_PER_LENGTH_PREFIX; lia) ltac:(lia))
          as [Hf2 Hi2].
        unfold BYTES_PER_LENGTH_PREFIX in *.
        split.
        -- eapply Framed_trans; [eapply Framed_trans|].
           ++ eapply Framed_widen; [| |exact Hf1]; lia.
           ++ eapply Framed_widen; [| |exact Hfw]; lia.
           ++ eapply Framed_widen; [| |exact Hf2]; lia.
        -- intros idx Hidx. rewrite (Hi2 idx Hidx). lia.
      * split; [|done]. cbn.
        eapply Framed_widen; [| |exact Hf1]; lia.
    + cbn in Hf1. split; [|done]. cbn.
      eapply Framed_widen; [| |exact Hf1]; lia.
Qed.

End array.

Lemma _serializeObject_loop_run_framed o start fs output fixedIndex cur :
  Forall (λ f, ∃ v, o !! f.1 = Some v
                    ∧ ∀ output s,
                        s + encodedLength v f.2 ≤ length output →
                        RunFramed (_serialize_run v f.2 s output) output s
                          (encodedLength v f.2)) fs →
  fixedIndex + fixedRegionLength o fs ≤ cur →
  cur + variableRegionLength o fs ≤ length output →
  RunFramed (_serializeObject_loop_run o start fs fixedIndex cur output)
    output fixedIndex (cur + variableRegionLength o fs - fixedIndex).
Proof.
  intros Hfs. revert output fixedIndex cur.
  induction Hfs as [|[name type] fs (v & Hv & Hf) _ IH];
    intros output fixedIndex cur Hfix Hroom.
  - split; [apply Framed_refl|]. cbn. intros idx [= <-].
    unfold variableRegionLength. cbn. lia.
  - cbn [fst snd] in *.
    destruct (regionLength_cons o name type fs v Hv) as [Hfx Hvr].
    rewrite Hfx in Hfix. rewrite Hvr in Hroom |- *.
    set (fx := fixedRegionLength o fs) in *.
    set (vr := variableRegionLength o fs) in *.
    cbn [_serializeObject_loop_run]. unfold getField. rewrite Hv.
    unfold BYTES_PER_LENGTH_PREFIX in *.
    destruct (isVariableSizeType type).
    + destruct (Hf output cur ltac:(lia)) as [Hf1 Hi1].
      destruct (_serialize_run v type cur output) as [o1 [i1|e]].
      * cbn in Hf1, Hi1. specialize (Hi1 i1 eq_refl) as ->.
        pose proof (Framed_length _ _ _ _ Hf1) as Hl1.
        destruct (writeUIntLE o1 _ fixedIndex _) as [o2|e] eqn:Hw.
        -- apply writeUIntLE_framed in Hw as Hfw.
           pose proof (Framed_length _ _ _ _ Hfw) as Hlw.
           destruct (IH o2 (fixedIndex + 4) (cur + encodedLength v type)
                       ltac:(lia) ltac:(lia)) as [Hf2 Hi2].
           split.
           ++ eapply Framed_trans; [eapply Framed_trans|].
              ** eapply Framed_widen; [| |exact Hf1]; lia.
              ** eapply Framed_widen; [| |exact Hfw]; lia.
              ** eapply Framed_widen; [| |exact Hf2]; lia.
           ++ intros idx Hidx. rewrite (Hi2 idx Hidx). lia.
        -- split; [|done]. cbn.
           eapply Framed_widen; [| |exact Hf1]; lia.
      * cbn in Hf1. split; [|done]. cbn.
        eapply Framed_widen; [| |exact Hf1]; lia.
    + destruct (Hf output fixedIndex ltac:(lia)) as [Hf1 Hi1].
      destruct (_serialize_run v type fixedIndex output) as [o1 [i1|e]].
      * cbn in Hf1, Hi1. specialize (Hi1 i1 eq_refl) as ->.
        pose proof (Framed_length _ _ _ _ Hf1) as Hl1.
        destruct (IH o1 (fixedIndex + encodedLength v type) cur
                    ltac:(lia) ltac:(lia)) as [Hf2 Hi2].
        split.
        -- eapply Framed_trans.
           ++ eapply Framed_widen; [| |exact Hf1]; lia.
           ++ eapply Framed_widen; [| |exact Hf2]; lia.
        -- intros idx Hidx. rewrite (Hi2 idx Hidx). lia.
      * cbn in Hf1. split; [|done]. cbn.
        eapply Framed_widen; [| |exact Hf1]; lia.
Qed.

(** On a buffer with room for a valid value the run, whether it returns
    or throws, has written inside the range of the value only. *)
Theorem _serialize_run_frame type :
  ∀ v, wellFormed type = true → assertValidValue v type = Ok () →
       ∀ output start,
         start + encodedLength v type ≤ length output →
         RunFramed (_serialize_run v type start output) output start
           (encodedLength v type).
Proof.
  assert (∀ T v output start,
            wellFormed T = true → assertValidValue v T = Ok () →
            start + encodedLength v T ≤ length output →
            RunFramed (leafRun (λ output, _serialize v T output start)
                         output) output start (encodedLength v T))
    as Hleaf.
  { intros T v output start Hwf Hvalid Hroom. unfold leafRun.
    destruct (_serialize v T output start) as [[o i]|e] eqn:Hser.
    - destruct (_serialize_frame _ _ _ _ _ _ Hwf Hvalid Hroom Hser)
        as (-> & Hlen & Hframe).
      split; [by split|]. cbn. by intros idx [= <-].
    - split; [apply Framed_refl|done]. }
  induction type as [|u|m|len|elementType m IH|elementType len IH|fields IH]
    using FullSSZType_nested_ind; intros v Hwf Hvalid output start Hroom.
  - by apply Hleaf.
  - by apply Hleaf.
  - by apply Hleaf.
  - by apply Hleaf.
  - apply valid_list in Hvalid as (vs & -> & Hvs & _).
    cbn [wellFormed] in Hwf. cbn [encodedLength] in Hroom |- *.
    cbn [_serialize_run]. unfold _serializeArray_run.
    assert (Forall (λ v, ∀ output s,
              s + encodedLength v elementType ≤ length output →
              RunFramed (_serialize_run v elementType s output) output s
                (encodedLength v elementType)) vs) as Hall.
    { eapply Forall_impl; [exact Hvs|]. cbn. intros w Hw o s Hs.
      by apply IH. }
    destruct (isVariableSizeType elementType).
    + destruct (_serializeArray_variable_run_framed elementType start vs
                  output start (start + length vs * BYTES_PER_LENGTH_PREFIX)
                  Hall ltac:(lia) ltac:(lia)) as [Hf Hi].
      split.
      * eapply Framed_widen; [| |exact Hf]; lia.
      * intros idx Hidx. rewrite (Hi idx Hidx). lia.
    + by apply _serializeArray_fixed_run_framed.
  - apply valid_vector in Hvalid as (vs & -> & Hvs & _).
    cbn [wellFormed] in Hwf. cbn [encodedLength] in Hroom |- *.
    cbn [_serialize_run]. unfold _serializeArray_run.
    assert (Forall (λ v, ∀ output s,
              s + encodedLength v elementType ≤ length output →
              RunFramed (_serialize_run v elementType s output) output s
                (encodedLength v elementType)) vs) as Hall.
    { eapply Forall_impl; [exact Hvs|]. cbn. intros w Hw o s Hs.
      by apply IH. }
    destruct (isVariableSizeType elementType).
    + destruct (_serializeArray_variable_run_framed elementType start vs
                  output start (start + length vs * BYTES_PER_LENGTH_PREFIX)
                  Hall ltac:(lia) ltac:(lia)) as [Hf Hi].
      split.
      * eapply Framed_widen; [| |exact Hf]; lia.
      * intros idx Hidx. rewrite (Hi idx Hidx). lia.
    + by apply _serializeArray_fixed_run_framed.
  - apply valid_container in Hvalid as (o & -> & Hfs & _).
    change (encodedLength (VObject o) (TContainer fields))
      with (fixedRegionLength o fields + variableRegionLength o fields)
      in Hroom |- *.
    rewrite _serialize_run_container, (fixedLengthOf_valid o) by done.
    assert (Forall (λ f, ∃ v, o !! f.1 = Some v
              ∧ ∀ output s,
                  s + encodedLength v f.2 ≤ length output →
                  RunFramed (_serialize_run v f.2 s output) output s
                    (encodedLength v f.2)) fields) as Hall.
    { cbn [wellFormed] in Hwf. clear Hroom.
      induction IH as [|f fs Hf _ IHfs]; [constructor|].
      apply Forall_cons_1 in Hfs as [(w & Hw & Hwvalid) Hfs].
      cbn in Hwf. apply andb_true_iff in Hwf as [Hwf1 Hwf].
      constructor; [|by apply IHfs].
      exists w. split; [done|]. intros o' s Hs. by apply Hf. }
    destruct (_serializeObject_loop_run_framed o start fields output start
                (start + fixedRegionLength o fields) Hall
                ltac:(lia) ltac:(lia)) as [Hf Hi].
    split.
    + eapply Framed_widen; [| |exact Hf]; lia.
    + intros idx Hidx. rewrite (Hi idx Hidx). lia.
Qed.

End run_frame.

(** C10: on a buffer with room for a valid value at [start], a call of the
    dispatcher writes inside [start, start + size(v, T)) only: the buffer
    the call leaves behind, whether it returns or throws after its first
    writes, has the length it had and every byte outside the range as it
    was.  A call that returns has returned [start + size(v, T)]; the call
    does return when the biased integers of the value fit their widths
    and the size is below 2^32. *)
Theorem _serialize_writes_only_its_range (v : Value) (T : FullSSZType)
    (n : nat) (output : Buffer) (start : nat) :
  wellFormed T = true → assertValidValue v T = Ok () →
  size v T = Ok n → start + n ≤ length output →
  (∀ output' idx,
     _serialize v T output start = Ok (output', idx) →
     idx = start + n
     ∧ length output' = length output
     ∧ ∀ i, ¬ (start ≤ i < start + n) → output' !! i = output !! i)
  ∧ (biasFits v T = true → (Z.of_nat n < 2 ^ 32)%Z →
     ∃ output' idx, _serialize v T output start = Ok (output', idx))
  ∧ _serialize v T output start = returned (_serialize_run v T start output)
  ∧ (∀ output' r,
       _serialize_run v T start output = (output', r) →
       length output' = length output
       ∧ (∀ i, ¬ (start ≤ i < start + n) → output' !! i = output !! i)
       ∧ ∀ idx, r = Ok idx → idx = start + n).
Proof.
  intros Hwf Hvalid Hsize Hroom.
  pose proof (size_encodedLength _ _ _ Hvalid Hsize) as ->.
  split; [|split; [|split]].
  - intros output' idx Hser.
    destruct (_serialize_frame _ _ _ _ _ _ Hwf Hvalid Hroom Hser)
      as (-> & Hlen & Hframe).
    split; [done|]. split; [done|]. intros i Hi. apply Hframe. lia.
  - intros Hbias Hsmall.
    destruct (_serialize_returns _ _ _ _ Hwf Hvalid Hbias Hsmall Hroom)
      as (bs & _ & Hser).
    eauto.
  - apply _serialize_run_returned.
  - intros output' r Hrun.
    destruct (_serialize_run_frame T v Hwf Hvalid output start Hroom)
      as [[Hlen Hframe] Hidx].
    rewrite Hrun in Hlen, Hframe, Hidx. cbn in Hlen, Hframe, Hidx.
    split; [done|]. split; [|done]. intros i Hi. apply Hframe. lia.
Qed.

Lemma _serialize_writes_only_its_range_witness :
  (3 + 11 = 3 + 11
   ∧ length [7; 7; 7; 8; 0; 0; 0; 11; 0; 0; 0; 1; 2; 3; 7; 7]%Z
     = length (replicate 16 7%Z)
   ∧ ∀ i, ¬ (3 ≤ i < 3 + 11) →
          [7; 7; 7; 8; 0; 0; 0; 11; 0; 0; 0; 1; 2; 3; 7; 7]%Z !! i
          = replicate 16 7%Z !! i)
  ∧ (length [7; 2; 7; 7]%Z = length (replicate 4 7%Z)
     ∧ (∀ i, ¬ (1 ≤ i < 1 + 2) →
             [7; 2; 7; 7]%Z !! i = replicate 4 7%Z !! i)
     ∧ ∀ idx, (Err AssertionError : Result nat) = Ok idx → idx = 1 + 2).
Proof.
  split.
  - destruct (_serialize_writes_only_its_range
                (VArray [VBytes [1; 2; 3]%Z; VBytes []])
                (TList (TByteList None) None) 11 (replicate 16 7%Z) 3)
      as [Hframe _]; [by vm_compute| by vm_compute| by vm_compute
                     | vm_compute; lia |].
    apply Hframe. by vm_compute.
  - destruct (_serialize_writes_only_its_range
                (VArray [VNumber 1; VNumber 255])
                (TList (TUint (mkUint 1 false 1)) None) 2
                (replicate 4 7%Z) 1)
      as (_ & _ & _ & Hrun); [by vm_compute| by vm_compute| by vm_compute
                             | vm_compute; lia |].
    apply (Hrun [7; 2; 7; 7]%Z (Err AssertionError)). by vm_compute.
Defined.

(** C5: [[1], [2, 3]] at List<List<Uint32>> serializes to the 20 bytes
    08000000 0c000000 01000000 02000000 03000000: an 8-byte offset table
    holding 8 and 12, then the bodies 01000000 and 0200000003000000. *)
Theorem serialize_nested_list :
  let value := VArray [VArray [VNumber 1]; VArray [VNumber 2; VNumber 3]] in
  let bytes := [8; 0; 0; 0; 12; 0; 0; 0;
                1; 0; 0; 0; 2; 0; 0; 0; 3; 0; 0; 0]%Z in
  serialize value (ListOf (ListOf (Shorthand "uint32"))) = Ok bytes
  ∧ length bytes = 20
  ∧ writtenOffsets bytes 0 [0; 4] = [8; 12]%Z
  ∧ serialize (VArray [VNumber 1]) (ListOf (Shorthand "uint32"))
    = Ok (take 4 (drop 8 bytes))
  ∧ serialize (VArray [VNumber 2; VNumber 3]) (ListOf (Shorthand "uint32"))
    = Ok (drop 12 bytes).
Proof. by vm_compute. Qed.

(** C7: when [parseType] throws (BadType) or [assertValidValue] throws
    (InvalidValue), [serialize] throws the same error and returns no
    buffer; a buffer is returned only after both have completed. *)
Theorem serialize_error_atomic (v : Value) (ty : AnySSZType) :
  (∀ e, parseType ty = Err e →
        e = BadType ∧ serialize v ty = Err BadType)
  ∧ (∀ T e, parseType ty = Ok T → assertValidValue v T = Err e →
            e = InvalidValue ∧ serialize v ty = Err InvalidValue)
  ∧ (∀ buf, serialize v ty = Ok buf →
            ∃ T, parseType ty = Ok T ∧ assertValidValue v T = Ok ()).
Proof.
  split; [|split].
  - intros e He. pose proof (parseType_error _ _ He) as ->.
    split; [done|]. unfold serialize. by rewrite He.
  - intros T e HT He. pose proof (assertValidValue_error _ _ _ He) as ->.
    split; [done|]. unfold serialize. rewrite HT. cbn. by rewrite He.
  - intros buf (T & n & idx & HT & Hvalid & _)%serialize_unfold. eauto.
Qed.

Lemma serialize_error_atomic_witness :
  (BadType = BadType
   ∧ serialize (VNumber 1) (Shorthand "uint24") = Err BadType)
  ∧ (InvalidValue = InvalidValue
     ∧ serialize (VBytes [0xab]%Z) (Shorthand "bytes2") = Err InvalidValue)
  ∧ ∃ T, parseType (Shorthand "bytes2") = Ok T
         ∧ assertValidValue (VBytes [0xab; 0xcd]%Z) T = Ok ().
Proof.
  split; [|split].
  - apply (proj1 (serialize_error_atomic (VNumber 1) (Shorthand "uint24"))).
    by vm_compute.
  - apply (proj1 (proj2 (serialize_error_atomic (VBytes [0xab]%Z)
                           (Shorthand "bytes2"))) (TByteVector 2));
      by vm_compute.
  - apply (proj2 (proj2 (serialize_error_atomic (VBytes [0xab; 0xcd]%Z)
                           (Shorthand "bytes2"))) [0xab; 0xcd]%Z).
    by vm_compute.
Defined.

(** C8: the empty list serializes to the empty byte sequence, whether the
    element type is fixed-size or variable-size. *)
Theorem serialize_empty_list (ety : AnySSZType) (elementType : FullSSZType)
    (maxLength : option nat) :
  parseType ety = Ok elementType →
  serialize (VArray []) (ListOf ety) = Ok []
  ∧ serialize (VArray []) (Full (TList elementType maxLength)) = Ok []
  ∧ serialize (VArray []) (ListOf (Shorthand "uint32")) = Ok []
  ∧ serialize (VArray []) (ListOf (ListOf (Shorthand "uint32"))) = Ok [].
Proof.
  intros Hety.
  assert (∀ m, serialize (VArray []) (Full (TList elementType m)) = Ok [])
    as Hfull.
  { intros m. unfold serialize. cbn -[size _serialize].
    assert (withinMax 0 m = true) as -> by (destruct m; [|done]; cbn;
      apply bool_decide_eq_true_2; lia).
    cbn -[size _serialize]. rewrite size_variable by done.
    cbn [_serialize]. unfold _serializeArray.
    destruct (isVariableSizeType elementType) eqn:Hvar; [done|].
    destruct (fixedSize_defined _ Hvar) as [n ->]. done. }
  split; [|split; [apply Hfull|by vm_compute]].
  specialize (Hfull None). unfold serialize in *. cbn [parseType] in *.
  by rewrite Hety.
Qed.

Lemma serialize_empty_list_witness :
  serialize (VArray []) (ListOf (Shorthand "bytes")) = Ok []
  ∧ serialize (VArray []) (Full (TList (TByteList None) (Some 3))) = Ok [].
Proof.
  split;
    apply (serialize_empty_list (Shorthand "bytes") (TByteList None) (Some 3));
    by vm_compute.
Defined.

(** * Offset tables *)

Lemma readUIntLE_writeBytes bs output start p k :
  start + length bs ≤ length output → p + k ≤ length bs →
  readUIntLE (writeBytes bs output start) (start + p) k = readUIntLE bs p k.
Proof.
  intros Hroom Hp. unfold readUIntLE, writeBytes. f_equal.
  rewrite drop_app_add' by (rewrite length_take; lia).
  rewrite drop_app_le by lia. apply take_app_le. rewrite length_drop. lia.
Qed.

Lemma writtenOffsets_writeBytes bs output start slots :
  start + length bs ≤ length output →
  Forall (λ p, p + BYTES_PER_LENGTH_PREFIX ≤ length bs) slots →
  writtenOffsets (writeBytes bs output start) start slots
  = writtenOffsets bs 0 slots.
Proof.
  intros Hroom Hslots. unfold writtenOffsets.
  apply Forall_fmap_ext_1. eapply Forall_impl; [exact Hslots|]. cbn.
  intros p Hp. by apply readUIntLE_writeBytes.
Qed.

Lemma readUIntLE_slot pre slot rest o :
  encodeOffset o = Ok slot →
  readUIntLE (pre ++ slot ++ rest) (0 + length pre) BYTES_PER_LENGTH_PREFIX
  = Z.of_nat o.
Proof.
  intros Hslot. pose proof (length_encodeOffset _ _ Hslot) as Hlen.
  unfold readUIntLE. cbn [Nat.add]. rewrite drop_app_length.
  rewrite take_app_length' by done.
  unfold encodeOffset in Hslot. case_bool_decide; [|done].
  injection Hslot as <-. apply (le_value_le_bytes (Z.of_nat o) 4).
  change (8 * Z.of_nat 4)%Z with 32%Z. lia.
Qed.

Lemma arraySlots_range pos n :
  Forall (λ p, p + BYTES_PER_LENGTH_PREFIX ≤ pos + n * BYTES_PER_LENGTH_PREFIX)
    (arraySlots pos n).
Proof.
  revert pos. induction n as [|n IH]; intros pos; cbn; constructor; [lia|].
  eapply Forall_impl; [apply IH|]. cbn. intros. lia.
Qed.

Lemma sorted_from (cur : Z) (xs : list Z) :
  StronglySorted Z.le xs → Forall (Z.le cur) xs →
  StronglySorted Z.le (cur :: xs).
Proof. by constructor. Qed.

Section array_offsets.
Context (elementType : FullSSZType).
Local Abbreviation enc := (λ v, encode v elementType).

Lemma encodeVariable_offsets vs cur table bodies pre post :
  Forall (λ v, Refines v elementType) vs →
  encodeVariable enc vs cur = Ok (table, bodies) →
  writtenOffsets (pre ++ table ++ post) 0 (arraySlots (length pre) (length vs))
  = Z.of_nat <$> arrayOffsets elementType vs cur.
Proof.
  intros Hall. revert cur table bodies pre.
  induction Hall as [|v vs [Hlen _] _ IH]; intros cur table bodies pre;
    [done|].
  cbn. destruct (encode v elementType) as [body|] eqn:Hb; [cbn|done].
  destruct (encodeOffset cur) as [slot|] eqn:Hs; [cbn|done].
  destruct (encodeVariable enc vs _) as [[tb bd]|] eqn:Hr; [cbn|done].
  intros [= <- <-]. rewrite <- (app_assoc slot). f_equal.
  - by apply readUIntLE_slot.
  - rewrite <- (Hlen body eq_refl).
    specialize (IH _ _ _ (pre ++ slot) Hr).
    rewrite length_app, (length_encodeOffset _ _ Hs), <- app_assoc in IH.
    exact IH.
Qed.

Lemma arrayOffsets_from vs cur :
  Forall (Z.le (Z.of_nat cur)) (Z.of_nat <$> arrayOffsets elementType vs cur).
Proof.
  revert cur. induction vs as [|v vs IH]; intros cur; cbn; constructor;
    [lia|].
  eapply Forall_impl; [apply IH|]. cbn. intros. lia.
Qed.

Lemma arrayOffsets_sorted vs cur :
  StronglySorted Z.le (Z.of_nat <$> arrayOffsets elementType vs cur).
Proof.
  revert cur. induction vs as [|v vs IH]; intros cur; cbn; [constructor|].
  apply sorted_from; [apply IH|].
  eapply Forall_impl; [apply arrayOffsets_from|]. cbn. intros. lia.
Qed.

Lemma arrayOffsets_head vs cur first :
  head (Z.of_nat <$> arrayOffsets elementType vs cur) = Some first →
  first = Z.of_nat cur.
Proof. destruct vs; cbn; [done|]. by intros [= <-]. Qed.
End array_offsets.

Section container_offsets.
Context (o : gmap string Value).

Lemma encodeFields_offsets fs cur fx vr pre post :
  validFields o fs → Forall (FieldRefines o) fs →
  encodeFields o fs cur = Ok (fx, vr) →
  writtenOffsets (pre ++ fx ++ post) 0 (containerSlots fs (length pre))
  = Z.of_nat <$> containerOffsets o fs cur.
Proof.
  intros Hvalid Hall. revert Hvalid cur fx vr pre.
  induction Hall as [|[name type] fs (v & Hv & Hlen & _) _ IH];
    intros Hvalid cur fx vr pre; [done|].
  apply Forall_cons_1 in Hvalid as [(w & Hw & Hwvalid) Hvalid].
  cbn [fst snd] in *. rewrite Hv in Hw. injection Hw as <-.
  cbn [encodeFields containerSlots containerOffsets fst snd].
  unfold getField, fieldLength. cbn [fst snd]. rewrite Hv. cbn.
  destruct (encode v type) as [body|] eqn:Hb; [cbn|done].
  pose proof (Hlen body eq_refl) as Hbody.
  destruct (isVariableSizeType type) eqn:Ht.
  - destruct (encodeOffset cur) as [slot|] eqn:Hs; [cbn|done].
    destruct (encodeFields o fs _) as [[fx' vr']|] eqn:Hr; [cbn|done].
    intros [= <- <-]. rewrite <- (app_assoc slot). f_equal.
    + by apply readUIntLE_slot.
    + rewrite <- Hbody. specialize (IH Hvalid _ _ _ (pre ++ slot) Hr).
      rewrite length_app, (length_encodeOffset _ _ Hs), <- app_assoc in IH.
      exact IH.
  - destruct (encodeFields o fs _) as [[fx' vr']|] eqn:Hr; [cbn|done].
    intros [= <- <-]. rewrite <- (app_assoc body).
    specialize (IH Hvalid _ _ _ (pre ++ body) Hr).
    rewrite length_app, <- app_assoc in IH.
    unfold fixedSizeOrZero.
    rewrite (fixedSize_encodedLength _ _ Hwvalid Ht), <- Hbody.
    exact IH.
Qed.

Lemma containerSlots_range fs pos :
  validFields o fs →
  Forall (λ p, p + BYTES_PER_LENGTH_PREFIX ≤ pos + fixedRegionLength o fs)
    (containerSlots fs pos).
Proof.
  intros Hvalid. revert pos.
  induction Hvalid as [|[name type] fs (w & Hw & Hwvalid) _ IH];
    intros pos; [constructor|].
  cbn [fst snd] in *.
  destruct (regionLength_cons o name type fs w Hw) as [-> _].
  cbn [containerSlots fst snd]. destruct (isVariableSizeType type) eqn:Ht.
  - constructor; [lia|].
    eapply Forall_impl; [apply IH|]. cbn. intros. lia.
  - unfold fixedSizeOrZero.
    rewrite (fixedSize_encodedLength _ _ Hwvalid Ht).
    eapply Forall_impl; [apply IH|]. cbn. intros. lia.
Qed.

Lemma containerOffsets_from fs cur :
  Forall (Z.le (Z.of_nat cur)) (Z.of_nat <$> containerOffsets o fs cur).
Proof.
  revert cur. induction fs as [|f fs IH]; intros cur; cbn; [constructor|].
  destruct (isVariableSizeType f.2); [|apply IH].
  cbn. constructor; [lia|].
  eapply Forall_impl; [apply IH|]. cbn. intros. lia.
Qed.

Lemma containerOffsets_sorted fs cur :
  StronglySorted Z.le (Z.of_nat <$> containerOffsets o fs cur).
Proof.
  revert cur. induction fs as [|f fs IH]; intros cur; cbn; [constructor|].
  destruct (isVariableSizeType f.2); [|apply IH].
  cbn. apply sorted_from; [apply IH|].
  eapply Forall_impl; [apply containerOffsets_from|]. cbn. intros. lia.
Qed.

Lemma containerOffsets_head fs cur first :
  head (Z.of_nat <$> containerOffsets o fs cur) = Some first →
  first = Z.of_nat cur.
Proof.
  induction fs as [|f fs IH]; cbn; [done|].
  destruct (isVariableSizeType f.2); [|apply IH]. by intros [= <-].
Qed.
End container_offsets.



Lemma array_offsets_written elementType vs bs output start :
  Forall (λ v, Refines v elementType) vs →
  ('(table, bodies) ←
     encodeVariable (λ v, encode v elementType) vs
       (length vs * BYTES_PER_LENGTH_PREFIX);
   Ok (table ++ bodies)) = Ok bs →
  start + length bs ≤ length output →
  writtenOffsets (writeBytes bs output start) start
    (arraySlots 0 (length vs))
  = Z.of_nat <$> arrayOffsets elementType vs
                   (length vs * BYTES_PER_LENGTH_PREFIX).
Proof.
  intros Hall Henc Hroom.
  destruct (encodeVariable _ _ _) as [[tb bd]|] eqn:Hr; [cbn in Henc|done].
  injection Henc as <-.
  destruct (encodeVariable_length _ _ _ _ _ Hall Hr) as [Htb _].
  rewrite writtenOffsets_writeBytes; [|done|].
  - exact (encodeVariable_offsets _ _ _ _ _ [] bd Hall Hr).
  - eapply Forall_impl; [apply arraySlots_range|]. cbn.
    intros p Hp. rewrite length_app. lia.
Qed.

Lemma container_offsets_written o fields bs output start :
  validFields o fields → Forall (FieldRefines o) fields →
  ('(fx, vr) ← encodeFields o fields (fixedRegionLength o fields);
   Ok (fx ++ vr)) = Ok bs →
  start + length bs ≤ length output →
  writtenOffsets (writeBytes bs output start) start (containerSlots fields 0)
  = Z.of_nat <$> containerOffsets o fields (fixedRegionLength o fields).
Proof.
  intros Hvalid Hall Henc Hroom.
  destruct (encodeFields _ _ _) as [[fx vr]|] eqn:Hr; [cbn in Henc|done].
  injection Henc as <-.
  destruct (encodeFields_length _ _ _ _ _ Hall Hr) as [Hfx _].
  rewrite writtenOffsets_writeBytes; [|done|].
  - exact (encodeFields_offsets _ _ _ _ _ [] vr Hvalid Hall Hr).
  - eapply Forall_impl; [by apply (containerSlots_range o fields 0)|]. cbn.
    intros p Hp. rewrite length_app. lia.
Qed.

(** C2: in an aggregate written by the dispatcher, the offsets found in
    the slots of its variable-size children, in child order, are
    non-decreasing, and the first of them is the length of the fixed
    region: [len(value) * 4] for an array, the sum of [fixedSize] (fixed
    fields) and 4 (variable fields) for a container. *)
Theorem offset_table_monotone (v : Value) (T : FullSSZType)
    (output : Buffer) (start : nat) :
  wellFormed T = true → assertValidValue v T = Ok () →
  start + encodedLength v T ≤ length output →
  (∀ output' idx,
     _serialize v T output start = Ok (output', idx) →
     StronglySorted Z.le (writtenOffsets output' start (offsetSlots v T))
     ∧ ∀ first,
         head (writtenOffsets output' start (offsetSlots v T)) = Some first →
         ∃ fixedLength,
           fixedRegionOf v T = Ok fixedLength ∧ first = Z.of_nat fixedLength)
  ∧ (biasFits v T = true → (Z.of_nat (encodedLength v T) < 2 ^ 32)%Z →
     ∃ output' idx, _serialize v T output start = Ok (output', idx)).
Proof.
  intros Hwf Hvalid Hroom. split; cycle 1.
  { intros Hbias Hsmall.
    destruct (_serialize_returns _ _ _ _ Hwf Hvalid Hbias Hsmall Hroom)
      as (bs & _ & Hser).
    eauto. }
  intros output' idx Hser.
  destruct (Refines_returns _ _ _ _ _ _ (_serialize_refines _ _ Hwf Hvalid)
              Hroom Hser) as (bs & Henc & Hlen & -> & _).
  rewrite <- Hlen in Hroom. clear Hser Hlen.
  destruct T as [|u|m|len|elementType m|elementType len|fields].
  1-4: destruct v; cbn; (split; [apply SSorted_nil|done]).
  - apply valid_list in Hvalid as (vs & -> & Hvs & _).
    cbn [offsetSlots fixedRegionOf encode] in *.
    destruct (isVariableSizeType elementType);
      [|cbn; split; [apply SSorted_nil|done]].
    rewrite (array_offsets_written elementType vs bs)
      by (done || by apply Refines_elements).
    split; [apply arrayOffsets_sorted|].
    intros first ->%arrayOffsets_head. eauto.
  - apply valid_vector in Hvalid as (vs & -> & Hvs & _).
    cbn [offsetSlots fixedRegionOf encode] in *.
    destruct (isVariableSizeType elementType);
      [|cbn; split; [apply SSorted_nil|done]].
    rewrite (array_offsets_written elementType vs bs)
      by (done || by apply Refines_elements).
    split; [apply arrayOffsets_sorted|].
    intros first ->%arrayOffsets_head. eauto.
  - apply valid_container in Hvalid as (o & -> & Hfs & _).
    rewrite encode_container, (fixedLengthOf_valid _ _ Hfs) in Henc.
    cbn [offsetSlots fixedRegionOf].
    rewrite (container_offsets_written o fields bs)
      by (done || by apply Refines_fields).
    split; [apply containerOffsets_sorted|].
    intros first ->%containerOffsets_head.
    exists (fixedRegionLength o fields). split; [|done].
    by apply fixedLengthOf_valid.
Qed.

Lemma offset_table_monotone_witness :
  StronglySorted Z.le [14; 17; 17]%Z
  ∧ ∀ first, head [14; 17; 17]%Z = Some first →
             ∃ fixedLength,
               fixedRegionOf
                 (VObject (<["a" := VBytes [1; 2; 3]%Z]>
                          (<["n" := VNumber 0x0102]>
                          (<["b" := VBytes []]>
                          (<["c" := VBytes [4]%Z]> ∅)))))
                 (TContainer [("a", TByteList None);
                              ("n", TUint (mkUint 2 false 0));
                              ("b", TByteList None);
                              ("c", TByteList None)])
               = Ok fixedLength
               ∧ first = Z.of_nat fixedLength.
Proof.
  destruct (offset_table_monotone
              (VObject (<["a" := VBytes [1; 2; 3]%Z]>
                       (<["n" := VNumber 0x0102]>
                       (<["b" := VBytes []]>
                       (<["c" := VBytes [4]%Z]> ∅)))))
              (TContainer [("a", TByteList None);
                           ("n", TUint (mkUint 2 false 0));
                           ("b", TByteList None);
                           ("c", TByteList None)])
              (replicate 20 0%Z) 1)
    as [Hsorted _]; [by vm_compute| by vm_compute| vm_compute; lia |].
  apply (Hsorted
           [0; 14; 0; 0; 0; 2; 1; 17; 0; 0; 0; 17; 0; 0; 0; 1; 2; 3; 4; 0]%Z
           19).
  by vm_compute.
Defined.

(** * Container layout *)

(** A fixed-size field is written inline, at the head of the fixed region,
    and adds nothing to the variable region. *)
Lemma encodeFields_fixed_field o name type fs cur v body fx vr :
  isVariableSizeType type = false →
  o !! name = Some v → encode v type = Ok body →
  encodeFields o fs cur = Ok (fx, vr) →
  encodeFields o ((name, type) :: fs) cur = Ok (body ++ fx, vr).
Proof.
  intros Ht Hv Hb Hr. cbn [encodeFields]. unfold getField.
  rewrite Hv. cbn. rewrite Hb. cbn. rewrite Ht, Hr. done.
Qed.

(** A variable-size field adds a 4-byte little-endian offset slot to the
    fixed region and its body to the variable region; the next body
    starts where this one ends. *)
Lemma encodeFields_variable_field o name type fs cur v body fx vr :
  isVariableSizeType type = true →
  o !! name = Some v → encode v type = Ok body →
  (Z.of_nat cur < 2 ^ 32)%Z →
  encodeFields o fs (cur + length body) = Ok (fx, vr) →
  encodeFields o ((name, type) :: fs) cur
  = Ok (le_bytes (Z.of_nat cur) BYTES_PER_LENGTH_PREFIX ++ fx, body ++ vr).
Proof.
  intros Ht Hv Hb Hcur Hr. cbn [encodeFields]. unfold getField.
  rewrite Hv. cbn. rewrite Hb. cbn. rewrite Ht. unfold encodeOffset.
  rewrite bool_decide_eq_true_2 by done. cbn. rewrite Hr. done.
Qed.

(** C6: a container is written as its fixed region, holding the fixed-size
    fields inline and a 4-byte offset slot per variable-size field in
    declared order, followed by its variable region, holding the bodies of
    the variable-size fields; {x: 0x0102, y: [9, 10]} at
    {x: Uint16, y: List<Uint32>} gives 0201 06000000 09000000 0a000000,
    with a fixed region of 6 bytes and first offset 6. *)
Theorem container_layout (o : gmap string Value)
    (fields : list (string * FullSSZType))
    (output : Buffer) (start : nat) :
  wellFormed (TContainer fields) = true →
  assertValidValue (VObject o) (TContainer fields) = Ok () →
  start + encodedLength (VObject o) (TContainer fields) ≤ length output →
  (∀ output' idx,
     _serialize (VObject o) (TContainer fields) output start
     = Ok (output', idx) →
     ∃ fixedRegion variableRegion,
       fixedLengthOf fields = Ok (length fixedRegion)
       ∧ encodeFields o fields (length fixedRegion)
         = Ok (fixedRegion, variableRegion)
       ∧ output' = writeBytes (fixedRegion ++ variableRegion) output start
       ∧ idx = start + length fixedRegion + length variableRegion)
  ∧ (biasFits (VObject o) (TContainer fields) = true →
     (Z.of_nat (encodedLength (VObject o) (TContainer fields)) < 2 ^ 32)%Z →
     ∃ output' idx,
       _serialize (VObject o) (TContainer fields) output start
       = Ok (output', idx))
  ∧ (let value := VObject (<["x" := VNumber 0x0102]>
                          (<["y" := VArray [VNumber 9; VNumber 10]]> ∅)) in
     let type := ContainerOf "xy" [("x", Shorthand "uint16");
                                   ("y", ListOf (Shorthand "uint32"))] in
     let bytes := [2; 1; 6; 0; 0; 0; 9; 0; 0; 0; 10; 0; 0; 0]%Z in
     serialize value type = Ok bytes
     ∧ (T ← parseType type; fixedRegionOf value T) = Ok 6
     ∧ (T ← parseType type; Ok (writtenOffsets bytes 0 (offsetSlots value T)))
       = Ok [6%Z]).
Proof.
  intros Hwf Hvalid Hroom. split; [|split; [|by vm_compute]].
  - intros output' idx Hser.
    destruct (Refines_returns _ _ _ _ _ _ (_serialize_refines _ _ Hwf Hvalid)
                Hroom Hser) as (bs & Henc & Hlen & -> & ->).
    apply valid_container in Hvalid as (? & [= <-] & Hfs & _).
    pose proof (fixedLengthOf_valid _ _ Hfs) as Hfl.
    rewrite encode_container, Hfl in Henc. cbn in Henc.
    destruct (encodeFields _ _ _) as [[fx vr]|] eqn:Hr; [cbn in Henc|done].
    injection Henc as <-.
    destruct (encodeFields_length _ _ _ _ _ (Refines_fields _ _ Hwf Hfs) Hr)
      as [Hfx Hvr].
    exists fx, vr. rewrite Hfx. split; [done|]. split; [done|].
    split; [done|]. rewrite <- Hlen, length_app. lia.
  - intros Hbias Hsmall.
    destruct (_serialize_returns _ _ _ _ Hwf Hvalid Hbias Hsmall Hroom)
      as (bs & _ & Hser).
    eauto.
Qed.

Lemma container_layout_witness :
  ∃ fixedRegion variableRegion,
    fixedLengthOf [("x", TUint (mkUint 2 false 0));
                   ("y", TList (TUint (mkUint 4 false 0)) None)]
    = Ok (length fixedRegion)
    ∧ encodeFields (<["x" := VNumber 0x0102]>
                   (<["y" := VArray [VNumber 9; VNumber 10]]> ∅))
        [("x", TUint (mkUint 2 false 0));
         ("y", TList (TUint (mkUint 4 false 0)) None)] (length fixedRegion)
      = Ok (fixedRegion, variableRegion)
    ∧ [7; 2; 1; 6; 0; 0; 0; 9; 0; 0; 0; 10; 0; 0; 0; 7]%Z
      = writeBytes (fixedRegion ++ variableRegion) (replicate 16 7%Z) 1
    ∧ 15 = 1 + length fixedRegion + length variableRegion.
Proof.
  destruct (container_layout
              (<["x" := VNumber 0x0102]>
               (<["y" := VArray [VNumber 9; VNumber 10]]> ∅))
              [("x", TUint (mkUint 2 false 0));
               ("y", TList (TUint (mkUint 4 false 0)) None)]
              (replicate 16 7%Z) 1)
    as [Hlayout _]; [by vm_compute| by vm_compute| vm_compute; lia |].
  apply Hlayout. by vm_compute.
Defined.

(** * Remarks *)

(** A negative biased value is written as its magnitude: bn.js ignores the
    sign when it extracts the bytes. *)
Example negative_bias_writes_magnitude :
  _serializeUint (VNumber 0) (mkUint 1 false (-1)) [0%Z] 0 = Ok ([1%Z], 1).
Proof. by vm_compute. Qed.

(** The dispatcher writes a Vector of variable-size elements like a List,
    behind an offset table, and [size] counts the table. *)
Example vector_of_byte_lists :
  let value := VArray [VBytes [1; 2]%Z; VBytes [3]%Z] in
  let type := TVector (TByteList None) 2 in
  _serialize value type (Buffer_alloc 11) 0
  = Ok ([8; 0; 0; 0; 10; 0; 0; 0; 1; 2; 3]%Z, 11)
  ∧ size value type = Ok 11
  ∧ serialize value (Full type)
    = Ok [8; 0; 0; 0; 10; 0; 0; 0; 1; 2; 3]%Z.
Proof. by vm_compute. Qed.

(** Pure shorthand normalises to well-formed descriptors, here the
    container of the literal scenario. *)
Example shorthand_container_wellFormed :
  ∃ T, parseType (ContainerOf "xy" [("x", Shorthand "uint16");
                                    ("y", ListOf (Shorthand "uint32"))])
       = Ok T
       ∧ wellFormed T = true.
Proof.
  eexists. split; [by vm_compute|].
  by apply (parseType_wellFormed
              (ContainerOf "xy" [("x", Shorthand "uint16");
                                 ("y", ListOf (Shorthand "uint32"))])).
Qed.

(** * ES6 [Map] *)

Section jsmap_lemmas.
Context {K V : Type} `{EqDecision K}.
Implicit Types (m : list (K * V)) (k : K) (v : V).

Lemma JsMap_get_None m k : JsMap.get m k = None ↔ k ∉ JsMap.keys m.
Proof.
  unfold JsMap.keys. induction m as [|[k' v'] m IH]; cbn.
  - split; [intros _; apply not_elem_of_nil|done].
  - rewrite not_elem_of_cons. case_decide as Hk.
    + split; [done|]. intros [? _]. congruence.
    + rewrite IH. split; [intros ?; split; [congruence|done]|tauto].
Qed.

Lemma JsMap_get_Some_elem m k v :
  JsMap.get m k = Some v → (k, v) ∈ m.
Proof.
  induction m as [|[k' v'] m IH]; cbn; [done|].
  case_decide as Hk.
  - intros [= <-]. subst. apply elem_of_cons. by left.
  - intros. apply elem_of_cons. right. auto.
Qed.

Lemma JsMap_get_set m k v k' :
  JsMap.get (JsMap.set m k v) k'
  = if decide (k = k') then Some v else JsMap.get m k'.
Proof.
  induction m as [|[k0 v0] m IH]; cbn.
  - by repeat case_decide.
  - destruct (decide (k0 = k)) as [->|Hne]; cbn.
    + by repeat case_decide.
    + rewrite IH. repeat case_decide; congruence.
Qed.

Lemma JsMap_set_absent m k v :
  JsMap.get m k = None → JsMap.set m k v = m ++ [(k, v)].
Proof.
  induction m as [|[k0 v0] m IH]; cbn; [done|].
  case_decide; [done|]. intros Hm. by rewrite IH.
Qed.

Lemma JsMap_keys_set_present m k v :
  is_Some (JsMap.get m k) → JsMap.keys (JsMap.set m k v) = JsMap.keys m.
Proof.
  unfold JsMap.keys. induction m as [|[k0 v0] m IH]; cbn.
  - by intros [? ?].
  - case_decide; [done|]. intros Hm. cbn. by rewrite IH.
Qed.

Lemma JsMap_NoDup_set m k v :
  NoDup (JsMap.keys m) → NoDup (JsMap.keys (JsMap.set m k v)).
Proof.
  intros Hm. destruct (JsMap.get m k) as [v0|] eqn:Hk.
  - by rewrite JsMap_keys_set_present.
  - rewrite JsMap_set_absent by done. unfold JsMap.keys in *.
    rewrite fmap_app. apply NoDup_app. split; [done|]. split.
    + intros x Hx. cbn. rewrite list_elem_of_singleton. intros ->.
      by apply JsMap_get_None in Hk.
    + apply NoDup_singleton.
Qed.

Lemma JsMap_delete_head m k v :
  k ∉ JsMap.keys m → JsMap.delete ((k, v) :: m) k = m.
Proof.
  intros Hk. unfold JsMap.delete. rewrite filter_cons_False by (cbn; tauto).
  unfold JsMap.keys in Hk. induction m as [|[k0 v0] m IH]; [done|].
  cbn in Hk. apply not_elem_of_cons in Hk as [Hne Hk].
  rewrite filter_cons_True by (cbn; congruence). by rewrite IH.
Qed.

Lemma pruneLoop_drop m (n : Z) :
  NoDup (JsMap.keys m) → (0 < n)%Z →
  pruneLoop (JsMap.keys m) m n = drop (Z.to_nat n) m.
Proof.
  revert n. induction m as [|[k v] m IH]; intros n Hm Hn.
  - by rewrite drop_nil.
  - cbn in Hm. apply NoDup_cons in Hm as [Hk Hm].
    cbn [JsMap.keys fmap list_fmap pruneLoop fst].
    rewrite JsMap_delete_head by done.
    replace (Z.to_nat n) with (S (Z.to_nat (n - 1))) by lia. cbn.
    case_bool_decide.
    + replace (Z.to_nat (n - 1)) with 0 by lia. done.
    + apply IH; [done|lia].
Qed.

Lemma pruneLoop_filter (ks : list K) m (n : Z) :
  (0 < n)%Z →
  pruneLoop ks m n = filter (λ kv, kv.1 ∉ take (Z.to_nat n) ks) m.
Proof.
  revert m n. induction ks as [|k ks IH]; intros m n Hn.
  - cbn. rewrite take_nil. symmetry.
    induction m as [|kv m IHm]; [done|].
    rewrite filter_cons_True by apply not_elem_of_nil. by rewrite IHm.
  - cbn [pruneLoop].
    replace (Z.to_nat n) with (S (Z.to_nat (n - 1))) by lia. cbn [take].
    unfold JsMap.delete. case_bool_decide.
    + replace (Z.to_nat (n - 1)) with 0 by lia. rewrite take_0.
      apply list_filter_iff. intros [k' v']. cbn.
      rewrite list_elem_of_singleton. done.
    + rewrite IH by lia. rewrite list_filter_filter.
      apply list_filter_iff. intros [k' v']. cbn.
      rewrite not_elem_of_cons. tauto.
Qed.
End jsmap_lemmas.

(** * [pruneSetToMax] *)

Section pruneSetToMax_lemmas.
Context {K V : Type} `{EqDecision K}.
Implicit Types (set : list (K * V)) (maxItems : Z).

Lemma filter_all {A} (P : A → Prop) `{∀ x, Decision (P x)} (l : list A) :
  (∀ x, x ∈ l → P x) → filter P l = l.
Proof.
  induction l as [|x l IH]; intros Hl; [done|].
  rewrite filter_cons_True by (apply Hl, elem_of_cons; by left).
  rewrite IH; [done|]. intros y Hy. apply Hl, elem_of_cons. by right.
Qed.

Lemma filter_none {A} (P : A → Prop) `{∀ x, Decision (P x)} (l : list A) :
  (∀ x, x ∈ l → ¬ P x) → filter P l = [].
Proof.
  induction l as [|x l IH]; intros Hl; [done|].
  rewrite filter_cons_False by (apply Hl, elem_of_cons; by left).
  apply IH. intros y Hy. apply Hl, elem_of_cons. by right.
Qed.

Lemma insertKey_Permutation {A} (cmp : A → A → Z) k (l : list A) :
  insertKey cmp k l ≡ₚ k :: l.
Proof.
  induction l as [|x l IH]; [done|]. cbn. case_bool_decide; [done|].
  rewrite IH. apply Permutation_swap.
Qed.

Lemma sortKeys_Permutation {A} (cmp : A → A → Z) (ks : list A) :
  sortKeys cmp ks ≡ₚ ks.
Proof.
  induction ks as [|k ks IH]; [done|]. cbn.
  by rewrite insertKey_Permutation, IH.
Qed.

Lemma visited_Permutation compareFn set :
  visited compareFn set ≡ₚ JsMap.keys set.
Proof.
  destruct compareFn as [cmp|]; [|done]. apply sortKeys_Permutation.
Qed.

Lemma pruneSetToMax_unfold set maxItems compareFn :
  (maxItems < Z.of_nat (length set))%Z →
  pruneSetToMax set maxItems compareFn
  = (filter (λ kv, kv.1 ∉ take (Z.to_nat (Z.of_nat (length set) - maxItems))
                               (visited compareFn set)) set,
     (Z.of_nat (length set) - maxItems)%Z).
Proof.
  intros Hlt. unfold pruneSetToMax, JsMap.size.
  rewrite bool_decide_eq_true_2 by lia.
  rewrite pruneLoop_filter by lia. f_equal. lia.
Qed.

Lemma pruned_length set (ks : list K) (n : nat) :
  NoDup (JsMap.keys set) → ks ≡ₚ JsMap.keys set →
  length (filter (λ kv : K * V, kv.1 ∉ take n ks) set) = length set - n.
Proof.
  intros Hset Hks.
  assert (NoDup ks) as Hnd by (by rewrite Hks).
  pose proof (filter_app_complement (λ kv : K * V, kv.1 ∉ take n ks) set)
    as Hsplit.
  apply Permutation_length in Hsplit. rewrite length_app in Hsplit.
  assert (length (filter (λ kv : K * V, ¬ (kv.1 ∉ take n ks)) set)
          = length (take n ks)) as Hdel.
  { rewrite <- (length_fmap fst). apply Permutation_length.
    apply NoDup_Permutation.
    - apply (sublist_NoDup _ (JsMap.keys set)); [exact Hset|].
      apply fmap_sublist, sublist_filter.
    - apply (sublist_NoDup _ ks); [done|apply sublist_take].
    - intros k. rewrite list_elem_of_fmap. split.
      + intros [[k' v] [-> [Hin _]%list_elem_of_filter]]. cbn in Hin.
        by apply dec_stable in Hin.
      + intros Hk.
        assert (k ∈ JsMap.keys set) as Hin.
        { rewrite <- Hks. eapply subseteq_take, Hk. }
        unfold JsMap.keys in Hin. apply list_elem_of_fmap in Hin as [[k' v] [-> Hin]].
        exists (k', v). split; [done|]. apply list_elem_of_filter. cbn. tauto. }
  rewrite Hdel, length_take in Hsplit.
  apply Permutation_length in Hks. unfold JsMap.keys in Hks.
  rewrite length_fmap in Hks. lia.
Qed.

Lemma pruneSetToMax_evicts_oldest_aux set maxItems :
  NoDup (JsMap.keys set) → (0 ≤ maxItems)%Z →
  pruneSetToMax set maxItems None
  = (drop (length set - Z.to_nat maxItems) set,
     Z.of_nat (length set - Z.to_nat maxItems)).
Proof.
  intros Hset Hmax. unfold pruneSetToMax, JsMap.size. case_bool_decide.
  - rewrite pruneLoop_drop by (done || lia). f_equal; [f_equal|]; lia.
  - replace (length set - Z.to_nat maxItems) with 0 by lia.
    rewrite drop_0. f_equal. lia.
Qed.

(** X1: without [compareFn], [pruneSetToMax] drops the oldest entries, the
    first [size - maxItems] in insertion order, keeps the others in their
    order, and reports the number it dropped; a set within the bound is
    left alone and [0] reported. *)
Theorem pruneSetToMax_evicts_oldest set maxItems :
  NoDup (JsMap.keys set) → (0 ≤ maxItems)%Z →
  pruneSetToMax set maxItems None
  = (drop (length set - Z.to_nat maxItems) set,
     Z.of_nat (length set - Z.to_nat maxItems)).
Proof.
  intros Hset Hmax. unfold pruneSetToMax, JsMap.size. case_bool_decide.
  - rewrite pruneLoop_drop by (done || lia). f_equal; [f_equal|]; lia.
  - replace (length set - Z.to_nat maxItems) with 0 by lia.
    rewrite drop_0. f_equal. lia.
Qed.

(** X2: with or without [compareFn], and for a bound that is not negative,
    the pruned set holds [min size maxItems] entries, each one an entry of
    the set in its place, and the reported count is the number of entries
    that went. *)
Theorem pruneSetToMax_size set maxItems compareFn :
  NoDup (JsMap.keys set) → (0 ≤ maxItems)%Z →
  let '(set', deletedItems) := pruneSetToMax set maxItems compareFn in
  set' `sublist_of` set ∧
  length set' = length set `min` Z.to_nat maxItems ∧
  deletedItems = Z.of_nat (length set - length set').
Proof.
  intros Hset Hmax.
  destruct (decide (maxItems < Z.of_nat (length set))%Z) as [Hlt|Hge].
  - rewrite pruneSetToMax_unfold by done.
    split; [apply sublist_filter|].
    rewrite pruned_length by (done || apply visited_Permutation). lia.
  - unfold pruneSetToMax, JsMap.size.
    rewrite bool_decide_eq_false_2 by lia. split; [done|]. lia.
Qed.

(** X4: a negative [maxItems] empties the set, and the count reported,
    [size - maxItems], is more than the number of entries there were to
    delete. *)
Theorem pruneSetToMax_negative set maxItems compareFn :
  (maxItems < 0)%Z →
  pruneSetToMax set maxItems compareFn
  = ([], (Z.of_nat (length set) - maxItems)%Z) ∧
  (Z.of_nat (length set) < (pruneSetToMax set maxItems compareFn).2)%Z.
Proof.
  intros Hneg. rewrite pruneSetToMax_unfold by lia. split; [|cbn; lia].
  f_equal. apply filter_none. intros [k v] Hin Hk. apply Hk. cbn.
  pose proof (visited_Permutation compareFn set) as Hks.
  rewrite take_ge.
  - rewrite Hks. by apply (list_elem_of_fmap_2 fst _ (k, v)).
  - apply Permutation_length in Hks. rewrite Hks. unfold JsMap.keys.
    rewrite length_fmap. lia.
Qed.

End pruneSetToMax_lemmas.

(** ** The order in which [sort] hands out the keys *)

Section stable_sort.
Context {K : Type} (cmp : K → K → Z).
Hypothesis Hcmp : ConsistentComparator cmp.

Lemma consistent_gt_lt a b : (cmp a b > 0)%Z → (cmp b a < 0)%Z.
Proof.
  intros Hab. destruct (Z.lt_trichotomy (cmp b a) 0) as [?|[Hz|Hgt]]; [done|..].
  - apply (compare_sym cmp Hcmp) in Hz. lia.
  - pose proof (compare_trans_gt cmp Hcmp a b a Hab ltac:(lia)).
    pose proof (compare_refl cmp Hcmp a). lia.
Qed.

Lemma consistent_lt_gt a b : (cmp a b < 0)%Z → (cmp b a > 0)%Z.
Proof.
  intros Hab. destruct (Z.lt_trichotomy (cmp b a) 0) as [Hlt|[Hz|?]]; [..|lia].
  - pose proof (compare_trans_lt cmp Hcmp a b a Hab Hlt).
    pose proof (compare_refl cmp Hcmp a). lia.
  - apply (compare_sym cmp Hcmp) in Hz. lia.
Qed.

Lemma consistent_le_trans a b c :
  (cmp a b ≤ 0)%Z → (cmp b c ≤ 0)%Z → (cmp a c ≤ 0)%Z.
Proof.
  intros Hab Hbc.
  destruct (Z.lt_trichotomy (cmp a c) 0) as [?|[?|Hac]]; [lia|lia|].
  exfalso. apply Z.lt_gt in Hac.
  destruct (Z.lt_trichotomy (cmp a b) 0) as [Hlt|[Hz|?]]; [..|lia].
  - (* a < b, b <= c *)
    destruct (Z.lt_trichotomy (cmp b c) 0) as [Hlt'|[Hz'|?]]; [..|lia].
    + pose proof (compare_trans_lt cmp Hcmp a b c Hlt Hlt'). lia.
    + (* b = c, a > c, b > a *)
      pose proof (consistent_lt_gt a b Hlt) as Hba.
      pose proof (compare_trans_gt cmp Hcmp b a c Hba Hac). lia.
  - destruct (Z.lt_trichotomy (cmp b c) 0) as [Hlt'|[Hz'|?]]; [..|lia].
    + (* a = b, b < c, a > c *)
      pose proof (consistent_lt_gt b c Hlt') as Hcb.
      pose proof (compare_trans_gt cmp Hcmp a c b Hac Hcb). lia.
    + pose proof (compare_trans_eq cmp Hcmp a b c Hz Hz'). lia.
Qed.

Lemma comesBefore_cons (k : K) ks a b :
  comesBefore ks a b → comesBefore (k :: ks) a b.
Proof.
  intros (i & j & Hi & Hj & Hij). exists (S i), (S j). cbn.
  split; [done|]. split; [done|lia].
Qed.

Lemma comesBefore_head (k : K) ks b : b ∈ ks → comesBefore (k :: ks) k b.
Proof.
  intros (j & Hj)%list_elem_of_lookup_1. exists 0, (S j). cbn.
  split; [done|]. split; [done|lia].
Qed.

Lemma insertKey_sorted k ks sorted :
  sorted ⊆ ks →
  StronglySorted (sortedBefore cmp (k :: ks)) sorted →
  StronglySorted (sortedBefore cmp (k :: ks)) (insertKey cmp k sorted).
Proof.
  intros Hsub Hs. induction Hs as [|x l Hl IH Hx]; cbn.
  - apply SSorted_cons; [apply SSorted_nil|constructor].
  - assert (l ⊆ ks) as Hsub' by (intros y Hy; apply Hsub, elem_of_cons; tauto).
    case_bool_decide as Hkx.
    + apply SSorted_cons; [by apply SSorted_cons|].
      apply Forall_forall. intros y Hy.
      assert (cmp k y ≤ 0)%Z as Hky.
      { apply elem_of_cons in Hy as [->|Hy]; [done|].
        apply (consistent_le_trans k x y); [done|].
        rewrite Forall_forall in Hx. destruct (Hx y Hy) as [?|[? _]]; lia. }
      destruct (decide (cmp k y < 0)%Z) as [?|Hnlt]; [by left|].
      right. split; [lia|]. apply comesBefore_head, Hsub, Hy.
    + apply SSorted_cons; [by apply IH|].
      rewrite insertKey_Permutation. apply Forall_cons. split; [|done].
      left. apply consistent_gt_lt. lia.
Qed.

Lemma sortKeys_sorted ks :
  StronglySorted (sortedBefore cmp ks) (sortKeys cmp ks).
Proof.
  induction ks as [|k ks IH]; [apply SSorted_nil|].
  change (sortKeys cmp (k :: ks)) with (insertKey cmp k (sortKeys cmp ks)).
  apply insertKey_sorted.
  - intros y Hy. by rewrite sortKeys_Permutation in Hy.
  - clear -IH. induction IH as [|x l Hl IHl Hx]; [apply SSorted_nil|].
    apply SSorted_cons; [done|].
    eapply Forall_impl; [exact Hx|]. cbn.
    intros y [?|[? Hb]]; [by left|]. right. split; [done|].
    by apply comesBefore_cons.
Qed.

End stable_sort.

Section stable_sort_unique.
Context {K : Type} (cmp : K → K → Z).
Hypothesis Hcmp : ConsistentComparator cmp.

Lemma sortedBefore_asym ks a b :
  NoDup ks → sortedBefore cmp ks a b → sortedBefore cmp ks b a → False.
Proof.
  intros Hnd [Hab|[Hab (i & j & Hi & Hj & Hij)]]
             [Hba|[Hba (j' & i' & Hj' & Hi' & Hji)]].
  - pose proof (consistent_lt_gt cmp Hcmp a b Hab). lia.
  - apply (compare_sym cmp Hcmp) in Hba. lia.
  - apply (compare_sym cmp Hcmp) in Hab. lia.
  - pose proof (NoDup_lookup _ _ _ _ Hnd Hi Hi').
    pose proof (NoDup_lookup _ _ _ _ Hnd Hj Hj'). lia.
Qed.

(** A consistent comparator leaves [sort] no choice: the stable sorted
    arrangement of distinct keys is unique, so it is the one [sortKeys]
    computes. *)
Lemma sortKeys_unique ks sorted :
  NoDup ks → sorted ≡ₚ ks →
  StronglySorted (sortedBefore cmp ks) sorted →
  sorted = sortKeys cmp ks.
Proof.
  intros Hnd Hperm Hs.
  pose proof (sortKeys_sorted cmp Hcmp ks) as Hs'.
  assert (sorted ≡ₚ sortKeys cmp ks) as Hpp
    by (by rewrite sortKeys_Permutation).
  revert Hs' Hpp. generalize (sortKeys cmp ks). clear Hperm.
  induction Hs as [|a l Hl IH Ha]; intros l' Hs' Hpp.
  - by apply Permutation_nil_l in Hpp.
  - destruct Hs' as [|b l2 Hl2 Hb].
    { by apply Permutation_nil_r in Hpp. }
    assert (a = b) as <-.
    { assert (a ∈ b :: l2) as Hin by (rewrite <- Hpp; apply elem_of_cons; tauto).
      assert (b ∈ a :: l) as Hin' by (rewrite Hpp; apply elem_of_cons; tauto).
      apply elem_of_cons in Hin as [?|Hin]; [done|].
      apply elem_of_cons in Hin' as [?|Hin']; [done|].
      rewrite Forall_forall in Ha, Hb.
      destruct (sortedBefore_asym ks a b Hnd (Ha b Hin') (Hb a Hin)). }
    f_equal. apply IH; [done|]. by apply Permutation_cons_inv in Hpp.
Qed.

End stable_sort_unique.

Section pruneSetToMax_sorted.
Context {K V : Type} `{EqDecision K}.

(** X3: with a [compareFn] that is a consistent comparator, the entries
    that go are the least ones, and among entries that compare equal the
    older ones: a key that went compares at or below every key that
    stays, and where the two compare equal the key that went was inserted
    first. *)
Theorem pruneSetToMax_least_first (cmp : K → K → Z) (set : list (K * V))
    maxItems d r :
  ConsistentComparator cmp →
  let set' := (pruneSetToMax set maxItems (Some cmp)).1 in
  d ∈ JsMap.keys set → d ∉ JsMap.keys set' → r ∈ JsMap.keys set' →
  (cmp d r ≤ 0)%Z
  ∧ (cmp d r = 0%Z → comesBefore (JsMap.keys set) d r).
Proof.
  intros Hcmp set' Hd Hgone Hr. subst set'.
  destruct (decide (maxItems < Z.of_nat (length set))%Z) as [Hlt|Hge].
  - rewrite pruneSetToMax_unfold in Hgone, Hr by done. cbn in Hgone, Hr.
    set (n := Z.to_nat (Z.of_nat (length set) - maxItems)) in *.
    set (ks := sortKeys cmp (JsMap.keys set)) in *.
    assert (d ∈ take n ks) as Hdt.
    { destruct (decide (d ∈ take n ks)) as [|Hn]; [done|].
      destruct Hgone. unfold JsMap.keys in Hd |- *.
      apply list_elem_of_fmap in Hd as [[d' vd] [-> Hd]].
      apply (list_elem_of_fmap_2 fst _ (d', vd)).
      by apply list_elem_of_filter. }
    assert (r ∈ drop n ks) as Hrd.
    { unfold JsMap.keys in Hr.
      apply list_elem_of_fmap in Hr
        as [[r' vr] [-> [Hr Hrin]%list_elem_of_filter]].
      cbn in *.
      assert (r' ∈ ks) as Hin.
      { unfold ks. rewrite sortKeys_Permutation.
        by apply (list_elem_of_fmap_2 fst _ (r', vr)). }
      rewrite <- (take_drop n ks) in Hin.
      apply elem_of_app in Hin as [|]; done. }
    assert (StronglySorted (sortedBefore cmp (JsMap.keys set))
              (take n ks ++ drop n ks)) as Hs.
    { rewrite take_drop. by apply sortKeys_sorted. }
    destruct (StronglySorted_app_1_elem_of _ _ _ _ _ Hs Hdt Hrd)
      as [?|[? ?]]; split; (lia || done).
  - unfold pruneSetToMax, JsMap.size in Hgone.
    rewrite bool_decide_eq_false_2 in Hgone by lia. done.
Qed.

End pruneSetToMax_sorted.

Lemma sub_ConsistentComparator : ConsistentComparator Z.sub.
Proof. split; intros; lia. Qed.

(** Keys ordered by their tens: 15 and 12 tie, and so do 25 and 21. *)
Lemma tens_ConsistentComparator :
  ConsistentComparator (λ a b, a / 10 - b / 10)%Z.
Proof. split; intros; lia. Qed.

Lemma pruneSetToMax_least_first_witness :
  ((λ a b, a / 10 - b / 10) 15 12 ≤ 0)%Z
  ∧ ((λ a b, a / 10 - b / 10)%Z 15%Z 12%Z = 0%Z →
     comesBefore
       (JsMap.keys [(25%Z, true); (15%Z, false); (12%Z, true)]) 15%Z 12%Z).
Proof.
  apply (pruneSetToMax_least_first
           (λ a b, a / 10 - b / 10)%Z
           [(25%Z, true); (15%Z, false); (12%Z, true)] 2 15%Z 12%Z).
  - apply tens_ConsistentComparator.
  - apply (bool_decide_unpack _). by vm_compute.
  - apply (bool_decide_unpack _). by vm_compute.
  - apply (bool_decide_unpack _). by vm_compute.
Defined.

Lemma pruneSetToMax_evicts_oldest_witness :
  pruneSetToMax [(5, true); (3, false); (9, true)] 2 None
  = ([(3, false); (9, true)], 1%Z).
Proof.
  apply (pruneSetToMax_evicts_oldest [(5, true); (3, false); (9, true)] 2).
  - apply (bool_decide_unpack _). by vm_compute.
  - lia.
Defined.

Lemma pruneSetToMax_size_witness :
  let '(set', deletedItems) :=
    pruneSetToMax [(5%Z, true); (3%Z, false); (9%Z, true)] 1
                  (Some Z.sub) in
  set' `sublist_of` [(5%Z, true); (3%Z, false); (9%Z, true)] ∧
  length set' = 3 `min` Z.to_nat 1 ∧
  deletedItems = Z.of_nat (3 - length set').
Proof.
  apply (pruneSetToMax_size [(5%Z, true); (3%Z, false); (9%Z, true)] 1
                            (Some Z.sub)).
  - apply (bool_decide_unpack _). by vm_compute.
  - lia.
Defined.

Lemma pruneSetToMax_negative_witness :
  pruneSetToMax [(5, true); (3, false)] (-1) None = ([], 3%Z) ∧
  (2 < (pruneSetToMax [(5, true); (3, false)] (-1) None).2)%Z.
Proof. apply (pruneSetToMax_negative [(5, true); (3, false)] (-1) None). lia. Defined.

(** * [MapDef] and [MapDefMax] *)

Section mapdef_lemmas.
Context {K V : Type} `{EqDecision K}.
Implicit Types (map : list (K * V)) (key : K) (getDefault : unit → V).

Lemma JsMap_get_app_absent map key v :
  key ∉ JsMap.keys map → JsMap.get (map ++ [(key, v)]) key = Some v.
Proof.
  intros Hk%JsMap_get_None. rewrite <- JsMap_set_absent by done.
  rewrite JsMap_get_set. by case_decide.
Qed.

(** X5: after [MapDef.getOrDefault] the key is bound to the value the call
    returned, the other keys are bound as before, and a second call
    returns the same value and changes nothing. *)
Theorem MapDef_getOrDefault_caches getDefault map key :
  let '(value, map') := MapDef.getOrDefault getDefault map key in
  JsMap.get map' key = Some value ∧
  (∀ key', key' ≠ key → JsMap.get map' key' = JsMap.get map key') ∧
  MapDef.getOrDefault getDefault map' key = (value, map').
Proof.
  unfold MapDef.getOrDefault.
  destruct (JsMap.get map key) as [value|] eqn:Hget.
  - rewrite Hget. done.
  - rewrite !JsMap_get_set. case_decide; [|done].
    split; [done|]. split; [|done].
    intros key' Hne. rewrite JsMap_get_set. case_decide; congruence.
Qed.

(** X6: a miss of [MapDefMax.getOrDefault] with room for one key or more
    appends the default under the key and drops the oldest entries beyond
    [maxKeys]; the new entry stays, and the call returns its value. *)
Theorem MapDefMax_miss getDefault maxKeys map key :
  NoDup (JsMap.keys map) → MapDefMax.get map key = None →
  (1 ≤ maxKeys)%Z →
  let '(value, map') := MapDefMax.getOrDefault getDefault maxKeys map key in
  value = getDefault () ∧
  map' = drop (length map + 1 - Z.to_nat maxKeys)
              (map ++ [(key, getDefault ())]) ∧
  MapDefMax.get map' key = Some value.
Proof.
  unfold MapDefMax.get, MapDefMax.getOrDefault. intros Hmap Hget Hmax.
  rewrite Hget. rewrite pruneSetToMax_evicts_oldest_aux
    by (by apply JsMap_NoDup_set || lia).
  rewrite JsMap_set_absent by done. cbn [fst].
  rewrite length_app. cbn [length]. split; [done|]. split; [done|].
  rewrite drop_app_le by lia. apply JsMap_get_app_absent.
  apply JsMap_get_None in Hget. intros Hin. apply Hget.
  unfold JsMap.keys in *. rewrite <- (take_drop (length map + 1 - Z.to_nat maxKeys) map).
  rewrite fmap_app. apply elem_of_app. by right.
Qed.

(** X7: [MapDefMax] evicts by age of insertion, not of use.  A hit leaves
    the map as it is, so when the map is full a hit on its oldest key does
    not save that key: the next miss evicts it. *)
Theorem MapDefMax_evicts_by_insertion getDefault maxKeys key0 value0 map key :
  NoDup (JsMap.keys ((key0, value0) :: map)) →
  Z.of_nat (length ((key0, value0) :: map)) = maxKeys →
  key ∉ JsMap.keys ((key0, value0) :: map) →
  let '(hit, map1) :=
    MapDefMax.getOrDefault getDefault maxKeys ((key0, value0) :: map) key0 in
  let '(_, map2) := MapDefMax.getOrDefault getDefault maxKeys map1 key in
  hit = value0 ∧ map1 = (key0, value0) :: map
  ∧ map2 = map ++ [(key, getDefault ())]
  ∧ MapDefMax.get map2 key0 = None.
Proof.
  intros Hnd Hlen Hkey. unfold MapDefMax.getOrDefault at 1.
  cbn [JsMap.get]. rewrite decide_True by done.
  unfold MapDefMax.getOrDefault, MapDefMax.get.
  apply JsMap_get_None in Hkey as Hget. rewrite Hget.
  rewrite pruneSetToMax_evicts_oldest_aux
    by (by apply JsMap_NoDup_set || lia).
  rewrite JsMap_set_absent by done. cbn [fst].
  rewrite length_app. cbn [length].
  replace (S (length map) + 1 - Z.to_nat maxKeys) with 1 by (cbn in Hlen; lia).
  cbn [app drop]. rewrite drop_0.
  split; [done|]. split; [done|]. split; [done|].
  apply JsMap_get_None. unfold JsMap.keys in *. rewrite fmap_app.
  cbn in Hnd, Hkey. apply NoDup_cons in Hnd as [Hk0 _].
  apply not_elem_of_cons in Hkey as [Hne _].
  rewrite elem_of_app. cbn. rewrite list_elem_of_singleton. intros [|]; done.
Qed.

Lemma MapDefMax_step getDefault maxKeys map key :
  (0 ≤ maxKeys)%Z →
  NoDup (JsMap.keys map) ∧ (Z.of_nat (length map) ≤ maxKeys)%Z →
  let map' := (MapDefMax.getOrDefault getDefault maxKeys map key).2 in
  NoDup (JsMap.keys map') ∧ (Z.of_nat (length map') ≤ maxKeys)%Z.
Proof.
  intros Hmax [Hmap Hlen]. unfold MapDefMax.getOrDefault.
  destruct (JsMap.get map key) as [value|] eqn:Hget; [done|]. cbn.
  rewrite pruneSetToMax_evicts_oldest_aux
    by (by apply JsMap_NoDup_set || lia).
  cbn. split.
  - apply (sublist_NoDup _ (JsMap.keys (JsMap.set map key (getDefault ())))).
    + by apply JsMap_NoDup_set.
    + apply fmap_sublist, sublist_drop.
  - rewrite length_drop. lia.
Qed.

(** X8: whatever keys a [MapDefMax] is asked for, and in whatever order,
    its map never holds more than [maxKeys] keys. *)
Theorem MapDefMax_bounded getDefault maxKeys (keys : list K) :
  (0 ≤ maxKeys)%Z →
  (Z.of_nat (JsMap.size (MapDefMax.calls getDefault maxKeys keys))
   ≤ maxKeys)%Z.
Proof.
  intros Hmax. unfold MapDefMax.calls, JsMap.size.
  cut (NoDup (JsMap.keys (foldl (λ map key,
         (MapDefMax.getOrDefault getDefault maxKeys map key).2)
         MapDefMax.new keys))
       ∧ (Z.of_nat (length (foldl (λ map key,
         (MapDefMax.getOrDefault getDefault maxKeys map key).2)
         MapDefMax.new keys)) ≤ maxKeys)%Z); [tauto|].
  assert (NoDup (JsMap.keys (MapDefMax.new (K:=K) (V:=V)))
          ∧ (Z.of_nat (length (MapDefMax.new (K:=K) (V:=V))) ≤ maxKeys)%Z)
    as Hnew by (split; [constructor|cbn; lia]).
  revert Hnew. generalize (MapDefMax.new (K:=K) (V:=V)).
  induction keys as [|key keys IH]; intros map Hinv; [done|].
  cbn [foldl]. apply IH. by apply MapDefMax_step.
Qed.

(** X9: a [MapDefMax] built with [maxKeys] zero or less stores nothing:
    every [getOrDefault] returns a fresh default and prunes it at once, so
    every later [get] misses. *)
Theorem MapDefMax_no_room getDefault maxKeys (keys : list K) key :
  (maxKeys ≤ 0)%Z →
  MapDefMax.calls getDefault maxKeys keys = [] ∧
  MapDefMax.getOrDefault getDefault maxKeys
    (MapDefMax.calls getDefault maxKeys keys) key = (getDefault (), []).
Proof.
  intros Hmax.
  assert (∀ key', MapDefMax.getOrDefault getDefault maxKeys [] key'
                  = (getDefault (), [])) as Hstep.
  { intros key'. unfold MapDefMax.getOrDefault. cbn [JsMap.get JsMap.set].
    f_equal. unfold pruneSetToMax, JsMap.size. cbn [length].
    rewrite bool_decide_eq_true_2 by lia. cbn [visited JsMap.keys fmap list_fmap fst pruneLoop].
    unfold JsMap.delete. rewrite filter_cons_False by (cbn; tauto).
    by case_bool_decide. }
  assert (MapDefMax.calls getDefault maxKeys keys = []) as ->.
  { unfold MapDefMax.calls, MapDefMax.new.
    induction keys as [|key' keys IH]; [done|].
    cbn [foldl]. by rewrite Hstep. }
  done.
Qed.

End mapdef_lemmas.

Lemma MapDefMax_miss_witness :
  let '(value, map') :=
    MapDefMax.getOrDefault (λ _, 0) 2 [(5, 1); (3, 2)] 9 in
  value = 0 ∧
  map' = drop (2 + 1 - Z.to_nat 2) ([(5, 1); (3, 2)] ++ [(9, 0)]) ∧
  MapDefMax.get map' 9 = Some value.
Proof.
  apply (MapDefMax_miss (λ _, 0) 2 [(5, 1); (3, 2)] 9).
  - apply (bool_decide_unpack _). by vm_compute.
  - reflexivity.
  - lia.
Defined.

Lemma MapDefMax_evicts_by_insertion_witness :
  let '(hit, map1) :=
    MapDefMax.getOrDefault (λ _, 0) 2 ((5, 1) :: [(3, 2)]) 5 in
  let '(_, map2) := MapDefMax.getOrDefault (λ _, 0) 2 map1 9 in
  hit = 1 ∧ map1 = (5, 1) :: [(3, 2)]
  ∧ map2 = [(3, 2)] ++ [(9, 0)]
  ∧ MapDefMax.get map2 5 = None.
Proof.
  apply (MapDefMax_evicts_by_insertion (λ _, 0) 2 5 1 [(3, 2)] 9).
  - apply (bool_decide_unpack _). by vm_compute.
  - reflexivity.
  - apply (bool_decide_unpack _). by vm_compute.
Defined.

Lemma MapDefMax_bounded_witness :
  (Z.of_nat (JsMap.size (MapDefMax.calls (λ _, true) 2 [5; 3; 5; 9; 7]%nat))
   ≤ 2)%Z.
Proof.
  apply (MapDefMax_bounded (λ _, true) 2 [5; 3; 5; 9; 7]). lia.
Defined.

Lemma MapDefMax_no_room_witness :
  MapDefMax.calls (λ _, 7) 0 [5; 3] = [] ∧
  MapDefMax.getOrDefault (λ _, 7) 0 (MapDefMax.calls (λ _, 7) 0 [5; 3]) 5
  = (7, []).
Proof. apply (MapDefMax_no_room (λ _, 7) 0 [5; 3] 5). lia. Defined.

(** * [Map2d] and [Map2dArr] *)

Section map2d_lemmas.
Context {K1 K2 V : Type} `{EqDecision K1} `{EqDecision K2}.

(** X10: [Map2d.get] after [Map2d.set] finds the value under the pair of
    keys that was set, and under every other pair what was there
    before. *)
Theorem Map2d_get_set (map : list (K1 * list (K2 * V))) k1 k2 v k1' k2' :
  Map2d.get (Map2d.set map k1 k2 v) k1' k2'
  = if decide (k1 = k1' ∧ k2 = k2') then Some v else Map2d.get map k1' k2'.
Proof.
  unfold Map2d.get, Map2d.set.
  destruct (decide (k1 = k1')) as [<-|Hne1].
  - destruct (decide (k2 = k2')) as [<-|Hne2].
    + rewrite decide_True by done.
      destruct (JsMap.get map k1) as [map2|];
        rewrite JsMap_get_set, decide_True by done;
        by rewrite JsMap_get_set, decide_True.
    + rewrite decide_False by tauto.
      destruct (JsMap.get map k1) as [map2|];
        rewrite JsMap_get_set, decide_True by done;
        by rewrite JsMap_get_set, decide_False.
  - rewrite decide_False by tauto.
    destruct (JsMap.get map k1) as [map2|];
      by rewrite JsMap_get_set, decide_False.
Qed.

(** X11: [Map2d.set] keeps the keys of the outer map distinct and adds at
    most one. *)
Theorem Map2d_set_keys (map : list (K1 * list (K2 * V))) k1 k2 v :
  NoDup (JsMap.keys map) →
  NoDup (JsMap.keys (Map2d.set map k1 k2 v)) ∧
  JsMap.keys (Map2d.set map k1 k2 v)
  = if decide (k1 ∈ JsMap.keys map) then JsMap.keys map
    else JsMap.keys map ++ [k1].
Proof.
  intros Hmap. unfold Map2d.set.
  destruct (JsMap.get map k1) as [map2|] eqn:Hget.
  - split; [by apply JsMap_NoDup_set|].
    rewrite JsMap_keys_set_present by (by rewrite Hget).
    case_decide as Hin; [done|]. apply JsMap_get_None in Hin. congruence.
  - split; [by apply JsMap_NoDup_set|].
    rewrite JsMap_set_absent by done.
    apply JsMap_get_None in Hget. case_decide; [done|].
    unfold JsMap.keys. by rewrite fmap_app.
Qed.

End map2d_lemmas.

Lemma Map2d_set_keys_witness :
  NoDup (JsMap.keys (Map2d.set [(1, [(2, true)])] 3 4 false)) ∧
  JsMap.keys (Map2d.set [(1, [(2, true)])] 3 4 false)
  = if decide (3 ∈ JsMap.keys [(1, [(2, true)])])
    then JsMap.keys [(1, [(2, true)])]
    else JsMap.keys [(1, [(2, true)])] ++ [3].
Proof.
  apply (Map2d_set_keys [(1, [(2, true)])] 3 4 false).
  apply (bool_decide_unpack _). by vm_compute.
Defined.

Section map2darr_lemmas.
Context {K1 V : Type} `{EqDecision K1}.

Lemma length_arraySet (arr : list (option V)) idx v :
  length (arraySet arr idx v) = length arr `max` S idx.
Proof.
  unfold arraySet. case_bool_decide.
  - rewrite length_insert. lia.
  - rewrite !length_app, length_replicate. cbn. lia.
Qed.

Lemma arrayGet_arraySet (arr : list (option V)) idx v idx' :
  arrayGet (arraySet arr idx v) idx'
  = if decide (idx = idx') then Some v else arrayGet arr idx'.
Proof.
  unfold arrayGet, arraySet. case_bool_decide as Hlt.
  - case_decide as Heq.
    + subst. by rewrite list_lookup_insert_eq.
    + by rewrite list_lookup_insert_ne.
  - destruct (decide (idx' < length arr)) as [Hin|Hout].
    + rewrite lookup_app_l by done. case_decide; [lia|done].
    + rewrite lookup_app_r by lia.
      rewrite (lookup_ge_None_2 arr idx') by lia.
      destruct (decide (idx' - length arr < idx - length arr)) as [Hh|Hh].
      * rewrite lookup_app_l by (rewrite length_replicate; lia).
        rewrite lookup_replicate_2 by lia. case_decide; [lia|done].
      * rewrite lookup_app_r by (rewrite length_replicate; lia).
        rewrite length_replicate. case_decide as Heq.
        -- subst. by replace (idx' - length arr - (idx' - length arr)) with 0 by lia.
        -- destruct (idx' - length arr - (idx - length arr)) as [|n] eqn:Hn;
             [lia|done].
Qed.

(** X12: [Map2dArr.get] after [Map2dArr.set] finds the value under the key
    and index that was set, and elsewhere what was there before, also when
    the index lies past the end of the array. *)
Theorem Map2dArr_get_set (map : list (K1 * list (option V))) k1 idx v k1' idx' :
  Map2dArr.get (Map2dArr.set map k1 idx v) k1' idx'
  = if decide (k1 = k1' ∧ idx = idx') then Some v
    else Map2dArr.get map k1' idx'.
Proof.
  unfold Map2dArr.get, Map2dArr.set.
  destruct (decide (k1 = k1')) as [<-|Hne1].
  - destruct (decide (idx = idx')) as [<-|Hne2].
    + rewrite decide_True by done.
      destruct (JsMap.get map k1) as [arr|];
        rewrite JsMap_get_set, decide_True by done;
        by rewrite arrayGet_arraySet, decide_True.
    + rewrite decide_False by tauto.
      destruct (JsMap.get map k1) as [arr|];
        rewrite JsMap_get_set, decide_True by done;
        rewrite arrayGet_arraySet, decide_False by done; [done|].
      unfold arrayGet. by rewrite lookup_nil.
  - rewrite decide_False by tauto.
    destruct (JsMap.get map k1) as [arr|];
      by rewrite JsMap_get_set, decide_False.
Qed.

(** X13: [Map2dArr.set] at an index past the end extends the array to
    [idx + 1] entries, and the entries between the old end and [idx] are
    holes that [get] reports as absent. *)
Theorem Map2dArr_set_extends (map : list (K1 * list (option V))) k1 idx v arr :
  JsMap.get map k1 = Some arr → length arr ≤ idx →
  ∃ arr', JsMap.get (Map2dArr.set map k1 idx v) k1 = Some arr' ∧
          length arr' = S idx ∧
          ∀ i, length arr ≤ i < idx →
               Map2dArr.get (Map2dArr.set map k1 idx v) k1 i = None.
Proof.
  intros Hget Hidx. unfold Map2dArr.get, Map2dArr.set. rewrite Hget.
  rewrite JsMap_get_set. case_decide; [|done].
  exists (arraySet arr idx v). split; [done|].
  split; [rewrite length_arraySet; lia|].
  intros i Hi. rewrite arrayGet_arraySet. case_decide; [lia|].
  unfold arrayGet. by rewrite lookup_ge_None_2 by lia.
Qed.

End map2darr_lemmas.

Lemma Map2dArr_set_extends_witness :
  ∃ arr', JsMap.get (Map2dArr.set [(7, [Some true])] 7 3 false) 7 = Some arr' ∧
          length arr' = 4 ∧
          ∀ i, 1 ≤ i < 3 →
               Map2dArr.get (Map2dArr.set [(7, [Some true])] 7 3 false) 7 i
               = None.
Proof.
  apply (Map2dArr_set_extends [(7, [Some true])] 7 3 false [Some true]).
  - reflexivity.
  - cbn. lia.
Defined.

(** * The leaf writers at the edge of the buffer *)

Lemma writeBytes_singleton (b : Z) (out : list Z) s :
  s < length out → writeBytes [b] out s = <[s := b]> out.
Proof.
  intros Hs. apply list_eq. intros i.
  rewrite lookup_writeBytes by (cbn; lia). cbn [length].
  destruct (decide (i = s)) as [->|Hne].
  - rewrite decide_True by lia. rewrite list_lookup_insert_eq by done.
    by replace (s - s) with 0 by lia.
  - rewrite decide_False by lia. by rewrite list_lookup_insert_ne.
Qed.

Lemma lookup_Buffer_copy (src target : list Z) s i :
  i < length target →
  Buffer_copy src target s !! i
  = if decide (s ≤ i < s + length src) then src !! (i - s) else target !! i.
Proof.
  intros Hi. unfold Buffer_copy.
  destruct (decide (s ≤ length target)) as [Hs|Hs].
  - rewrite lookup_writeBytes by (rewrite length_take; lia).
    rewrite length_take. case_decide as H1; case_decide as H2; try lia.
    + apply lookup_take_lt. lia.
    + done.
  - replace (length target - s) with 0 by lia. rewrite take_0.
    unfold writeBytes. cbn [app length].
    rewrite take_ge, drop_ge, app_nil_r by lia.
    case_decide; [lia|done].
Qed.

(** X14: [_serializeBool] writes the one byte [1] or [0] at [start] and
    leaves every other byte as it is; at or past the end of the buffer it
    throws a [RangeError]. *)
Theorem _serializeBool_bounds (b : bool) (output : list Z) (start : nat) :
  _serializeBool b output start
  = if bool_decide (start < length output)
    then Ok (<[start := if b then 1%Z else 0%Z]> output, start + 1)
    else Err RangeError.
Proof.
  unfold _serializeBool, writeUInt8.
  destruct (decide (start < length output)) as [Hs|Hs].
  - rewrite !(bool_decide_eq_true_2 (start < _)) by done.
    rewrite !(bool_decide_eq_true_2 (start + 1 ≤ _)) by lia.
    destruct b; cbn; by rewrite writeBytes_singleton.
  - rewrite !(bool_decide_eq_false_2 (start < _)) by done.
    rewrite !(bool_decide_eq_false_2 (start + 1 ≤ _)) by lia.
    by destruct b.
Qed.

(** X15: [_serializeUint] has no bounds check.  On a buffer too short for
    the integer it throws nothing: it writes the bytes that fit, leaves
    the length of the buffer as it is, and still returns
    [start + byteLength], an index past the end. *)
Theorem _serializeUint_truncates (u : UintType) (v : Z) (output : list Z)
    (start : nat) :
  0 < byteLength u →
  (0 ≤ v + offset u < 2 ^ (8 * Z.of_nat (byteLength u)))%Z →
  ∃ output',
    _serializeUint (VNumber v) u output start
    = Ok (output', start + byteLength u)
    ∧ length output' = length output
    ∧ ∀ i, i < length output →
           output' !! i
           = if decide (start ≤ i < start + byteLength u)
             then le_bytes (v + offset u) (byteLength u) !! (i - start)
             else output !! i.
Proof.
  intros Hn Hv. rewrite _serializeUint_encode, encodeUint_number by done.
  eexists. split; [done|]. split; [apply length_Buffer_copy|].
  intros i Hi. rewrite lookup_Buffer_copy by done.
  by rewrite length_le_bytes.
Qed.

(** X16: what [_serializeUint] writes reads back, with [readUIntLE], as the
    value plus the [offset] of the type; so two values written for the
    same type give the same bytes only when they are equal. *)
Theorem _serializeUint_round_trip (u : UintType) (v : Z) (output : list Z)
    (start : nat) :
  0 < byteLength u →
  (0 ≤ v + offset u < 2 ^ (8 * Z.of_nat (byteLength u)))%Z →
  start + byteLength u ≤ length output →
  ∃ output',
    _serializeUint (VNumber v) u output start
    = Ok (output', start + byteLength u)
    ∧ (readUIntLE output' start (byteLength u) - offset u = v)%Z.
Proof.
  intros Hn Hv Hroom. rewrite _serializeUint_encode, encodeUint_number by done.
  eexists. split; [done|].
  rewrite Buffer_copy_fits by (rewrite length_le_bytes; lia).
  replace start with (start + 0) at 2 by lia.
  rewrite readUIntLE_writeBytes by (rewrite length_le_bytes; lia).
  unfold readUIntLE. rewrite drop_0, take_ge by (rewrite length_le_bytes; lia).
  rewrite le_value_le_bytes by done. lia.
Qed.

(** X17: the bytes of the [Infinity] sentinel are the bytes of the largest
    integer of the width, so the two are written alike: a reader cannot
    tell the sentinel from [2^(8 * byteLength) - 1 - offset]. *)
Theorem _serializeUint_sentinel_collides (u : UintType) (output : list Z)
    (start : nat) :
  6 < byteLength u → useNumber u = true →
  _serializeUint VInfinity u output start
  = _serializeUint
      (VNumber (2 ^ (8 * Z.of_nat (byteLength u)) - 1 - offset u)) u
      output start.
Proof.
  intros Hn Hnum. rewrite !_serializeUint_encode.
  rewrite encodeUint_sentinel by done.
  assert (0 < 2 ^ (8 * Z.of_nat (byteLength u)))%Z
    by (apply Z.pow_pos_nonneg; lia).
  rewrite encodeUint_number by lia.
  replace (2 ^ (8 * Z.of_nat (byteLength u)) - 1 - offset u + offset u)%Z
    with (2 ^ (8 * Z.of_nat (byteLength u)) - 1)%Z by lia.
  by rewrite le_bytes_ones.
Qed.

Lemma Buffer_from_bytes (bs : list Z) :
  forallb isByte bs = true → Buffer_from bs = bs.
Proof.
  unfold Buffer_from. induction bs as [|b bs IH]; [done|].
  cbn. intros [Hb Hbs]%andb_true_iff. rewrite IH by done. f_equal.
  unfold isByte in Hb. apply bool_decide_eq_true in Hb.
  rewrite land_255. apply Z.mod_small. lia.
Qed.

(** X18: [serialize] of a valid byte string, as a [ByteList] or a
    [ByteVector], is the byte string itself. *)
Theorem serialize_bytes_verbatim (bs : list Z) (T : FullSSZType) :
  match T with TByteList _ | TByteVector _ => True | _ => False end →
  assertValidValue (VBytes bs) T = Ok () →
  serialize (VBytes bs) (Full T) = Ok bs.
Proof.
  intros HT Hvalid.
  destruct (valid_bytes _ _ HT Hvalid) as (bs' & [= <-] & Hbytes & Hlen).
  unfold serialize. cbn [parseType].
  change (Ok T ≫= ?f) with (f T). cbv beta. rewrite Hvalid.
  change (Ok () ≫= ?f) with (f ()). cbv beta.
  destruct T as [| |m|len| | |]; try done.
  - rewrite size_variable by done.
    change (Ok ?x ≫= ?f) with (f x). cbv beta. cbn [_serialize].
    unfold _serializeByteArray, Buffer_copy.
    rewrite Buffer_from_bytes, length_Buffer_alloc by done.
    rewrite Nat.sub_0_r, take_ge by lia.
    by rewrite writeBytes_all by (by rewrite length_Buffer_alloc).
  - rewrite size_fixed by done. cbn [fixedSize].
    change (Ok ?x ≫= ?f) with (f x). cbv beta. cbn [_serialize].
    unfold _serializeByteArray, Buffer_copy.
    rewrite Buffer_from_bytes, length_Buffer_alloc by done.
    rewrite Nat.sub_0_r, take_ge by lia.
    by rewrite writeBytes_all by (by rewrite length_Buffer_alloc).
Qed.

Lemma _serializeUint_truncates_witness :
  ∃ output',
    _serializeUint (VNumber 0x01020304) (mkUint 4 false 0) [9; 9; 9]%Z 1
    = Ok (output', 1 + 4)
    ∧ length output' = 3
    ∧ ∀ i, i < 3 →
           output' !! i
           = if decide (1 ≤ i < 1 + 4)
             then le_bytes (0x01020304 + 0) 4 !! (i - 1)
             else [9; 9; 9]%Z !! i.
Proof.
  apply (_serializeUint_truncates (mkUint 4 false 0) 0x01020304
           [9; 9; 9]%Z 1); cbn; lia.
Defined.

Lemma _serializeUint_round_trip_witness :
  ∃ output',
    _serializeUint (VNumber 300) (mkUint 2 false 5) [9; 9; 9]%Z 1
    = Ok (output', 1 + 2)
    ∧ (readUIntLE output' 1 2 - 5 = 300)%Z.
Proof.
  apply (_serializeUint_round_trip (mkUint 2 false 5) 300 [9; 9; 9]%Z 1);
    cbn; lia.
Defined.

Lemma _serializeUint_sentinel_collides_witness :
  _serializeUint VInfinity (mkUint 8 true 0) (Buffer_alloc 8) 0
  = _serializeUint (VNumber (2 ^ (8 * Z.of_nat 8) - 1 - 0))
      (mkUint 8 true 0) (Buffer_alloc 8) 0.
Proof.
  apply (_serializeUint_sentinel_collides (mkUint 8 true 0) (Buffer_alloc 8) 0).
  - cbn. lia.
  - reflexivity.
Defined.

Lemma serialize_bytes_verbatim_witness :
  serialize (VBytes [1; 2; 255]%Z) (Full (TByteVector 3))
  = Ok [1; 2; 255]%Z.
Proof.
  apply (serialize_bytes_verbatim [1; 2; 255]%Z (TByteVector 3)).
  - exact I.
  - reflexivity.
Defined.

(** * [serialize] and the wire format *)

Lemma serialize_Full_encode v T bs :
  wellFormed T = true → serialize v (Full T) = Ok bs →
  assertValidValue v T = Ok () ∧ encode v T = Ok bs
  ∧ length bs = encodedLength v T.
Proof.
  intros Hwf (T' & n & idx & [= <-] & Hvalid & Hsize & Hser)%serialize_unfold.
  split; [done|].
  apply size_encodedLength in Hsize as ->; [|done].
  destruct (_serialize_refines T v Hwf Hvalid) as [Hlen Href].
  rewrite Href in Hser by (rewrite length_Buffer_alloc; lia).
  destruct (encode v T) as [bs'|] eqn:Henc; [|done].
  specialize (Hlen bs' eq_refl). cbn in Hser.
  rewrite writeBytes_all in Hser by (by rewrite length_Buffer_alloc).
  by injection Hser as -> _.
Qed.

Lemma encode_serialize v T n bs :
  wellFormed T = true → assertValidValue v T = Ok () →
  size v T = Ok n → encode v T = Ok bs →
  serialize v (Full T) = Ok bs.
Proof.
  intros Hwf Hvalid Hsize Henc. unfold serialize. cbn [parseType].
  change (Ok T ≫= ?f) with (f T). cbv beta. rewrite Hvalid.
  change (Ok () ≫= ?f) with (f ()). cbv beta. rewrite Hsize.
  change (Ok n ≫= ?f) with (f n). cbv beta.
  apply size_encodedLength in Hsize as ->; [|done].
  destruct (_serialize_refines T v Hwf Hvalid) as [Hlen Href].
  rewrite Href by (rewrite length_Buffer_alloc; lia). rewrite Henc. cbn.
  rewrite writeBytes_all; [done|].
  rewrite length_Buffer_alloc. symmetry. by apply Hlen.
Qed.

(** X19: what [serialize] returns for a value is what [_serialize] writes
    for it anywhere: at every [start] of every buffer with room, the
    dispatcher overwrites [length bs] bytes with the bytes [bs] of
    [serialize], and returns the index after them. *)
Theorem _serialize_position_independent v T bs (output : list Z)
    (start : nat) :
  wellFormed T = true → serialize v (Full T) = Ok bs →
  start + length bs ≤ length output →
  _serialize v T output start
  = Ok (writeBytes bs output start, start + length bs).
Proof.
  intros Hwf (Hvalid & Henc & Hlen)%serialize_Full_encode Hroom; [|done].
  destruct (_serialize_refines T v Hwf Hvalid) as [_ Href].
  rewrite Href by lia. by rewrite Henc.
Qed.

Lemma allOk_intro {A} (f : A → Result unit) xs :
  Forall (λ x, f x = Ok ()) xs → allOk (f <$> xs) = Ok ().
Proof. induction 1 as [|x xs Hx _ IH]; [done|]. cbn. by rewrite Hx. Qed.

Lemma encodeFixed_concat elementType vs bss :
  Forall2 (λ v bs, encode v elementType = Ok bs) vs bss →
  encodeFixed (λ v, encode v elementType) vs = Ok (concat bss).
Proof.
  induction 1 as [|v bs vs bss Hv _ IH]; [done|].
  cbn. rewrite Hv. cbn. by rewrite IH.
Qed.

(** X20: a list of fixed-size elements serializes to the concatenation of
    the serializations of its elements, in order, with nothing before,
    between or after them. *)
Theorem serialize_list_concat elementType maxLength vs bss :
  wellFormed elementType = true →
  isVariableSizeType elementType = false →
  withinMax (length vs) maxLength = true →
  Forall2 (λ v bs, serialize v (Full elementType) = Ok bs) vs bss →
  serialize (VArray vs) (Full (TList elementType maxLength))
  = Ok (concat bss).
Proof.
  intros Hwf Hfixed Hmax Hall.
  assert (Forall2 (λ v bs, assertValidValue v elementType = Ok ()
                           ∧ encode v elementType = Ok bs) vs bss) as Hall'.
  { eapply Forall2_impl; [exact Hall|]. cbn. intros v bs Hv.
    apply serialize_Full_encode in Hv; tauto. }
  destruct (fixedSize_defined _ Hfixed) as [k Hk].
  apply (encode_serialize _ _ (length vs * k)).
  - done.
  - cbn [assertValidValue]. rewrite Hmax. cbn. apply allOk_intro.
    apply Forall2_Forall_l with (Q := λ v, assertValidValue v elementType = Ok ())
      in Hall'; [done|].
    apply Forall_true. tauto.
  - rewrite size_variable by done. by rewrite Hfixed, Hk.
  - cbn [encode]. rewrite Hfixed. apply encodeFixed_concat.
    eapply Forall2_impl; [exact Hall'|]. cbn. tauto.
Qed.

Lemma encodeFields_fixed_concat o fields bss cur :
  forallb (λ f, negb (isVariableSizeType f.2)) fields = true →
  Forall2 (λ f bs, ∃ v, o !! f.1 = Some v ∧ encode v f.2 = Ok bs)
          fields bss →
  encodeFields o fields cur = Ok (concat bss, []).
Proof.
  intros Hfixed Hall. induction Hall as [|[name type] bs fs bss Hf _ IH];
    [done|].
  cbn in Hfixed. apply andb_true_iff in Hfixed as [Ht Hfixed].
  apply negb_true_iff in Ht. destruct Hf as (v & Hv & Henc).
  by apply (encodeFields_fixed_field o name type fs cur v); [..|apply IH].
Qed.

(** X21: a container whose fields are all of fixed size serializes to the
    concatenation of the serializations of its fields, in the order the
    type declares them; it has no offset table. *)
Theorem serialize_fixed_container o fields bss :
  wellFormed (TContainer fields) = true →
  forallb (λ f, negb (isVariableSizeType f.2)) fields = true →
  dom o = list_to_set (fields.*1) →
  Forall2 (λ f bs, ∃ v, o !! f.1 = Some v
                        ∧ serialize v (Full f.2) = Ok bs) fields bss →
  serialize (VObject o) (Full (TContainer fields)) = Ok (concat bss).
Proof.
  intros Hwf Hfixed Hdom Hall.
  assert (Forall2 (λ f bs, ∃ v, o !! f.1 = Some v
                     ∧ assertValidValue v f.2 = Ok ()
                     ∧ encode v f.2 = Ok bs) fields bss) as Hall'.
  { cbn [wellFormed] in Hwf.
    assert (Forall (λ f, wellFormed f.2 = true) fields) as Hwfs.
    { apply Forall_forall. intros f Hf.
      by apply (forallb_elem (λ f, wellFormed f.2) fields). }
    clear -Hall Hwfs. induction Hall as [|f bs fs bss (v & Hv & Hs) _ IH];
      [constructor|].
    apply Forall_cons_1 in Hwfs as [Hwf Hwfs]. constructor; [|by apply IH].
    exists v. split; [done|]. apply serialize_Full_encode in Hs; tauto. }
  assert (validFields o fields) as Hvalid.
  { apply Forall2_Forall_l with
      (Q := λ f, ∃ v, o !! f.1 = Some v ∧ assertValidValue v f.2 = Ok ())
      in Hall'; [done|].
    apply Forall_true. intros f bs (v & ? & ? & ?). eauto. }
  assert (isVariableSizeType (TContainer fields) = false) as Hfix.
  { cbn. clear -Hfixed. induction fields as [|f fs IH]; [done|].
    cbn in *. apply andb_true_iff in Hfixed as [Hf Hfs].
    apply negb_true_iff in Hf. by rewrite Hf, IH. }
  destruct (fixedSize_defined _ Hfix) as [n Hn].
  apply (encode_serialize _ _ n).
  - done.
  - cbn [assertValidValue]. rewrite bool_decide_eq_true_2 by done. cbn.
    apply allOk_intro. eapply Forall_impl; [exact Hvalid|]. cbn.
    intros f (v & -> & Hv). done.
  - by rewrite size_fixed.
  - rewrite encode_container, (fixedLengthOf_valid o) by done. cbn.
    rewrite (encodeFields_fixed_concat o fields bss); [|done|].
    + cbn. by rewrite app_nil_r.
    + eapply Forall2_impl; [exact Hall'|]. cbn.
      intros f bs (v & ? & ? & ?). eauto.
Qed.

Lemma _serialize_position_independent_witness :
  _serialize (VArray [VBytes [1; 2]%Z; VBytes [3]%Z])
    (TVector (TByteList None) 2) (replicate 13 9%Z) 1
  = Ok (writeBytes [8; 0; 0; 0; 10; 0; 0; 0; 1; 2; 3]%Z (replicate 13 9%Z) 1,
        1 + length [8; 0; 0; 0; 10; 0; 0; 0; 1; 2; 3]%Z).
Proof.
  apply (_serialize_position_independent
           (VArray [VBytes [1; 2]%Z; VBytes [3]%Z])
           (TVector (TByteList None) 2)
           [8; 0; 0; 0; 10; 0; 0; 0; 1; 2; 3]%Z (replicate 13 9%Z) 1).
  - reflexivity.
  - by vm_compute.
  - cbn. lia.
Defined.

Lemma serialize_list_concat_witness :
  serialize (VArray [VNumber 1; VNumber 2])
            (Full (TList (TUint (mkUint 2 false 0)) None))
  = Ok (concat [[1; 0]; [2; 0]]%Z).
Proof.
  apply (serialize_list_concat (TUint (mkUint 2 false 0)) None
           [VNumber 1; VNumber 2] [[1; 0]; [2; 0]]%Z).
  - reflexivity.
  - reflexivity.
  - reflexivity.
  - constructor; [by vm_compute|].
    constructor; [by vm_compute|]. constructor.
Defined.

Lemma serialize_fixed_container_witness :
  serialize (VObject (<["a" := VNumber 1]> (<["b" := VBool true]> ∅)))
            (Full (TContainer [("a", TUint (mkUint 2 false 0)); ("b", TBool)]))
  = Ok (concat [[1; 0]; [1]]%Z).
Proof.
  apply (serialize_fixed_container
           (<["a" := VNumber 1]> (<["b" := VBool true]> ∅))
           [("a", TUint (mkUint 2 false 0)); ("b", TBool)]
           [[1; 0]; [1]]%Z).
  - reflexivity.
  - reflexivity.
  - apply (bool_decide_unpack _). by vm_compute.
  - constructor; [exists (VNumber 1); split; by vm_compute|].
    constructor; [exists (VBool true); split; by vm_compute|]. constructor.
Defined.

(** * What the dispatcher does to the buffer on any input *)

Section keeps.
Local Abbreviation bytes := (Forall (λ b : Z, (0 ≤ b < 256)%Z)).

(** [Keeps output start output' idx]: the call did not resize the buffer,
    did not move the index backwards, and left a buffer of bytes a buffer
    of bytes. *)
Local Abbreviation Keeps output start output' idx :=
  (length output' = length output ∧ start ≤ idx
   ∧ (bytes output → bytes output')).

Lemma bytes_land (x : Z) : (0 ≤ Z.land x 255 < 256)%Z.
Proof. rewrite land_255. apply Z.mod_pos_bound. lia. Qed.

Lemma bytes_le_bytes x n : bytes (le_bytes x n).
Proof.
  revert x. induction n as [|n IH]; intros x; cbn; [constructor|].
  constructor; [apply bytes_land|apply IH].
Qed.

Lemma bytes_Buffer_from bs : bytes (Buffer_from bs).
Proof.
  unfold Buffer_from. apply Forall_fmap, Forall_true. intros b. cbn.
  apply bytes_land.
Qed.

Lemma bytes_writeBytes bs out s :
  bytes bs → bytes out → bytes (writeBytes bs out s).
Proof.
  intros Hbs Hout. unfold writeBytes. rewrite !Forall_app.
  split; [by apply Forall_take|]. split; [done|by apply Forall_drop].
Qed.

Lemma bytes_Buffer_copy src out s :
  bytes src → bytes out → bytes (Buffer_copy src out s).
Proof.
  intros Hsrc Hout. unfold Buffer_copy.
  apply bytes_writeBytes; [by apply Forall_take|done].
Qed.

Lemma bytes_encodeUint v u bs : encodeUint v u = Ok bs → bytes bs.
Proof.
  unfold encodeUint, BN_toArrayLike_le.
  destruct (if sentinelBranch u v then _ else _) as [x|]; [cbn|done].
  case_bool_decide; [|done]. intros [= <-]. apply bytes_le_bytes.
Qed.

Lemma writeUIntLE_keeps out x s n out' :
  writeUIntLE out x s n = Ok out' →
  length out' = length out ∧ (bytes out → bytes out').
Proof.
  unfold writeUIntLE.
  destruct (bool_decide (1 ≤ n ≤ 6)); [|done].
  destruct (bool_decide (0 ≤ x < 2 ^ (8 * Z.of_nat n))%Z); [|done].
  case_bool_decide; [cbn|done]. intros [= <-]. split.
  - apply length_writeBytes. by rewrite length_le_bytes.
  - apply bytes_writeBytes, bytes_le_bytes.
Qed.

Section array.
Context (ser : Writer).
Hypothesis Hser : ∀ v output start output' idx,
  ser v output start = Ok (output', idx) → Keeps output start output' idx.

Lemma _serializeArray_fixed_keeps vs output index output' idx :
  _serializeArray_fixed ser vs output index = Ok (output', idx) →
  Keeps output index output' idx.
Proof.
  revert output index. induction vs as [|v vs IH]; intros output index.
  - by intros [= <- <-].
  - cbn. destruct (ser v output index) as [[o1 i1]|] eqn:Hv; [cbn|done].
    intros Hrest. apply Hser in Hv as (Hl1 & Hi1 & Hb1).
    apply IH in Hrest as (Hl2 & Hi2 & Hb2).
    split; [congruence|]. split; [lia|auto].
Qed.

Lemma _serializeArray_variable_keeps start vs output fixedIndex cur
    output' idx :
  _serializeArray_variable ser start vs output fixedIndex cur
  = Ok (output', idx) →
  Keeps output cur output' idx.
Proof.
  revert output fixedIndex cur.
  induction vs as [|v vs IH]; intros output fixedIndex cur.
  - by intros [= <- <-].
  - cbn. destruct (ser v output cur) as [[o1 i1]|] eqn:Hv; [cbn|done].
    destruct (writeUIntLE o1 _ fixedIndex _) as [o2|] eqn:Hw; [cbn|done].
    intros Hrest. apply Hser in Hv as (Hl1 & Hi1 & Hb1).
    apply writeUIntLE_keeps in Hw as (Hlw & Hbw).
    apply IH in Hrest as (Hl2 & Hi2 & Hb2).
    split; [congruence|]. split; [lia|auto].
Qed.

End array.

Lemma _serializeObject_loop_keeps o start fs output fixedIndex cur
    output' idx :
  Forall (λ f, ∀ v output start output' idx,
            _serialize v f.2 output start = Ok (output', idx) →
            Keeps output start output' idx) fs →
  _serializeObject_loop o start fs output fixedIndex cur
  = Ok (output', idx) →
  Keeps output cur output' idx.
Proof.
  intros Hfs. revert output fixedIndex cur.
  induction Hfs as [|[name type] fs Hf _ IH]; intros output fixedIndex cur.
  - by intros [= <- <-].
  - cbn [_serializeObject_loop]. cbn [snd] in Hf.
    destruct (getField o name) as [v|]; [cbn|by destruct isVariableSizeType].
    destruct (isVariableSizeType type).
    + destruct (_serialize v type output cur) as [[o1 i1]|] eqn:Hv;
        [cbn|done].
      destruct (writeUIntLE o1 _ fixedIndex _) as [o2|] eqn:Hw; [cbn|done].
      intros Hrest. apply Hf in Hv as (Hl1 & Hi1 & Hb1).
      apply writeUIntLE_keeps in Hw as (Hlw & Hbw).
      apply IH in Hrest as (Hl2 & Hi2 & Hb2).
      split; [congruence|]. split; [lia|auto].
    + destruct (_serialize v type output fixedIndex) as [[o1 i1]|] eqn:Hv;
        [cbn|done].
      intros Hrest. apply Hf in Hv as (Hl1 & Hi1 & Hb1).
      apply IH in Hrest as (Hl2 & Hi2 & Hb2).
      split; [congruence|]. split; [lia|auto].
Qed.

Lemma _serialize_keeps type :
  ∀ v output start output' idx,
    _serialize v type output start = Ok (output', idx) →
    Keeps output start output' idx.
Proof.
  induction type as [|u|m|len|elementType m IH|elementType len IH|fields IH]
    using FullSSZType_nested_ind; intros v output start output' idx.
  - destruct v as [b| | | | |]; try done. cbn [_serialize].
    unfold _serializeBool, writeUInt8.
    assert (∀ x : Z, (0 ≤ x < 256)%Z →
      (if bool_decide (0 ≤ x < 256)%Z
          && bool_decide (start + 1 ≤ length output)
       then Ok (writeBytes [x] output start) else Err RangeError)
      ≫= (λ o, Ok (o, start + 1)) = Ok (output', idx) →
      Keeps output start output' idx) as Hone.
    { intros x Hx. rewrite (bool_decide_eq_true_2 _ Hx).
      case_bool_decide; [cbn|done]. intros [= <- <-].
      split; [by apply length_writeBytes|]. split; [lia|].
      apply bytes_writeBytes. by constructor. }
    destruct b; apply Hone; lia.
  - cbn [_serialize]. rewrite _serializeUint_encode.
    destruct (encodeUint v u) as [bs|] eqn:Hbs; [cbn|done].
    intros [= <- <-]. split; [apply length_Buffer_copy|]. split; [lia|].
    apply bytes_Buffer_copy. by apply bytes_encodeUint in Hbs.
  - destruct v as [| | |bs| |]; try done. cbn. intros [= <- <-].
    split; [apply length_Buffer_copy|]. split; [lia|].
    apply bytes_Buffer_copy, bytes_Buffer_from.
  - destruct v as [| | |bs| |]; try done. cbn. intros [= <- <-].
    split; [apply length_Buffer_copy|]. split; [lia|].
    apply bytes_Buffer_copy, bytes_Buffer_from.
  - destruct v as [| | | |vs|]; try done. cbn [_serialize].
    unfold _serializeArray. destruct (isVariableSizeType elementType).
    + intros Hloop.
      apply _serializeArray_variable_keeps in Hloop as (? & ? & ?);
        [|exact IH].
      split; [done|]. split; [lia|done].
    + by apply _serializeArray_fixed_keeps.
  - destruct v as [| | | |vs|]; try done. cbn [_serialize].
    unfold _serializeArray. destruct (isVariableSizeType elementType).
    + intros Hloop.
      apply _serializeArray_variable_keeps in Hloop as (? & ? & ?);
        [|exact IH].
      split; [done|]. split; [lia|done].
    + by apply _serializeArray_fixed_keeps.
  - destruct v as [| | | | |o]; try done. rewrite _serialize_container.
    unfold _serializeObject.
    destruct (fixedLengthOf fields) as [fixedLength|]; [cbn|done].
    intros Hloop.
    apply _serializeObject_loop_keeps in Hloop as (? & ? & ?); [|exact IH].
    split; [done|]. split; [lia|done].
Qed.

End keeps.

Section kept.

Lemma writeUIntLE_error out x s n e :
  writeUIntLE out x s n = Err e → e = RangeError.
Proof.
  unfold writeUIntLE.
  destruct (_ && _); [done|]. by intros [= <-].
Qed.

Lemma leaf_no_TypeError v type output start e :
  match type with
  | TBool | TUint _ | TByteList _ | TByteVector _ => True
  | _ => False
  end →
  shaped v type = true →
  _serialize v type output start = Err e → e ≠ TypeError.
Proof.
  destruct type as [|u|m|len| | |]; try done; intros _.
  - destruct v as [b| | | | |]; try done. intros _. cbn.
    unfold _serializeBool, writeUInt8.
    destruct b; (destruct (_ && _); [done|]); by intros [= <-].
  - intros Hv. cbn [_serialize]. rewrite _serializeUint_encode.
    unfold encodeUint, BN_toArrayLike_le.
    destruct (sentinelBranch u v).
    + cbn. case_bool_decide; [done|]. by intros [= <-].
    + destruct v as [|n| | | |]; try done; cbn.
      * case_bool_decide; [done|]. by intros [= <-].
      * by intros [= <-].
  - destruct v as [| | |bs| |]; done.
  - destruct v as [| | |bs| |]; done.
Qed.

Lemma leafRun_kept v type output start :
  match type with
  | TBool | TUint _ | TByteList _ | TByteVector _ => True
  | _ => False
  end →
  shaped v type = true →
  Kept (leafRun (λ output, _serialize v type output start) output)
    output start.
Proof.
  intros Hleaf Hv. unfold leafRun.
  destruct (_serialize v type output start) as [[o i]|e] eqn:Hser.
  - apply _serialize_keeps in Hser as (Hl & Hi & Hb).
    split; [done|]. split; [done|]. split; [|done]. cbn. by intros idx [= <-].
  - split; [done|]. split; [done|]. split; [done|]. cbn.
    intros [= ->]. by eapply leaf_no_TypeError.
Qed.

Section array.
Context (elementType : FullSSZType).
Local Abbreviation run := (λ v, _serialize_run v elementType).

Lemma _serializeArray_fixed_run_kept vs output index :
  Forall (λ v, ∀ output s, Kept (run v s output) output s) vs →
  Kept (_serializeArray_fixed_run run vs index output) output index.
Proof.
  intros Hvs. revert output index.
  induction Hvs as [|v vs Hv _ IH]; intros output index.
  - split; [done|]. split; [done|]. split; [|done]. cbn.
    intros idx [= <-]. lia.
  - cbn [_serializeArray_fixed_run].
    destruct (Hv output index) as (Hl1 & Hb1 & Hi1 & He1).
    destruct (_serialize_run v elementType index output) as [o1 [i1|e]].
    + cbn in Hl1, Hb1, Hi1. specialize (Hi1 i1 eq_refl).
      destruct (IH o1 i1) as (Hl2 & Hb2 & Hi2 & He2).
      split; [congruence|]. split; [auto|]. split; [|done].
      intros idx Hidx. specialize (Hi2 idx Hidx). lia.
    + done.
Qed.

Lemma _serializeArray_variable_run_kept start vs output fixedIndex cur :
  Forall (λ v, ∀ output s, Kept (run v s output) output s) vs →
  Kept (_serializeArray_variable_run run start vs fixedIndex cur output)
    output cur.
Proof.
  intros Hvs. revert output fixedIndex cur.
  induction Hvs as [|v vs Hv _ IH]; intros output fixedIndex cur.
  - split; [done|]. split; [done|]. split; [|done]. cbn.
    intros idx [= <-]. lia.
  - cbn [_serializeArray_variable_run].
    destruct (Hv output cur) as (Hl1 & Hb1 & Hi1 & He1).
    destruct (_serialize_run v elementType cur output) as [o1 [i1|e]].
    + cbn in Hl1, Hb1, Hi1. specialize (Hi1 i1 eq_refl).
      destruct (writeUIntLE o1 _ fixedIndex _) as [o2|e] eqn:Hw.
      * apply writeUIntLE_keeps in Hw as [Hlw Hbw].
        destruct (IH o2 (fixedIndex + BYTES_PER_LENGTH_PREFIX) i1)
          as (Hl2 & Hb2 & Hi2 & He2).
        split; [congruence|]. split; [auto|]. split; [|done].
        intros idx Hidx. specialize (Hi2 idx Hidx). lia.
      * apply writeUIntLE_error in Hw as ->.
        split; [done|]. split; [done|]. split; done.
    + done.
Qed.

End array.

Lemma _serializeObject_loop_run_kept o start fs output fixedIndex cur :
  Forall (λ f, ∃ v, o !! f.1 = Some v
                    ∧ ∀ output s,
                        Kept (_serialize_run v f.2 s output) output s) fs →
  Kept (_serializeObject_loop_run o start fs fixedIndex cur output)
    output cur.
Proof.
  intros Hfs. revert output fixedIndex cur.
  induction Hfs as [|[name type] fs (v & Hv & Hf) _ IH];
    intros output fixedIndex cur.
  - split; [done|]. split; [done|]. split; [|done]. cbn.
    intros idx [= <-]. lia.
  - cbn [fst snd] in *.
    cbn [_serializeObject_loop_run]. unfold getField. rewrite Hv.
    destruct (isVariableSizeType type).
    + destruct (Hf output cur) as (Hl1 & Hb1 & Hi1 & He1).
      destruct (_serialize_run v type cur output) as [o1 [i1|e]]; [|done].
      cbn in Hl1, Hb1, Hi1. specialize (Hi1 i1 eq_refl).
      destruct (writeUIntLE o1 _ fixedIndex _) as [o2|e] eqn:Hw.
      * apply writeUIntLE_keeps in Hw as [Hlw Hbw].
        destruct (IH o2 (fixedIndex + BYTES_PER_LENGTH_PREFIX) i1)
          as (Hl2 & Hb2 & Hi2 & He2).
        split; [congruence|]. split; [auto|]. split; [|done].
        intros idx Hidx. specialize (Hi2 idx Hidx). lia.
      * apply writeUIntLE_error in Hw as ->.
        split; [done|]. split; [done|]. split; done.
    + destruct (Hf output fixedIndex) as (Hl1 & Hb1 & Hi1 & He1).
      destruct (_serialize_run v type fixedIndex output) as [o1 [i1|e]];
        [|done].
      cbn in Hl1, Hb1.
      destruct (IH o1 i1 cur) as (Hl2 & Hb2 & Hi2 & He2).
      split; [congruence|]. split; [auto|]. split; done.
Qed.

Lemma fixedLengthOf_defined fields : ∃ n, fixedLengthOf fields = Ok n.
Proof.
  unfold fixedLengthOf. induction fields as [|[name type] fs [n IH]];
    [by exists 0|].
  cbn. destruct (isVariableSizeType type) eqn:Ht.
  - rewrite IH. cbn. eauto.
  - destruct (fixedSize_defined _ Ht) as [k ->]. rewrite IH. cbn. eauto.
Qed.

Lemma _serialize_run_kept type :
  ∀ v, shaped v type = true →
       ∀ output start, Kept (_serialize_run v type start output) output start.
Proof.
  induction type as [|u|m|len|elementType m IH|elementType len IH|fields IH]
    using FullSSZType_nested_ind; intros v Hv output start.
  - by apply leafRun_kept.
  - by apply leafRun_kept.
  - by apply leafRun_kept.
  - by apply leafRun_kept.
  - destruct v as [| | | |vs|]; try done. cbn [shaped] in Hv.
    cbn [_serialize_run]. unfold _serializeArray_run.
    assert (Forall (λ v, ∀ output s,
              Kept (_serialize_run v elementType s output) output s) vs)
      as Hall.
    { apply Forall_forall. intros w Hw. apply IH.
      by apply (forallb_elem (λ v, shaped v elementType) vs). }
    destruct (isVariableSizeType elementType).
    + destruct (_serializeArray_variable_run_kept elementType start vs
                  output start
                  (start + length vs * BYTES_PER_LENGTH_PREFIX) Hall)
        as (Hl & Hb & Hi & He).
      split; [done|]. split; [done|]. split; [|done].
      intros idx Hidx. specialize (Hi idx Hidx). lia.
    + by apply _serializeArray_fixed_run_kept.
  - destruct v as [| | | |vs|]; try done. cbn [shaped] in Hv.
    cbn [_serialize_run]. unfold _serializeArray_run.
    assert (Forall (λ v, ∀ output s,
              Kept (_serialize_run v elementType s output) output s) vs)
      as Hall.
    { apply Forall_forall. intros w Hw. apply IH.
      by apply (forallb_elem (λ v, shaped v elementType) vs). }
    destruct (isVariableSizeType elementType).
    + destruct (_serializeArray_variable_run_kept elementType start vs
                  output start
                  (start + length vs * BYTES_PER_LENGTH_PREFIX) Hall)
        as (Hl & Hb & Hi & He).
      split; [done|]. split; [done|]. split; [|done].
      intros idx Hidx. specialize (Hi idx Hidx). lia.
    + by apply _serializeArray_fixed_run_kept.
  - destruct v as [| | | | |o]; try done. cbn [shaped] in Hv.
    rewrite _serialize_run_container.
    destruct (fixedLengthOf_defined fields) as [fixedLength ->].
    assert (Forall (λ f, ∃ v, o !! f.1 = Some v
              ∧ ∀ output s,
                  Kept (_serialize_run v f.2 s output) output s) fields)
      as Hall.
    { induction IH as [|f fs Hf _ IHfs]; [constructor|].
      cbn in Hv. apply andb_true_iff in Hv as [Hv1 Hv].
      constructor; [|by apply IHfs].
      destruct (o !! f.1) as [w|]; [|done]. exists w. split; [done|].
      intros o' s. by apply Hf. }
    destruct (_serializeObject_loop_run_kept o start fields output start
                (start + fixedLength) Hall) as (Hl & Hb & Hi & He).
    split; [done|]. split; [done|]. split; [|done].
    intros idx Hidx. specialize (Hi idx Hidx). lia.
Qed.

(** X22: for every value of the shape its type asks for, whether it passes
    validation or not, a call of [_serialize] has not resized the buffer
    and has written bytes only (a buffer of bytes stays one), whether the
    call returns or throws; if it returns, the index is at or after
    [start]; and the call reaches none of the coercions that the model
    leaves out. *)
Theorem _serialize_keeps_buffer v type (output : list Z) (start : nat) :
  shaped v type = true →
  (∀ output' r,
     _serialize_run v type start output = (output', r) →
     length output' = length output
     ∧ (Forall (λ b, 0 ≤ b < 256)%Z output →
        Forall (λ b, 0 ≤ b < 256)%Z output')
     ∧ (∀ idx, r = Ok idx → start ≤ idx)
     ∧ r ≠ Err TypeError)
  ∧ (∀ output' idx,
       _serialize v type output start = Ok (output', idx) →
       length output' = length output ∧ start ≤ idx
       ∧ (Forall (λ b, 0 ≤ b < 256)%Z output →
          Forall (λ b, 0 ≤ b < 256)%Z output'))
  ∧ _serialize v type output start ≠ Err TypeError.
Proof.
  intros Hv.
  pose proof (_serialize_run_kept type v Hv output start) as Hkept.
  split; [|split].
  - intros output' r Hrun. rewrite Hrun in Hkept. exact Hkept.
  - intros output' idx Hser.
    destruct (_serialize_keeps type v output start output' idx Hser)
      as (Hlen & Hidx & Hbytes).
    split; [exact Hlen|]. split; [exact Hidx|exact Hbytes].
  - rewrite _serialize_run_returned.
    destruct Hkept as (_ & _ & _ & He).
    destruct (_serialize_run v type start output) as [o [i|e]]; cbn in *;
      [done|congruence].
Qed.

Lemma _serialize_keeps_buffer_witness :
  length [1; 0]%Z = length [0; 0]%Z
  ∧ (Forall (λ b, 0 ≤ b < 256)%Z [0; 0]%Z →
     Forall (λ b, 0 ≤ b < 256)%Z [1; 0]%Z)
  ∧ (∀ idx, (Err AssertionError : Result nat) = Ok idx → 0 ≤ idx)
  ∧ (Err AssertionError : Result nat) ≠ Err TypeError.
Proof.
  destruct (_serialize_keeps_buffer
              (VArray [VNumber 1; VNumber 300])
              (TList (TUint (mkUint 1 false 0)) None) [0; 0]%Z 0)
    as [Hrun _]; [reflexivity|].
  apply (Hrun [1; 0]%Z (Err AssertionError)). reflexivity.
Defined.

End kept.


Lemma _serializeObject_loop_undeclared o k x start fs output fixedIndex cur :
  k ∉ fs.*1 →
  _serializeObject_loop (<[k := x]> o) start fs output fixedIndex cur
  = _serializeObject_loop o start fs output fixedIndex cur.
Proof.
  revert output fixedIndex cur.
  induction fs as [|[name type] fs IH]; intros output fixedIndex cur Hk;
    [done|].
  cbn in Hk. apply not_elem_of_cons in Hk as [Hne Hk].
  cbn [_serializeObject_loop]. unfold getField.
  rewrite lookup_insert_ne by done.
  destruct (o !! name) as [v|]; [cbn|done].
  destruct (isVariableSizeType type).
  - destruct (_serialize v type output cur) as [[o1 i1]|]; [cbn|done].
    destruct (writeUIntLE o1 _ fixedIndex _) as [o2|]; [cbn|done].
    by apply IH.
  - destruct (_serialize v type output fixedIndex) as [[o1 i1]|]; [cbn|done].
    by apply IH.
Qed.

(** X24: [_serialize] of a container reads the fields the type declares
    and no other: a property of the object under a name the type does not
    declare, whatever its value, changes neither the result nor the
    error. *)
Theorem _serialize_ignores_undeclared o k x fields (output : list Z)
    (start : nat) :
  k ∉ fields.*1 →
  _serialize (VObject (<[k := x]> o)) (TContainer fields) output start
  = _serialize (VObject o) (TContainer fields) output start.
Proof.
  intros Hk. rewrite !_serialize_container. unfold _serializeObject.
  destruct (fixedLengthOf fields) as [fixedLength|]; [cbn|done].
  by apply _serializeObject_loop_undeclared.
Qed.

Lemma _serialize_ignores_undeclared_witness :
  _serialize (VObject (<["z" := VBool true]> (<["a" := VNumber 1]> ∅)))
    (TContainer [("a", TUint (mkUint 2 false 0))]) [9; 9]%Z 0
  = _serialize (VObject (<["a" := VNumber 1]> ∅))
      (TContainer [("a", TUint (mkUint 2 false 0))]) [9; 9]%Z 0.
Proof.
  apply (_serialize_ignores_undeclared (<["a" := VNumber 1]> ∅) "z"
           (VBool true) [("a", TUint (mkUint 2 false 0))] [9; 9]%Z 0).
  apply (bool_decide_unpack _). by vm_compute.
Defined.



Lemma encodeVariable_concat elementType vs bss cur table bodies :
  Forall2 (λ v bs, encode v elementType = Ok bs) vs bss →
  encodeVariable (λ v, encode v elementType) vs cur = Ok (table, bodies) →
  length table = length vs * BYTES_PER_LENGTH_PREFIX
  ∧ bodies = concat bss.
Proof.
  intros Hall. revert cur table bodies.
  induction Hall as [|v bs vs bss Hv _ IH]; intros cur table bodies.
  - by intros [= <- <-].
  - cbn [encodeVariable]. rewrite Hv. cbn.
    destruct (encodeOffset cur) as [slot|] eqn:Hslot; [cbn|done].
    destruct (encodeVariable _ vs (cur + length bs)) as [[t b]|] eqn:Hrest;
      [cbn|done].
    intros [= <- <-]. destruct (IH _ _ _ Hrest) as [Ht ->].
    apply length_encodeOffset in Hslot.
    rewrite length_app, Hslot, Ht. cbn. split; [lia|done].
Qed.

(** X26: a list of variable-size elements serializes to a table of one
    4-byte slot per element followed by the serializations of the
    elements, concatenated in order. *)
Theorem serialize_list_bodies elementType maxLength vs bss bs :
  wellFormed elementType = true →
  isVariableSizeType elementType = true →
  Forall2 (λ v bs, serialize v (Full elementType) = Ok bs) vs bss →
  serialize (VArray vs) (Full (TList elementType maxLength)) = Ok bs →
  drop (length vs * BYTES_PER_LENGTH_PREFIX) bs = concat bss
  ∧ length bs = length vs * BYTES_PER_LENGTH_PREFIX + length (concat bss).
Proof.
  intros Hwf Hvar Hall (_ & Henc & _)%serialize_Full_encode; [|done].
  cbn [encode] in Henc. rewrite Hvar in Henc.
  destruct (encodeVariable _ vs _) as [[table bodies]|] eqn:Hev; [|done].
  cbn in Henc. injection Henc as <-.
  apply (encodeVariable_concat _ _ bss) in Hev as [Ht ->].
  - rewrite <- Ht, drop_app_length, length_app. done.
  - eapply Forall2_impl; [exact Hall|]. cbn. intros v b Hv.
    apply serialize_Full_encode in Hv; tauto.
Qed.

Lemma serialize_list_bodies_witness :
  drop (2 * BYTES_PER_LENGTH_PREFIX)
       [8; 0; 0; 0; 14; 0; 0; 0; 4; 0; 0; 0; 1; 2; 4; 0; 0; 0; 3]%Z
  = concat [[4; 0; 0; 0; 1; 2]; [4; 0; 0; 0; 3]]%Z
  ∧ length [8; 0; 0; 0; 14; 0; 0; 0; 4; 0; 0; 0; 1; 2; 4; 0; 0; 0; 3]%Z
    = 2 * BYTES_PER_LENGTH_PREFIX
      + length (concat [[4; 0; 0; 0; 1; 2]; [4; 0; 0; 0; 3]]%Z).
Proof.
  apply (serialize_list_bodies (TVector (TByteList None) 1) None
           [VArray [VBytes [1; 2]%Z]; VArray [VBytes [3]%Z]]
           [[4; 0; 0; 0; 1; 2]; [4; 0; 0; 0; 3]]%Z
           [8; 0; 0; 0; 14; 0; 0; 0; 4; 0; 0; 0; 1; 2; 4; 0; 0; 0; 3]%Z).
  - reflexivity.
  - reflexivity.
  - constructor; [by vm_compute|].
    constructor; [by vm_compute|]. constructor.
  - by vm_compute.
Defined.
